(** * Allocation matrices, partition accounting and sample allocation of
      the approximate control variate estimators

    A shallow embedding of [pyapprox/multifidelity/multioutput_monte_carlo.py].

    Conventions.
    - A numpy integer or 0/1 float array is a [list Z].  The functions
      that compute with costs, ratios and sample counts in double
      precision are embedded over a type [R] of doubles with the
      operations of an [Arith R]: what is proved of them holds for every
      arithmetic, [binary64] (the doubles of IEEE 754, as the processor
      computes them) and [rationals] (exact arithmetic) being two.  The
      estimator object of the sweep over the recursion indices is kept in
      the exact arithmetic; what is proved of it does not depend on a
      computed value.
    - A two dimensional allocation matrix [mat] of shape [(M, 2M)] is kept
      by columns: the list has one entry per column and [mat !! c] is the
      slice [mat[:, c]].  Every slice operation of the source is a column
      operation, [mat[i, c]] is [entry mat i c].
    - A Python exception of the array code is [None] in the [option]
      monad; where the kind of the exception matters, a function returns a
      [result], [Ok] or [Raise], and a method that also changes the
      estimator returns an [outcome] with the estimator's state.
    - A torch tensor of two dimensions is its shape and its entries.
    - The routines of scipy and torch that the module calls (the
      constrained minimization, the pseudo-inverse) are variables of the
      sections that use them. *)

From Stdlib Require Import ZArith QArith Qround Lia Lqa ZifyNat Zify String.
From Corelib Require PrimFloat FloatOps SpecFloat.
From stdpp Require Import base tactics option list.

Open Scope nat_scope.

(** [lia] also decides goals with division and remainder by a constant. *)
Ltac Zify.zify_post_hook ::= Z.to_euclidean_division_equations.

#[local] Arguments Nat.mul : simpl never.
#[local] Arguments Nat.div : simpl never.
#[local] Arguments Nat.modulo : simpl never.
#[local] Arguments Z.mul : simpl never.
#[local] Arguments Z.add : simpl never.

(** ** Loops *)

(** [for x in xs: s = body(s, x)], where the body may raise. *)
Fixpoint for_each {A St : Type} (body : St -> A -> option St) (xs : list A)
    (s : St) : option St :=
  match xs with
  | [] => Some s
  | x :: xs' => s' ← body s x; for_each body xs' s'
  end.

(** [range(a, b)] *)
Definition range (a b : nat) : list nat := seq a (b - a).

(** ** The arithmetic of the doubles *)

(** The doubles and the operations on them that the module uses.  Nothing
    is assumed of the operations: no associativity, no exactness, no
    ordering law. *)
Class Arith (R : Type) := {
  r_zero : R;
  r_one : R;
  (** the literal [1e-8] *)
  r_eps : R;
  r_add : R -> R -> R;
  r_sub : R -> R -> R;
  r_mul : R -> R -> R;
  r_div : R -> R -> R;
  (** [a < b] *)
  r_lt : R -> R -> bool;
  (** [a.sum()] of an array of doubles: numpy and torch add the entries
      in an order of their own *)
  r_sum : list R -> R;
  (** an integer of 64 bits stored in an array of doubles *)
  r_of_int : Z -> R;
  (** [np.floor(x).astype(int)] *)
  r_floor : R -> Z;
  (** [a.sum()] of an array of integers of 64 bits *)
  int_sum : list Z -> Z }.

(** ** numpy primitives *)

(** The element types of the arrays that are summed: sample counts are
    integers after rounding and reals before. *)
Class Num (A : Type) := { num_zero : A; num_add : A -> A -> A }.

#[global] Instance nat_num : Num nat := {| num_zero := 0; num_add := Nat.add |}.
#[global] Instance Z_num : Num Z := {| num_zero := 0%Z; num_add := Z.add |}.
#[global] Instance Q_num : Num Q := {| num_zero := 0%Q; num_add := Qplus |}.

Module np.

(** Index [c] into an axis of length [n]: negative indices count from the
    end, anything else out of range raises [IndexError]. *)
Definition index (n : nat) (c : Z) : option nat :=
  if decide (0 <= c < Z.of_nat n)%Z then Some (Z.to_nat c)
  else if decide (- Z.of_nat n <= c < 0)%Z then Some (Z.to_nat (c + Z.of_nat n))
  else None.

(** [np.zeros((nrows, ncols))], by columns. *)
Definition zeros (nrows ncols : nat) : list (list Z) :=
  replicate ncols (replicate nrows 0%Z).

(** [col == 1] *)
Definition eq1 (col : list Z) : list bool :=
  (fun x => bool_decide (x = 1%Z)) <$> col.

(** [a | b] on boolean arrays of one shape. *)
Definition lor (a b : list bool) : list bool := zip_with orb a b.

Fixpoint where_from (i : nat) (mask : list bool) : list nat :=
  match mask with
  | [] => []
  | b :: mask' =>
      if b then i :: where_from (S i) mask' else where_from (S i) mask'
  end.

(** [np.where(mask)[0]]: the positions that hold, ascending. *)
Definition flatnonzero (mask : list bool) : list nat := where_from 0 mask.

(** [np.where(col == 1)[0]] *)
Definition where1 (col : list Z) : list nat := flatnonzero (eq1 col).

(** [np.maximum(a, b)] on arrays of one shape. *)
Definition maximum (a b : list Z) : list Z := zip_with Z.max a b.

(** [a[lb:ub]] along the first axis. *)
Definition slice {A} (a : list A) (lb ub : nat) : list A :=
  take (ub - lb) (drop lb a).

(** [a[idx]] for an integer index array [idx]; an index out of range
    raises [IndexError]. *)
Definition take_rows {A} (a : list A) (idx : list nat) : option (list A) :=
  mapM (fun i => a !! i) idx.

(** [np.hstack(arrays)] of one dimensional arrays, [np.vstack] of row
    blocks: concatenation, [ValueError] on an empty list. *)
Definition hstack {A} (arrays : list (list A)) : option (list A) :=
  match arrays with
  | [] => None
  | _ => Some (concat arrays)
  end.

(** [a.sum()] *)
Definition sum {A} `{Num A} (a : list A) : A := foldr num_add num_zero a.

Fixpoint cumsum_from (acc : nat) (a : list nat) : list nat :=
  match a with
  | [] => []
  | x :: a' => (acc + x) :: cumsum_from (acc + x) a'
  end.

Definition cumsum (a : list nat) : list nat := cumsum_from 0 a.

Fixpoint split_from {A} (prev : nat) (arr : list A) (points : list nat)
    : list (list A) :=
  match points with
  | [] => [drop prev arr]
  | p :: points' => slice arr prev p :: split_from p arr points'
  end.

(** [np.split(arr, points)] for ascending split points. *)
Definition split {A} (arr : list A) (points : list nat) : list (list A) :=
  split_from 0 arr points.

(** [a * b] on one dimensional arrays: elementwise, an array of one
    element is broadcast, other shapes do not match. *)
Definition mul {R} `{Arith R} (a b : list R) : option (list R) :=
  if decide (length a = length b) then Some (zip_with r_mul a b)
  else match a, b with
       | [x], _ => Some (r_mul x <$> b)
       | _, [y] => Some ((fun x => r_mul x y) <$> a)
       | _, _ => None
       end.

(** The generator: the raw draws still to come.  A draw from
    [np.arange(n)] is the next raw draw reduced below [n]. *)
Definition rng := nat -> nat.

(** [np.random.choice(np.arange(n), size=n, replace=True)] *)
Definition random_choice (n : nat) (g : rng) : list nat * rng :=
  ((fun k => g k mod n) <$> seq 0 n, fun k => g (n + k)).

(** [np.arange(n)] and [np.zeros(n)]. *)
Fixpoint arange_from (start : Z) (n : nat) : list Z :=
  match n with
  | 0 => []
  | S n => start :: arange_from (start + 1)%Z n
  end.

Definition arange (n : nat) : list Z := arange_from 0%Z n.

Definition zeros1 (n : nat) : list Z := replicate n 0%Z.

(** [np.isclose(a, b)] with the default [rtol=1e-05] and [atol=1e-08],
    which is [|a - b| <= atol + rtol * |b|], on integers; both sides are
    multiplied by [10^8]. *)
Definition isclose (a b : Z) : bool :=
  (100000000 * Z.abs (a - b) <=? 1 + 1000 * Z.abs b)%Z.

(** [np.allclose(a, b)] on arrays of one length. *)
Definition allclose (a b : list Z) : bool :=
  forallb (fun ab => isclose ab.1 ab.2) (zip a b).

End np.

(** Exact arithmetic: the rationals, with the sum and the floor of
    mathematics. *)
#[global] Instance rationals : Arith Q := {|
  r_zero := 0%Q;
  r_one := 1%Q;
  r_eps := (1 # 100000000)%Q;
  r_add := Qplus;
  r_sub := Qminus;
  r_mul := Qmult;
  r_div := Qdiv;
  r_lt := fun a b => if Qlt_le_dec a b then true else false;
  r_sum := np.sum;
  r_of_int := inject_Z;
  r_floor := Qfloor;
  int_sum := np.sum |}.

(** The doubles of IEEE 754 (binary64, rounding to nearest even), which
    are the primitive floats of the kernel. *)
Module b64.

(** An integer as the nearest double. *)
Definition of_int (z : Z) : PrimFloat.float :=
  FloatOps.SF2Prim (SpecFloat.binary_normalize FloatOps.prec FloatOps.emax
                      z 0 false).

(** [a / b] for two integers, which is the double that the decimal
    literal of [a / b] denotes when [a] and [b] are doubles themselves. *)
Definition ratio (a b : Z) : PrimFloat.float :=
  PrimFloat.div (of_int a) (of_int b).

(** An integer as an integer of 64 bits, with wrap-around. *)
Definition wrap64 (z : Z) : Z :=
  ((z + 2 ^ 63) mod 2 ^ 64 - 2 ^ 63)%Z.

(** [np.floor(x).astype(int)]: the largest integer below [x]; the
    conversion of a double that is out of the range of the integers of 64
    bits, infinite or not a number is not defined by C, and gives the
    smallest integer on x86-64. *)
Definition floor (x : PrimFloat.float) : Z :=
  match FloatOps.Prim2SF x with
  | SpecFloat.S754_zero _ => 0%Z
  | SpecFloat.S754_finite s m e =>
      let sm := if s then Z.neg m else Z.pos m in
      let v := if (0 <=? e)%Z then (sm * 2 ^ e)%Z else (sm / 2 ^ (- e))%Z in
      if ((- 2 ^ 63 <=? v) && (v <? 2 ^ 63))%Z then v else (- 2 ^ 63)%Z
  | _ => (- 2 ^ 63)%Z
  end.

(** [a.sum()] on doubles, for an array of at most two entries, where the
    order of the additions does not matter; longer arrays are added from
    the left, which need not be the order of numpy or torch. *)
Definition sum (a : list PrimFloat.float) : PrimFloat.float :=
  match a with
  | [] => of_int 0
  | x :: a' => foldl PrimFloat.add x a'
  end.

End b64.

#[global] Instance binary64 : Arith PrimFloat.float := {|
  r_zero := b64.of_int 0;
  r_one := b64.of_int 1;
  r_eps := b64.ratio 1 100000000;
  r_add := PrimFloat.add;
  r_sub := PrimFloat.sub;
  r_mul := PrimFloat.mul;
  r_div := PrimFloat.div;
  r_lt := PrimFloat.ltb;
  r_sum := b64.sum;
  r_of_int := b64.of_int;
  r_floor := b64.floor;
  int_sum := fun a => b64.wrap64 (np.sum a) |}.

(** ** The allocation matrix *)

Abbreviation matrix := (list (list Z)).

(** [mat[i, c]] *)
Definition entry (mat : matrix) (i c : nat) : Z :=
  default 0%Z (col ← mat !! c; col !! i).

(** [mat[i, c] = v] *)
Definition set_entry (mat : matrix) (i c : nat) (v : Z) : matrix :=
  alter (fun col => <[i := v]> col) c mat.

(** First loop of the three builders:
    [for ii in range(nmodels): mat[ii, 2*ii+1] = 1]. *)
Definition init_plain (nmodels : nat) (mat : matrix) : matrix :=
  foldl (fun m ii => set_entry m ii (2 * ii + 1) 1%Z) mat (range 0 nmodels).

(** Second loop of the three builders:
    [for ii in range(1, nmodels):
        mat[:, 2*ii] = mat[:, recursion_index[ii-1]*2+1]]. *)
Definition mirror_step (nmodels : nat) (recursion_index : list Z)
    (m : matrix) (ii : nat) : option matrix :=
  r ← recursion_index !! (ii - 1);
  c ← np.index (2 * nmodels) (r * 2 + 1)%Z;
  col ← m !! c;
  Some (<[2 * ii := col]> m).

Definition mirror_parents (nmodels : nat) (recursion_index : list Z)
    (mat : matrix) : option matrix :=
  for_each (mirror_step nmodels recursion_index) (range 1 nmodels) mat.

(** Body of the third loop of the GMF builder:
    [II = np.where(mat[:, ii] == 1)[0][-1]; mat[:II, ii] = 1.0]. *)
Definition gmf_fill_step (m : matrix) (ii : nat) : option matrix :=
  col ← m !! ii;
  II ← last (np.where1 col);
  Some (<[ii := replicate II 1%Z ++ drop II col]> m).

Definition _get_allocation_matrix_gmf (recursion_index : list Z)
    : option matrix :=
  let nmodels := length recursion_index + 1 in
  let mat := np.zeros nmodels (2 * nmodels) in
  let mat := init_plain nmodels mat in
  mat ← mirror_parents nmodels recursion_index mat;
  for_each gmf_fill_step (range 2 (2 * nmodels)) mat.

(** Body of the third loop of the GIS builder:
    [mat[:, 2*ii+1] = np.maximum(mat[:, 2*ii], mat[:, 2*ii+1])]. *)
Definition acvis_saturate_step (m : matrix) (ii : nat) : option matrix :=
  starred ← m !! (2 * ii);
  plain ← m !! (2 * ii + 1);
  Some (<[2 * ii + 1 := np.maximum starred plain]> m).

Definition _get_allocation_matrix_acvis (recursion_index : list Z)
    : option matrix :=
  let nmodels := length recursion_index + 1 in
  let mat := np.zeros nmodels (2 * nmodels) in
  let mat := init_plain nmodels mat in
  mat ← mirror_parents nmodels recursion_index mat;
  for_each acvis_saturate_step (range 1 nmodels) mat.

Definition _get_allocation_matrix_acvrd (recursion_index : list Z)
    : option matrix :=
  let nmodels := length recursion_index + 1 in
  let allocation_mat := np.zeros nmodels (2 * nmodels) in
  let allocation_mat := init_plain nmodels allocation_mat in
  mirror_parents nmodels recursion_index allocation_mat.

(** *** Closed forms of the columns *)

Definition unit_col (M k : nat) : list Z :=
  replicate k 0%Z ++ 1%Z :: replicate (M - S k) 0%Z.

Definition prefix_col (M k : nat) : list Z :=
  replicate (S k) 1%Z ++ replicate (M - S k) 0%Z.

Definition mat_of (ncols : nat) (f : nat -> list Z) : matrix :=
  f <$> seq 0 ncols.

(** Recursion parent of model [ii >= 1]. *)
Definition parent (recursion_index : list Z) (ii : nat) : nat :=
  default 0 (Z.to_nat <$> recursion_index !! (ii - 1)).

(** "Values in [0, M-1]" with [M = len(recursion_index) + 1]. *)
Definition valid_recursion_index (recursion_index : list Z) : Prop :=
  Forall (fun r => (0 <= r <= Z.of_nat (length recursion_index))%Z)
         recursion_index.

Definition col_init (M n c : nat) : list Z :=
  if decide (c mod 2 = 1 /\ c / 2 < n) then unit_col M (c / 2)
  else replicate M 0%Z.

Definition col_mirror (ri : list Z) (n c : nat) : list Z :=
  let M := length ri + 1 in
  if decide (c mod 2 = 0 /\ 1 <= c / 2 < n) then unit_col M (parent ri (c / 2))
  else col_init M M c.

Definition col_gmf (ri : list Z) (n c : nat) : list Z :=
  let M := length ri + 1 in
  if decide (2 <= c < n) then
    prefix_col M (if decide (c mod 2 = 1) then c / 2 else parent ri (c / 2))
  else col_mirror ri M c.

Definition col_acvis (ri : list Z) (n c : nat) : list Z :=
  let M := length ri + 1 in
  if decide (c mod 2 = 1 /\ 1 <= c / 2 < n) then
    np.maximum (col_mirror ri M (c - 1)) (col_mirror ri M c)
  else col_mirror ri M c.

(** *** The constructions as the specification words them *)

(** A matrix with [2M] columns of [M] entries, each 0 or 1. *)
Definition binary_matrix (M : nat) (mat : matrix) : Prop :=
  length mat = 2 * M /\
  Forall (fun col => length col = M /\
                     Forall (fun x => x = 0%Z \/ x = 1%Z) col) mat.

(** "For every column c >= 2, take the lowest-indexed row r active in
    column c and mark all rows 0..r-1 active as well." *)
Definition spec_fill_step (m : matrix) (c : nat) : option matrix :=
  col ← m !! c;
  r ← head (np.where1 col);
  Some (<[c := replicate r 1%Z ++ drop r col]> m).

(** "Set column 2m+1 to the unit indicator of partition m for every m." *)
Definition spec_unit_plain (M : nat) (mat : matrix) : matrix :=
  foldl (fun t m => <[2 * m + 1 := unit_col M m]> t) mat (range 0 M).

(** "For m = 1..M-1, set column 2m equal to column 2*parent(m)+1." *)
Definition spec_mirror (M : nat) (ri : list Z) (mat : matrix) : option matrix :=
  for_each (fun t m => col ← t !! (2 * parent ri m + 1);
                       Some (<[2 * m := col]> t)) (range 1 M) mat.

Definition gmf_spec (recursion_index : list Z) : option matrix :=
  let M := length recursion_index + 1 in
  mat ← spec_mirror M recursion_index
          (spec_unit_plain M (np.zeros M (2 * M)));
  for_each spec_fill_step (range 2 (2 * M)) mat.

(** "Saturate each plain column 2m+1 to the elementwise maximum of itself
    and its starred counterpart 2m." *)
Definition saturate_plain (mat : matrix) : matrix :=
  imap (fun c col =>
          if decide (c mod 2 = 1)
          then np.maximum (default [] (mat !! (c - 1))) col
          else col) mat.

(** The GIS matrix as the specification describes it: the full GMF
    construction followed by the saturation. *)
Definition gis_spec (recursion_index : list Z) : option matrix :=
  saturate_plain <$> _get_allocation_matrix_gmf recursion_index.

(** ** Partition accounting *)

(** [lst[i] = v] on a Python list: [IndexError] out of range. *)
Definition py_setitem {A} (l : list A) (i : nat) (v : A) : option (list A) :=
  if decide (i < length l) then Some (<[i := v]> l) else None.

(** [mat[i, c]], [IndexError] out of range. *)
Definition mat_get (mat : matrix) (i c : nat) : option Z :=
  col ← mat !! c; col !! i.

Definition _get_partition_indices (npartition_samples : list nat)
    : list (list nat) :=
  let ntotal_independent_samples := np.sum npartition_samples in
  let total_indices := seq 0 ntotal_independent_samples in
  np.split total_indices (np.cumsum (removelast npartition_samples)).

(** [np.where((mat[:, 2*ii] == 1) | (mat[:, 2*ii+1] == 1))[0]] *)
Definition active_partitions (mat : matrix) (ii : nat) : option (list nat) :=
  starred ← mat !! (2 * ii);
  plain ← mat !! (2 * ii + 1);
  Some (np.flatnonzero (np.lor (np.eq1 starred) (np.eq1 plain))).

(** The variables of the loop over the active partitions of one model in
    [_get_partition_indices_per_acv_subset]. *)
Record subset_state := {
  lb : nat;
  ub : nat;
  subset_indices : list (option (list nat));
  random_partition_indices : list (option (list nat));
  gen : np.rng }.

(** The body of [for idx in active_partitions]. *)
Definition subset_step (partition_indices : list (list nat))
    (bootstrap : bool) (s : subset_state) (idx : nat) : option subset_state :=
  pidx ← partition_indices !! idx;
  let ub := ub s + length pidx in
  subset ← py_setitem (subset_indices s) idx (Some (seq (lb s) (ub - lb s)));
  if bootstrap then
    drawn ← random_partition_indices s !! idx;
    '(rpi, g) ←
      match drawn with
      | None =>
          (* the same random permutation for partition idx is used for
             all acv subsets *)
          let '(perm, g') := np.random_choice (ub - lb s) (gen s) in
          rpi ← py_setitem (random_partition_indices s) idx (Some perm);
          Some (rpi, g')
      | Some _ => Some (random_partition_indices s, gen s)
      end;
    perm ← mjoin (rpi !! idx);
    cur ← mjoin (subset !! idx);
    shuffled ← np.take_rows cur perm;
    subset ← py_setitem subset idx (Some shuffled);
    Some {| lb := ub; ub := ub; subset_indices := subset;
            random_partition_indices := rpi; gen := g |}
  else
    Some {| lb := ub; ub := ub; subset_indices := subset;
            random_partition_indices := random_partition_indices s;
            gen := gen s |}.

(** [np.hstack([subset_indices[idx] for idx in active])] *)
Definition gather (subset : list (option (list nat))) (active : list nat)
    : option (list nat) :=
  mapM (fun idx => mjoin (subset !! idx)) active ≫= np.hstack.

(** The body of [for ii in range(1, self._nmodels)]. *)
Definition acv_subset_step (nmodels : nat) (mat : matrix)
    (partition_indices : list (list nat)) (bootstrap : bool)
    (st : list (list nat) * (list (option (list nat)) * np.rng)) (ii : nat)
    : option (list (list nat) * (list (option (list nat)) * np.rng)) :=
  active ← active_partitions mat ii;
  s ← for_each (subset_step partition_indices bootstrap) active
        {| lb := 0; ub := 0; subset_indices := replicate nmodels None;
           random_partition_indices := st.2.1; gen := st.2.2 |};
  starred ← mat !! (2 * ii);
  plain ← mat !! (2 * ii + 1);
  indices_1 ← gather (subset_indices s) (np.where1 starred);
  indices_2 ← gather (subset_indices s) (np.where1 plain);
  Some (st.1 ++ [indices_1; indices_2],
        (random_partition_indices s, gen s)).

(** [self._get_partition_indices_per_acv_subset(bootstrap)], with
    [self._nmodels], [self._allocation_mat] and
    [self._rounded_npartition_samples] passed in and the generator
    threaded. *)
Definition _get_partition_indices_per_acv_subset (nmodels : nat)
    (mat : matrix) (npartition_samples : list nat) (bootstrap : bool)
    (g : np.rng) : option (list (list nat) * np.rng) :=
  let partition_indices := _get_partition_indices npartition_samples in
  p0 ← partition_indices !! 0;
  init ←
    (if bootstrap then
       let npartitions := length npartition_samples in
       let '(perm, g') := np.random_choice (length p0) g in
       rpi ← py_setitem (replicate npartitions None) 0 (Some perm);
       first ← np.take_rows p0 perm;
       Some ([[]; first], (rpi, g'))
     else Some ([[]; p0], ([], g)));
  r ← for_each (acv_subset_step nmodels mat partition_indices bootstrap)
        (range 1 nmodels) init;
  Some (r.1, r.2.2).

(** A two dimensional array of model values, shape [(len(rows), ncols)].
    The entries are opaque to the bookkeeping. *)
Record array2d := { ncols : nat; rows : list (list Z) }.

(** [values[idx]] for an index array. *)
Definition fancy (values : array2d) (idx : list nat) : option array2d :=
  r ← np.take_rows (rows values) idx;
  Some {| ncols := ncols values; rows := r |}.

(** [a.sum()] of an array of sample counts.  The counts are integers
    after rounding and doubles before: integers are added up, doubles are
    reduced by numpy and torch, which add in an order of their own. *)
Class Sum (A : Type) := array_sum : list A -> A.

#[global] Instance nat_sum : Sum nat := np.sum.
#[global] Instance Z_sum : Sum Z := np.sum.
#[global] Instance arith_sum {R} `{Arith R} : Sum R := r_sum.

Section Counts.
Context {A : Type} `{Sum A}.

Definition _compute_single_model_nsamples (mat : matrix)
    (npartition_samples : list A) (model_id : nat) : option A :=
  active ← active_partitions mat model_id;
  vals ← np.take_rows npartition_samples active;
  Some (array_sum vals).

Definition _compute_nsamples_per_model (nmodels : nat) (mat : matrix)
    (npartition_samples : list A) : option (list A) :=
  mapM (_compute_single_model_nsamples mat npartition_samples)
       (range 0 nmodels).

End Counts.

(** [self._separate_values_per_model(values_per_model, bootstrap)], with
    the fields of [self] passed in; [None] is any of the exceptions. *)
Definition _separate_values_per_model (nmodels : nat) (mat : matrix)
    (rounded_npartition_samples rounded_nsamples_per_model : list nat)
    (values_per_model : list array2d) (bootstrap : bool) (g : np.rng)
    : option (list array2d * np.rng) :=
  if decide (length values_per_model <> nmodels) then None
  else
    _ ← for_each (fun _ ii =>
                    v ← values_per_model !! ii;
                    n ← rounded_nsamples_per_model !! ii;
                    if decide (length (rows v) <> n) then None else Some tt)
                 (range 0 nmodels) tt;
    r ← _get_partition_indices_per_acv_subset nmodels mat
          rounded_npartition_samples bootstrap g;
    let acv_partition_indices := r.1 in
    let nacv_subsets := length acv_partition_indices in
    acv_values ← mapM (fun ii =>
                         v ← values_per_model !! (ii / 2);
                         idx ← acv_partition_indices !! ii;
                         fancy v idx)
                      (range 0 nacv_subsets);
    Some (acv_values, r.2).

(** What [_combine_acv_values] may find in [acv_values]: the function
    only subscripts and slices, so it runs on a list of arrays per model
    as well as on a bare array. *)
Inductive ndarray :=
  | Scalar (x : Z)
  | Arr1 (v : list Z)
  | Arr2 (a : array2d).

Inductive pyobj :=
  | PyList (items : list ndarray)
  | PyArray (a : ndarray).

(** [obj[k]] *)
Definition getitem (obj : pyobj) (k : nat) : option ndarray :=
  match obj with
  | PyList items => items !! k
  | PyArray (Arr2 a) => Arr1 <$> rows a !! k
  | PyArray (Arr1 v) => Scalar <$> v !! k
  | PyArray (Scalar _) => None
  end.

(** [a[lb:ub]] *)
Definition nd_slice (a : ndarray) (lb ub : nat) : option ndarray :=
  match a with
  | Arr2 a => Some (Arr2 {| ncols := ncols a; rows := np.slice (rows a) lb ub |})
  | Arr1 v => Some (Arr1 (np.slice v lb ub))
  | Scalar _ => None
  end.

Definition atleast_2d (a : ndarray) : array2d :=
  match a with
  | Arr2 a => a
  | Arr1 v => {| ncols := length v; rows := [v] |}
  | Scalar x => {| ncols := 1; rows := [[x]] |}
  end.

(** [np.vstack(arrays)]: [ValueError] on an empty list and when the
    widths differ. *)
Definition vstack (arrays : list ndarray) : option array2d :=
  match atleast_2d <$> arrays with
  | [] => None
  | a :: rest =>
      if forallb (fun b => ncols b =? ncols a) rest
      then Some {| ncols := ncols a; rows := concat (rows <$> a :: rest) |}
      else None
  end.

(** The variables of the loop over [jj] in [_combine_acv_values]. *)
Record combine_state := {
  c_lb : nat;
  c_lb2 : nat;
  pieces : list ndarray }.

(** The body of [for jj in range(nmodels)]. *)
Definition combine_step (reorder_allocation_mat : matrix)
    (npartition_samples : list nat) (acv_values : list pyobj) (ii : nat)
    (s : combine_state) (jj : nat) : option combine_state :=
  e1 ← mat_get reorder_allocation_mat jj (2 * ii);
  sf ←
    (if decide (e1 = 1%Z) then
       n ← npartition_samples !! jj;
       let ub := c_lb s + n in
       a ← acv_values !! ii ≫= (fun obj => getitem obj 0);
       piece ← nd_slice a (c_lb s) ub;
       Some ({| c_lb := ub; c_lb2 := c_lb2 s;
                pieces := pieces s ++ [piece] |}, true)
     else Some (s, false));
  let s : combine_state := sf.1 in
  let found : bool := sf.2 in
  e2 ← mat_get reorder_allocation_mat jj (2 * ii + 1);
  if decide (e2 = 1%Z) then
    n ← npartition_samples !! jj;
    let ub2 := c_lb2 s + n in
    s ←
      (if found then Some s
       else
         a ← acv_values !! ii ≫= (fun obj => getitem obj 1);
         piece ← nd_slice a (c_lb2 s) ub2;
         Some {| c_lb := c_lb s; c_lb2 := c_lb2 s;
                 pieces := pieces s ++ [piece] |});
    Some {| c_lb := c_lb s; c_lb2 := ub2; pieces := pieces s |}
  else Some s.

Definition _combine_acv_values (reorder_allocation_mat : matrix)
    (npartition_samples : list nat) (acv_values : list pyobj)
    : option (list ndarray) :=
  let nmodels := length acv_values in
  first ← acv_values !! 0 ≫= (fun obj => getitem obj 1);
  rest ← mapM (fun ii =>
                 s ← for_each (combine_step reorder_allocation_mat
                                 npartition_samples acv_values ii)
                       (range 0 nmodels)
                       {| c_lb := 0; c_lb2 := 0; pieces := [] |};
                 Arr2 <$> vstack (pieces s))
              (range 1 nmodels);
  Some (first :: rest).

(** The flat list [acv_values] read as one pair
    [[acv_values[2*m], acv_values[2*m+1]]] per model. *)
Fixpoint pair_up (acv_values : list array2d) : list pyobj :=
  match acv_values with
  | starred :: plain :: rest =>
      PyList [Arr2 starred; Arr2 plain] :: pair_up rest
  | _ => []
  end.

(** The three policies, by the builder their estimator class calls. *)
Inductive policy := GMF | GIS | GRD.

Definition _create_allocation_matrix (p : policy) (recursion_index : list Z)
    : option matrix :=
  match p with
  | GMF => _get_allocation_matrix_gmf recursion_index
  | GIS => _get_allocation_matrix_acvis recursion_index
  | GRD => _get_allocation_matrix_acvrd recursion_index
  end.

(** *** Bookkeeping in closed form *)

(** The entries of [l] at the positions where the mask holds. *)
Fixpoint mfilter {A} (mask : list bool) (l : list A) : list A :=
  match mask, l with
  | b :: mask', x :: l' => if b then x :: mfilter mask' l' else mfilter mask' l'
  | _, _ => []
  end.

(** The number of samples in the partitions of a mask. *)
Definition msum (mask : list bool) (ns : list nat) : nat :=
  np.sum (mfilter mask ns).

(** Consecutive index ranges of the given lengths. *)
Fixpoint blocks_from (acc : nat) (ns : list nat) : list (list nat) :=
  match ns with
  | [] => []
  | n :: ns' => seq acc n :: blocks_from (acc + n) ns'
  end.

(** The mask of the partitions active in model [ii]. *)
Definition active_mask (mat : matrix) (ii : nat) : list bool :=
  np.lor (np.eq1 (mat !!! (2 * ii))) (np.eq1 (mat !!! (2 * ii + 1))).

(** Where the samples of partition [idx] start among the samples of
    model [ii]: after the active partitions of lower index. *)
Definition offset (mat : matrix) (ns : list nat) (ii idx : nat) : nat :=
  msum (take idx (active_mask mat ii)) (take idx ns).

(** The index sets that the loop over the active partitions of one model
    leaves in [subset_indices], for permutations [P] of the partitions. *)
Fixpoint shifted_blocks (P : nat -> list nat) (i lb : nat)
    (mask : list bool) (ns : list nat) : list (option (list nat)) :=
  match mask, ns with
  | b :: mask', n :: ns' =>
      if b then Some (Nat.add lb <$> P i) :: shifted_blocks P (S i) (lb + n) mask' ns'
      else None :: shifted_blocks P (S i) lb mask' ns'
  | _, _ => []
  end.

(** The resampling applied to partition [idx]: the one recorded in
    [random_partition_indices] when bootstrapping, the identity otherwise
    and for a partition that no model uses. *)
Definition perm_fn (bootstrap : bool) (ns : list nat)
    (rpi : list (option (list nat))) (idx : nat) : list nat :=
  match (if bootstrap then mjoin (rpi !! idx) else None) with
  | Some perm => perm
  | None => seq 0 (default 0 (ns !! idx))
  end.

(** What meeting partition [idx] does to the recorded permutations and
    to the generator when bootstrapping: a partition met for the first time
    takes its permutation from the generator, a partition met again takes
    nothing. *)
Definition draw (ns : list nat) (st : list (option (list nat)) * np.rng)
    (idx : nat) : list (option (list nat)) * np.rng :=
  match st.1 !! idx with
  | Some None =>
      let '(perm, g') := np.random_choice (default 0 (ns !! idx)) st.2 in
      (<[idx := Some perm]> st.1, g')
  | _ => st
  end.

(** The partitions in the order in which [_get_partition_indices_per_acv_subset]
    meets them: partition 0, then the active partitions of the models 1 to
    [k - 1]. *)
Definition partition_uses (mat : matrix) (k : nat) : list nat :=
  0 :: concat ((fun ii => np.flatnonzero (active_mask mat ii)) <$> range 1 k).

(** The partitions of a list in the order of their first occurrence. *)
Definition first_uses (uses : list nat) : list nat :=
  foldl (fun seen idx => if decide (idx ∈ seen) then seen else seen ++ [idx])
        [] uses.

(** The indices of one acv subset of model [ii], column [c] of the
    allocation matrix: for each partition of the column, in order, the
    resampling [P] of the partition moved to where the partition starts
    among the samples of the model. *)
Definition acv_subset (P : nat -> list nat) (mat : matrix) (ns : list nat)
    (ii c : nat) : list nat :=
  concat ((fun idx => Nat.add (offset mat ns ii idx) <$> P idx)
            <$> np.where1 (mat !!! c)).

(** All acv subsets of the models below [k], in the order of
    [_get_partition_indices_per_acv_subset]. *)
Definition acv_subsets (P : nat -> list nat) (mat : matrix) (ns : list nat)
    (k : nat) : list (list nat) :=
  [[]; P 0] ++
  concat ((fun ii => [acv_subset P mat ns ii (2 * ii);
                      acv_subset P mat ns ii (2 * ii + 1)]) <$> range 1 k).

(** What the bookkeeping needs of an allocation matrix of [M] models:
    its shape, that model 0 holds partition 0 only, and that no acv subset
    of a low-fidelity model is empty. *)
Definition allocation_ok (M : nat) (mat : matrix) : Prop :=
  length mat = 2 * M /\
  (forall c col, mat !! c = Some col -> length col = M) /\
  mat !! 0 = Some (replicate M 0%Z) /\
  mat !! 1 = Some (unit_col M 0) /\
  (forall c, 2 <= c < 2 * M -> np.where1 (mat !!! c) <> []).

(** [random_partition_indices] only grows: a recorded permutation stays. *)
Definition rpi_le (rpi rpi' : list (option (list nat))) : Prop :=
  length rpi = length rpi' /\
  forall idx p, rpi !! idx = Some (Some p) -> rpi' !! idx = Some (Some p).

(** Every recorded permutation resamples its own partition. *)
Definition rpi_ok (ns : list nat) (rpi : list (option (list nat))) : Prop :=
  length rpi = length ns /\
  forall idx p, rpi !! idx = Some (Some p) ->
    exists n, ns !! idx = Some n /\ length p = n /\ Forall (fun k => k < n) p.

(** The rows of partition [j] among the rows [V] of a model whose active
    partitions are those of [mask]. *)
Definition block {A} (V : list A) (mask : list bool) (ns : list nat)
    (j : nat) : list A :=
  np.slice V (msum (take j mask) (take j ns))
             (msum (take j mask) (take j ns) + default 0 (ns !! j)).

(** The acv subset of column [c] cut out of the values [V] of its model. *)
Definition expected_acv (mat : matrix) (ns : list nat) (V : array2d)
    (c : nat) : array2d :=
  {| ncols := ncols V;
     rows := concat (block (rows V) (active_mask mat (c / 2)) ns
                       <$> np.where1 (mat !!! c)) |}.

#[global] Instance array2d_inhabited : Inhabited array2d :=
  populate {| ncols := 0; rows := [] |}.

(** The variables of the loop over [jj] in [_combine_acv_values] when the
    loop reaches [jj], for model [ii] with values [V]. *)
Definition combine_state_at (mat : matrix) (ns : list nat) (ii : nat)
    (V : array2d) (jj : nat) : combine_state :=
  {| c_lb := msum (take jj (np.eq1 (mat !!! (2 * ii)))) (take jj ns);
     c_lb2 := msum (take jj (np.eq1 (mat !!! (2 * ii + 1)))) (take jj ns);
     pieces :=
       (fun j => Arr2 {| ncols := ncols V;
                         rows := block (rows V) (active_mask mat ii) ns j |})
         <$> np.flatnonzero (take jj (active_mask mat ii)) |}.

(** ** Exceptions *)

Inductive exn :=
  | ValueError (msg : string)
  | RuntimeError (msg : string)
  | IndexError
  | AssertionError
  | TypeError
  | AttributeError
  | ZeroDivisionError.

Inductive result (A : Type) :=
  | Ok (a : A)
  | Raise (e : exn).
Arguments Ok {A} a.
Arguments Raise {A} e.

#[global] Instance result_ret : MRet result := fun A a => Ok a.
#[global] Instance result_bind : MBind result :=
  fun A B f m => match m with Ok a => f a | Raise e => Raise e end.

(** An index or shape error of the array code, raised to the caller. *)
Definition lift {A} (o : option A) : result A :=
  match o with
  | Some a => Ok a
  | None => Raise IndexError
  end.

(** ** Sample counts from partition ratios *)

Section Ratios.

Context {R : Type} `{Arith R}.

(** The body of [for ii in range(1, self._nmodels)] in
    [_partition_ratios_to_model_ratios]. *)
Definition model_ratio_step (mat : matrix) (partition_ratios : list R)
    (model_ratios : list R) (ii : nat) : option (list R) :=
  starred ← mat !! (2 * ii);
  plain ← mat !! (2 * ii + 1);
  let active_partitions :=
    np.flatnonzero (np.lor (np.eq1 (drop 1 starred)) (np.eq1 (drop 1 plain))) in
  vals ← np.take_rows partition_ratios active_partitions;
  e1 ← starred !! 0;
  e2 ← plain !! 0;
  let r := r_sum vals in
  py_setitem model_ratios (ii - 1)
    (if decide (e1 = 1%Z \/ e2 = 1%Z) then r_add r r_one else r).

(** [torch.empty_like] leaves the entries unset; every entry read later
    has been assigned by then. *)
Definition _partition_ratios_to_model_ratios (nmodels : nat) (mat : matrix)
    (partition_ratios : list R) : option (list R) :=
  let model_ratios := replicate (length partition_ratios) r_zero in
  for_each (model_ratio_step mat partition_ratios) (range 1 nmodels)
    model_ratios.

Definition _get_num_high_fidelity_samples_from_partition_ratios
    (nmodels : nat) (mat : matrix) (costs : list R) (target_cost : R)
    (partition_ratios : list R) : option R :=
  model_ratios ← _partition_ratios_to_model_ratios nmodels mat partition_ratios;
  cost0 ← costs !! 0;
  weighted ← np.mul model_ratios (drop 1 costs);
  Some (r_div target_cost (r_add cost0 (r_sum weighted))).

Definition _npartition_samples_from_partition_ratios (nmodels : nat)
    (mat : matrix) (costs : list R) (target_cost : R)
    (partition_ratios : list R) : option (list R) :=
  nhf_samples ←
    _get_num_high_fidelity_samples_from_partition_ratios nmodels mat costs
      target_cost partition_ratios;
  Some (nhf_samples :: ((fun r => r_mul r nhf_samples) <$> partition_ratios)).

(** [ACVEstimator._estimator_cost] *)
Definition _estimator_cost (nmodels : nat) (mat : matrix) (costs : list R)
    (npartition_samples : list R) : option R :=
  nsamples_per_model ← _compute_nsamples_per_model nmodels mat npartition_samples;
  weighted ← np.mul nsamples_per_model costs;
  Some (r_sum weighted).

(** [ACVEstimator._round_partition_ratios].  The rounded counts are
    integers of 64 bits, [np.floor(npartition_samples.numpy()+1e-8)
    .astype(int)]; the counts of the models are their sums, stored in an
    array of doubles. *)
Definition _round_partition_ratios (nmodels : nat) (mat : matrix)
    (costs : list R) (target_cost : R) (partition_ratios : list R)
    : result (list R * R) :=
  npartition_samples ←
    lift (_npartition_samples_from_partition_ratios nmodels mat costs
            target_cost partition_ratios);
  nhf ← lift (npartition_samples !! 0);
  if r_lt nhf (r_sub r_one r_eps) then
    Raise (RuntimeError "Rounding will cause nhf samples to be zero")
  else
    let rounded_npartition_samples :=
      (fun x => r_floor (r_add x r_eps)) <$> npartition_samples in
    rounded_nhf ← lift (rounded_npartition_samples !! 0);
    if decide (1 <= rounded_nhf)%Z then
      nsamples_per_model ←
        lift (_compute_nsamples_per_model (H := int_sum) nmodels mat
                rounded_npartition_samples);
      weighted ← lift (np.mul (r_of_int <$> nsamples_per_model) costs);
      let rounded_target_cost := r_sum weighted in
      let rounded_partition_ratios :=
        (fun n => r_div (r_of_int n) (r_of_int rounded_nhf))
          <$> drop 1 rounded_npartition_samples in
      Ok (rounded_partition_ratios, rounded_target_cost)
    else Raise AssertionError.

(** The ratio that [_partition_ratios_to_model_ratios] assigns to model
    [m]: the sum of the partition ratios of the partitions of index 1 and
    above that are active in the model, plus one if partition 0 is. *)
Definition model_ratio (mat : matrix) (partition_ratios : list R)
    (m : nat) : R :=
  let r := r_sum (mfilter (drop 1 (active_mask mat m)) partition_ratios) in
  if decide (active_mask mat m !! 0 = Some true) then r_add r r_one else r.

End Ratios.

(** ** The estimator object *)

(** A double that may be infinite or not a number: the value of an
    optimization criterion. *)
Inductive fval :=
  | Finite (q : Q)
  | PInf
  | NInf
  | NaN.

(** [np.isfinite] *)
Definition isfinite (v : fval) : bool :=
  match v with
  | Finite _ => true
  | _ => false
  end.

(** [a < b] on doubles: false whenever one side is not a number. *)
Definition fval_lt (a b : fval) : bool :=
  match a, b with
  | NaN, _ | _, NaN => false
  | Finite x, Finite y => if Qlt_le_dec x y then true else false
  | _, NInf => false
  | NInf, _ => true
  | PInf, _ => false
  | Finite _, PInf => true
  end.

(** [np.round]: to the nearest integer, halves to the even one. *)
Definition round_half_even (q : Q) : Z :=
  let f := Qfloor q in
  match (q - inject_Z f ?= 1 # 2)%Q with
  | Lt => f
  | Gt => (f + 1)%Z
  | Eq => if Z.even f then f else (f + 1)%Z
  end.

(** [torch.as_tensor(x, dtype=torch.int)] on a double that holds the
    integer [z]: the integer when it fits 32 bits.  Out of that range the
    conversion is not defined by C; x86-64 gives the smallest integer. *)
Definition as_int32 (z : Z) : Z :=
  if ((- 2 ^ 31 <=? z) && (z <? 2 ^ 31))%Z then z else (- 2 ^ 31)%Z.

(** The fields of an [ACVEstimator] that the allocation reads and
    writes; [None] is a field not set yet.  [est_policy] is the subclass
    (GMF, GIS or GRD), which fixes [_create_allocation_matrix]. *)
Record ACVEstimator := {
  est_policy : policy;
  _nmodels : nat;
  _costs : list Q;
  _nqoi : nat;
  _tree_depth : option nat;
  _allow_failures : bool;
  _recursion_index : option (list Z);
  _allocation_mat : option matrix;
  _rounded_partition_ratios : option (list Q);
  _rounded_target_cost : option Q;
  _rounded_npartition_samples : option (list Z);
  _rounded_nsamples_per_model : option (list Z);
  _optimized_criteria : option fval }.

Definition set_allocation (est : ACVEstimator) (mat : matrix)
    (index : list Z) : ACVEstimator :=
  {| est_policy := est_policy est; _nmodels := _nmodels est;
     _costs := _costs est; _nqoi := _nqoi est;
     _tree_depth := _tree_depth est; _allow_failures := _allow_failures est;
     _recursion_index := Some index; _allocation_mat := Some mat;
     _rounded_partition_ratios := _rounded_partition_ratios est;
     _rounded_target_cost := _rounded_target_cost est;
     _rounded_npartition_samples := _rounded_npartition_samples est;
     _rounded_nsamples_per_model := _rounded_nsamples_per_model est;
     _optimized_criteria := _optimized_criteria est |}.

Definition set_rounded_partition_ratios (est : ACVEstimator)
    (ratios : list Q) : ACVEstimator :=
  {| est_policy := est_policy est; _nmodels := _nmodels est;
     _costs := _costs est; _nqoi := _nqoi est;
     _tree_depth := _tree_depth est; _allow_failures := _allow_failures est;
     _recursion_index := _recursion_index est;
     _allocation_mat := _allocation_mat est;
     _rounded_partition_ratios := Some ratios;
     _rounded_target_cost := _rounded_target_cost est;
     _rounded_npartition_samples := _rounded_npartition_samples est;
     _rounded_nsamples_per_model := _rounded_nsamples_per_model est;
     _optimized_criteria := _optimized_criteria est |}.

Definition set_rounded_counts (est : ACVEstimator)
    (npartition_samples nsamples_per_model : list Z) (target_cost : Q)
    : ACVEstimator :=
  {| est_policy := est_policy est; _nmodels := _nmodels est;
     _costs := _costs est; _nqoi := _nqoi est;
     _tree_depth := _tree_depth est; _allow_failures := _allow_failures est;
     _recursion_index := _recursion_index est;
     _allocation_mat := _allocation_mat est;
     _rounded_partition_ratios := _rounded_partition_ratios est;
     _rounded_target_cost := Some target_cost;
     _rounded_npartition_samples := Some npartition_samples;
     _rounded_nsamples_per_model := Some nsamples_per_model;
     _optimized_criteria := _optimized_criteria est |}.

Definition set_optimized_criteria (est : ACVEstimator) (criteria : fval)
    : ACVEstimator :=
  {| est_policy := est_policy est; _nmodels := _nmodels est;
     _costs := _costs est; _nqoi := _nqoi est;
     _tree_depth := _tree_depth est; _allow_failures := _allow_failures est;
     _recursion_index := _recursion_index est;
     _allocation_mat := _allocation_mat est;
     _rounded_partition_ratios := _rounded_partition_ratios est;
     _rounded_target_cost := _rounded_target_cost est;
     _rounded_npartition_samples := _rounded_npartition_samples est;
     _rounded_nsamples_per_model := _rounded_nsamples_per_model est;
     _optimized_criteria := Some criteria |}.

(** [MCEstimator._check_cov]: the number of models and of quantities of
    interest, from the number of rows of the covariance. *)
Definition _check_cov (cov_rows : nat) (costs : list Q) : result (nat * nat) :=
  let nmodels := length costs in
  if decide (nmodels = 0) then Raise ZeroDivisionError
  else if decide (cov_rows mod nmodels <> 0)
  then Raise (ValueError "cov.shape and costs.shape are inconsistent")
  else Ok (nmodels, cov_rows / nmodels).

Definition _set_recursion_index (est : ACVEstimator) (index : option (list Z))
    : result ACVEstimator :=
  if decide (_nmodels est = 0)
  then Raise (ValueError "index is the wrong shape")
  else
    let index :=
      match index with
      | None => replicate (_nmodels est - 1) 0%Z
      | Some index => index
      end in
    if decide (length index <> _nmodels est - 1)
    then Raise (ValueError "index is the wrong shape")
    else
      mat ← lift (_create_allocation_matrix (est_policy est) index);
      Ok (set_allocation est mat index).

(** [ACVEstimator.__init__] of the subclass [p]. *)
Definition ACVEstimator_init (p : policy) (costs : list Q) (cov_rows : nat)
    (recursion_index : option (list Z)) (tree_depth : option nat)
    (allow_failures : bool) : result ACVEstimator :=
  shape ← _check_cov cov_rows costs;
  let est :=
    {| est_policy := p; _nmodels := shape.1; _costs := costs;
       _nqoi := shape.2; _tree_depth := None; _allow_failures := false;
       _recursion_index := None; _allocation_mat := None;
       _rounded_partition_ratios := None; _rounded_target_cost := None;
       _rounded_npartition_samples := None;
       _rounded_nsamples_per_model := None;
       _optimized_criteria := None |} in
  match tree_depth, recursion_index with
  | Some _, Some _ =>
      Raise (ValueError "Only tree_depth or recurusion_index must be specified")
  | _, _ =>
      est ← (match tree_depth with
             | None => _set_recursion_index est recursion_index
             | Some _ => Ok est
             end);
      Ok {| est_policy := est_policy est; _nmodels := _nmodels est;
            _costs := _costs est; _nqoi := _nqoi est;
            _tree_depth := tree_depth; _allow_failures := allow_failures;
            _recursion_index := _recursion_index est;
            _allocation_mat := _allocation_mat est;
            _rounded_partition_ratios := None;
            _rounded_target_cost := _rounded_target_cost est;
            _rounded_npartition_samples := _rounded_npartition_samples est;
            _rounded_nsamples_per_model := _rounded_nsamples_per_model est;
            _optimized_criteria := _optimized_criteria est |}
  end.

(** ** Allocating samples *)

(** What [scipy.optimize.minimize] returns. *)
Record OptimizeResult := {
  opt_x : list Q;
  opt_success : bool;
  opt_fun : fval }.

(** A method of the estimator that ran to its end, or raised; either way
    it leaves the estimator in some state. *)
Inductive outcome (A : Type) :=
  | Done (a : A) (est : ACVEstimator)
  | Failed (e : exn) (est : ACVEstimator).
Arguments Done {A} a est.
Arguments Failed {A} e est.

Definition outcome_est {A} (o : outcome A) : ACVEstimator :=
  match o with
  | Done _ est => est
  | Failed _ est => est
  end.

(** What the loop over the recursion indices keeps in [best_criteria] and
    [best_result]. *)
Definition best_t : Type :=
  (fval * option (option (list Q) * option Q * fval * list Z))%type.

(** The fields that no method changes after construction. *)
Definition config (est : ACVEstimator)
    : policy * nat * list Q * option nat * bool :=
  (est_policy est, _nmodels est, _costs est, _tree_depth est,
   _allow_failures est).

Section Allocation.

(** The numerical routines outside this module: the constrained
    minimization of the objective built from the allocation matrix, the
    costs and the target cost; the optimization criterion of the estimator
    covariance for given partition counts; the enumeration of the recursion
    indices of a number of models up to a tree depth. *)
Variable minimize : matrix -> list Q -> Q -> result OptimizeResult.
Variable criterion : matrix -> list Z -> result fval.
Variable _get_acv_recursion_indices : nat -> nat -> list (list Z).

Definition _allocate_samples_opt (est : ACVEstimator) (target_cost : Q)
    : result (list Q * fval) :=
  if Qlt_le_dec target_cost (np.sum (_costs est))
  then Raise (ValueError
                "Target cost does not allow at least one sample from each model")
  else
    match _allocation_mat est with
    | None => Raise AttributeError
    | Some mat =>
        opt ← minimize mat (_costs est) target_cost;
        if opt_success opt then Ok (opt_x opt, opt_fun opt)
        else Raise (RuntimeError "optimizer failed")
    end.

Definition _allocate_samples_user_init_guess (est : ACVEstimator)
    (target_cost : Q) : result (option (list Q) * fval) :=
  _ ← _allocate_samples_opt est target_cost;
  match _allocate_samples_opt est target_cost with
  | Ok opt => Ok (Some opt.1, opt.2)
  | Raise (RuntimeError _) => Ok (None, PInf)
  | Raise e => Raise e
  end.

Definition _allocate_samples (est : ACVEstimator) (target_cost : Q)
    : result (option (list Q) * fval) :=
  opt_user_sq ← _allocate_samples_user_init_guess est target_cost;
  let opts := [opt_user_sq] in
  let obj_vals := snd <$> opts in
  if negb (existsb isfinite obj_vals)
  then Raise (RuntimeError "no solution found from multiple initial guesses {0}")
  else Ok opt_user_sq.

Definition _set_optimized_params (est : ACVEstimator)
    (partition_ratios : option (list Q)) (target_cost : Q) : outcome unit :=
  match partition_ratios, _allocation_mat est with
  | None, _ => Failed TypeError est
  | _, None => Failed AttributeError est
  | Some ratios, Some mat =>
      match _round_partition_ratios (_nmodels est) mat (_costs est)
              target_cost ratios with
      | Raise e => Failed e est
      | Ok rounded =>
          let est := set_rounded_partition_ratios est rounded.1 in
          let rounded_target_cost := rounded.2 in
          match
            npartition_samples ←
              _npartition_samples_from_partition_ratios (_nmodels est) mat
                (_costs est) rounded_target_cost rounded.1;
            let rounded_npartition_samples :=
              round_half_even <$> npartition_samples in
            nsamples_per_model ←
              _compute_nsamples_per_model (_nmodels est) mat
                rounded_npartition_samples;
            Some (rounded_npartition_samples, nsamples_per_model)
          with
          | None => Failed IndexError est
          | Some counts =>
              let est :=
                set_rounded_counts est counts.1 (as_int32 <$> counts.2)
                  rounded_target_cost in
              match criterion mat counts.1 with
              | Raise e => Failed e est
              | Ok criteria => Done tt (set_optimized_criteria est criteria)
              end
          end
      end
  end.

Definition _allocate_samples_for_single_recursion (est : ACVEstimator)
    (target_cost : Q) : outcome unit :=
  match _allocate_samples est target_cost with
  | Raise e => Failed e est
  | Ok opt => _set_optimized_params est opt.1 target_cost
  end.

(** The body of [for index in self.get_all_recursion_indices()]. *)
Definition sweep_body (target_cost : Q) (best : best_t) (est : ACVEstimator)
    (index : list Z) : outcome best_t :=
  match _set_recursion_index est (Some index) with
  | Raise e => Failed e est
  | Ok est =>
      let handled :=
        match _allocate_samples_for_single_recursion est target_cost with
        | Failed (RuntimeError msg) est =>
            if negb (_allow_failures est) then Failed (RuntimeError msg) est
            else Done tt (set_optimized_criteria est PInf)
        | other => other
        end in
      match handled with
      | Failed e est => Failed e est
      | Done _ est =>
          match _optimized_criteria est with
          | None => Failed TypeError est
          | Some criteria =>
              if fval_lt criteria best.1
              then Done (criteria,
                         Some (_rounded_partition_ratios est,
                               _rounded_target_cost est, criteria, index)) est
              else Done best est
          end
      end
  end.

Fixpoint sweep_loop (target_cost : Q) (indices : list (list Z))
    (best : best_t) (est : ACVEstimator) : outcome best_t :=
  match indices with
  | [] => Done best est
  | index :: indices' =>
      match sweep_body target_cost best est index with
      | Done best' est' => sweep_loop target_cost indices' best' est'
      | Failed e est' => Failed e est'
      end
  end.

Definition _allocate_samples_for_all_recursion_indices (est : ACVEstimator)
    (target_cost : Q) : outcome unit :=
  match _tree_depth est with
  | None => Failed TypeError est
  | Some depth =>
      let indices := _get_acv_recursion_indices (_nmodels est) depth in
      match sweep_loop target_cost indices (PInf, None) est with
      | Failed e est => Failed e est
      | Done (_, None) est =>
          Failed (RuntimeError "No solutions were found") est
      | Done (_, Some best_result) est =>
          match _set_recursion_index est (Some best_result.2) with
          | Raise e => Failed e est
          | Ok est => _set_optimized_params est best_result.1.1.1 target_cost
          end
      end
  end.

Definition allocate_samples (est : ACVEstimator) (target_cost : Q)
    : outcome unit :=
  match _tree_depth est with
  | Some _ => _allocate_samples_for_all_recursion_indices est target_cost
  | None => _allocate_samples_for_single_recursion est target_cost
  end.

(** The solver fails on the problem of an allocation matrix: it reports
    no success, or raises a [RuntimeError] itself. *)
Definition solver_fails (mat : matrix) (costs : list Q) (target_cost : Q)
    : Prop :=
  match minimize mat costs target_cost with
  | Ok opt => opt_success opt = false
  | Raise (RuntimeError _) => True
  | Raise _ => False
  end.

End Allocation.

(** A solver that never succeeds, and an estimator of three models whose
    sweep visits two recursion indices. *)
Definition failing_minimize (mat : matrix) (costs : list Q) (target_cost : Q)
    : result OptimizeResult :=
  Ok {| opt_x := []; opt_success := false; opt_fun := NaN |}.

Definition three_model_estimator (allow_failures : bool) : ACVEstimator :=
  {| est_policy := GMF; _nmodels := 3; _costs := [1; 1 # 10; 1 # 100]%Q;
     _nqoi := 1; _tree_depth := Some 2; _allow_failures := allow_failures;
     _recursion_index := None; _allocation_mat := None;
     _rounded_partition_ratios := None; _rounded_target_cost := None;
     _rounded_npartition_samples := None;
     _rounded_nsamples_per_model := None;
     _optimized_criteria := None |}.

(** ** Model selection *)

(** The keyword arguments that [BestEstimator] hands to the estimators of
    a model subset; the keys that [_validate_kwargs] reads are optional
    fields. *)
Record est_kwargs := {
  kw_recursion_index : option (list Z);
  kw_tree_depth : option nat }.

Definition model_selection_msg : string :=
  "model selection can only be used with recursion indices (0, 1, 2, ...) or (0, ..., 0) or tree_depth is not None".

(** [BestEstimator._validate_kwargs] *)
Definition _validate_kwargs (kwargs : est_kwargs) (nsubset_lfmodels : nat)
    : result est_kwargs :=
  sub_index ←
    match kw_recursion_index kwargs with
    | Some index =>
        if np.allclose index (np.arange (length index))
           || np.allclose index (np.zeros1 (length index))
        then Ok (Some (np.slice index 0 nsubset_lfmodels))
        else Raise (ValueError model_selection_msg)
    | None => Ok None
    end;
  Ok {| kw_recursion_index := sub_index;
        kw_tree_depth :=
          (fun depth => Nat.min depth nsubset_lfmodels)
            <$> kw_tree_depth kwargs |}.

(** A recursion index of one hundred thousand and one low-fidelity models:
    model [j+1] corrects model [j], except the last one, which corrects the
    same model as the one before it. *)
Definition long_index : list Z :=
  np.arange (Z.to_nat 100000) ++ [99999%Z].

(** ** Control variate weights *)

Module torch.

(** A two dimensional tensor of doubles, here exact rationals: its shape
    and its entries. *)
Record tensor := { shape : nat * nat; item : nat -> nat -> Q }.

(** [torch.as_tensor] of a nested list. *)
Definition as_tensor (nrows ncols : nat) (rows : list (list Q)) : tensor :=
  {| shape := (nrows, ncols);
     item := fun i j => default 0%Q (row ← rows !! i; row !! j) |}.

(** [a.T] *)
Definition T (a : tensor) : tensor :=
  {| shape := ((shape a).2, (shape a).1); item := fun i j => item a j i |}.

(** [-a] *)
Definition neg (a : tensor) : tensor :=
  {| shape := shape a; item := fun i j => (- item a i j)%Q |}.

Definition dot (n : nat) (u v : nat -> Q) : Q :=
  np.sum ((fun l => u l * v l)%Q <$> seq 0 n).

(** The product of two tensors whose shapes agree. *)
Definition mm (a b : tensor) : tensor :=
  {| shape := ((shape a).1, (shape b).2);
     item := fun i j =>
       dot (shape a).2 (fun l => item a i l) (fun l => item b l j) |}.

(** [torch.linalg.multi_dot((a, b))] *)
Definition multi_dot (a b : tensor) : result tensor :=
  if decide ((shape a).2 = (shape b).1) then Ok (mm a b)
  else Raise (RuntimeError "mat1 and mat2 shapes cannot be multiplied").

(** Two tensors of one shape with equal entries. *)
Definition tensor_eq (a b : tensor) : Prop :=
  shape a = shape b /\
  forall i j, i < (shape a).1 -> j < (shape a).2 ->
    (item a i j == item b i j)%Q.

(** What [torch.linalg.pinv] computes: [x] is the Moore-Penrose
    pseudo-inverse of [a]. *)
Definition moore_penrose (a x : tensor) : Prop :=
  shape x = ((shape a).2, (shape a).1) /\
  tensor_eq (mm (mm a x) a) a /\
  tensor_eq (mm (mm x a) x) x /\
  tensor_eq (T (mm a x)) (mm a x) /\
  tensor_eq (T (mm x a)) (mm x a).

(** The pseudo-inverse of a diagonal matrix: the diagonal entries that are
    not zero are inverted. *)
Definition pinv_diag (a : tensor) : result tensor :=
  Ok {| shape := ((shape a).2, (shape a).1);
        item := fun i j =>
          if decide (i = j)
          then (if Qeq_bool (item a j i) 0 then 0 else / item a j i)%Q
          else 0%Q |}.

End torch.

Section Weights.

(** [torch.linalg.pinv] *)
Variable pinv : torch.tensor -> result torch.tensor.

(** [CVEstimator._weights], which [ACVEstimator] inherits. *)
Definition _weights (CF cf : torch.tensor) : result torch.tensor :=
  CF_pinv ← pinv CF;
  prod ← torch.multi_dot CF_pinv (torch.T cf);
  Ok (torch.neg (torch.T prod)).

(** The weights in the words of the specification: the transpose of
    [-pinv(CF) @ cf.T]. *)
Definition weights_spec (CF cf : torch.tensor) : result torch.tensor :=
  CF_pinv ← pinv CF;
  prod ← torch.multi_dot (torch.neg CF_pinv) (torch.T cf);
  Ok (torch.T prod).

End Weights.

(** ** Generating the samples of the models *)

(** [for x in xs: s = body(s, x)], where the body may raise an exception
    whose kind matters. *)
Fixpoint for_each_r {A St : Type} (body : St -> A -> result St) (xs : list A)
    (s : St) : result St :=
  match xs with
  | [] => Ok s
  | x :: xs' => s' ← body s x; for_each_r body xs' s'
  end.

Section Samples.

(** One sample: a column of an array of samples of shape
    [(nvars, nsamples)], which is the list of its columns. *)
Context {A : Type}.

(** The body of [for ii in range(self._nmodels)] in
    [ACVEstimator.generate_samples_per_model]. *)
Definition generate_samples_step (mat : matrix)
    (partition_indices : list (list nat))
    (rounded_nsamples_per_model : list nat) (independent_samples : list A)
    (samples_per_model : list (list A)) (ii : nat)
    : result (list (list A)) :=
  active_partitions ← lift (active_partitions mat ii);
  blocks ← lift (mapM (fun idx => partition_indices !! idx) active_partitions);
  indices ← lift (np.hstack blocks);
  n ← lift (rounded_nsamples_per_model !! ii);
  if decide (length indices <> n)
  then Raise (RuntimeError "Rounding has caused {0} != {1}")
  else
    samples ← lift (np.take_rows independent_samples indices);
    Ok (samples_per_model ++ [samples]).

(** [ACVEstimator.generate_samples_per_model(rvs, npilot_samples)], with
    [self._nmodels], [self._allocation_mat] and
    [self._rounded_npartition_samples] passed in. *)
Definition generate_samples_per_model (nmodels : nat) (mat : matrix)
    (rounded_npartition_samples : list nat) (rvs : Z -> result (list A))
    (npilot_samples : nat) : result (list (list A)) :=
  let ntotal_independent_samples :=
    (Z.of_nat (np.sum rounded_npartition_samples)
     - Z.of_nat npilot_samples)%Z in
  independent_samples ← rvs ntotal_independent_samples;
  n0 ← lift (rounded_npartition_samples !! 0);
  if decide (n0 < npilot_samples)
  then Raise (ValueError
                "npilot_samples is larger than optimized first partition size")
  else
    let rounded_npartition_samples :=
      <[0 := n0 - npilot_samples]> rounded_npartition_samples in
    rounded_nsamples_per_model ←
      lift (_compute_nsamples_per_model nmodels mat rounded_npartition_samples);
    let partition_indices :=
      _get_partition_indices rounded_npartition_samples in
    for_each_r (generate_samples_step mat partition_indices
                  rounded_nsamples_per_model independent_samples)
               (range 0 nmodels) [].

(** [ACVEstimator._separate_samples_per_model(samples_per_model)]; the
    generator is not drawn from. *)
Definition _separate_samples_per_model (nmodels : nat) (mat : matrix)
    (rounded_npartition_samples rounded_nsamples_per_model : list nat)
    (samples_per_model : list (list A)) (g : np.rng)
    : result (list (list A)) :=
  if decide (length samples_per_model <> nmodels)
  then Raise (ValueError "len(samples_per_model) {0} != nmodels {1}")
  else
    _ ← for_each_r
          (fun _ ii =>
             s ← lift (samples_per_model !! ii);
             n ← lift (rounded_nsamples_per_model !! ii);
             if decide (length s <> n)
             then Raise (ValueError "{0} != {1}")
             else Ok tt)
          (range 0 nmodels) tt;
    r ← lift (_get_partition_indices_per_acv_subset nmodels mat
                rounded_npartition_samples false g);
    let acv_partition_indices := r.1 in
    let nacv_subsets := length acv_partition_indices in
    lift (mapM (fun ii =>
                  s ← samples_per_model !! (ii / 2);
                  idx ← acv_partition_indices !! ii;
                  np.take_rows s idx)
               (range 0 nacv_subsets)).

(** The independent samples of partition [idx]. *)
Definition partition_samples (independent_samples : list A)
    (npartition_samples : list nat) (idx : nat) : list A :=
  np.slice independent_samples
    (np.sum (take idx npartition_samples))
    (np.sum (take idx npartition_samples)
     + default 0 (npartition_samples !! idx)).

End Samples.

(** [CVEstimator.insert_pilot_values(pilot_values, values_per_model)] *)
Definition insert_pilot_values (nmodels : nat) (mat : matrix)
    (pilot_values values_per_model : list array2d) : option (list array2d) :=
  mapM (fun ii =>
          starred ← mat_get mat 0 (2 * ii);
          active_partition ←
            (if decide (starred = 1%Z) then Some true
             else plain ← mat_get mat 0 (2 * ii + 1);
                  Some (bool_decide (plain = 1%Z)));
          if active_partition : bool then
            pilot ← pilot_values !! ii;
            values ← values_per_model !! ii;
            vstack [Arr2 pilot; Arr2 values]
          else values_per_model !! ii)
       (range 0 nmodels).

(** ** Solvers and criteria to run the allocation on *)

(** A solver that always reports the ratios [2, 3], and a criterion that
    prefers few high-fidelity samples. *)
Definition constant_minimize (mat : matrix) (costs : list Q) (target_cost : Q)
    : result OptimizeResult :=
  Ok {| opt_x := [2; 3]%Q; opt_success := true; opt_fun := Finite 1 |}.

Definition first_count_criterion (mat : matrix) (counts : list Z)
    : result fval :=
  Ok (Finite (inject_Z (default 0%Z (counts !! 0)))).

(** ** Selecting the best subset of models *)

(** [itertools.combinations(iterable, r)] *)
Fixpoint combinations {A} (l : list A) (r : nat) : list (list A) :=
  match r, l with
  | 0, _ => [[]]
  | S _, [] => []
  | S r', x :: l' => (cons x <$> combinations l' r') ++ combinations l' r
  end.

(** [np.argmin] on doubles: the position of the first entry that is not
    a number if there is one, of the first smallest entry otherwise;
    [ValueError] on an empty array. *)
Fixpoint argmin_from (i : nat) (best : nat * fval) (l : list fval) : nat :=
  match l with
  | [] => best.1
  | x :: l' =>
      match best.2, x with
      | NaN, _ => best.1
      | _, NaN => i
      | _, _ => if fval_lt x best.2 then argmin_from (S i) (i, x) l'
                else argmin_from (S i) best l'
      end
  end.

Definition argmin (l : list fval) : option nat :=
  match l with
  | [] => None
  | x :: l' => Some (argmin_from 1 (0, x) l')
  end.

(** [[f(x) for x in xs]], where [f] may raise. *)
Fixpoint map_r {A B} (f : A -> result B) (xs : list A) : result (list B) :=
  match xs with
  | [] => Ok []
  | x :: xs' => y ← f x; ys ← map_r f xs'; Ok (y :: ys)
  end.

Module BestEstimator.

Section Selection.

(** An estimator of one type on one subset of the models, and the names of
    the estimator types. *)
Context {E est_type : Type}.

(** [est._optimized_criteria] of an estimator whose samples are
    allocated. *)
Variable optimized_criteria : E -> fval.

(** [get_estimator(est_type, ...)] for the models [idx] of the candidates,
    with the costs and the covariance of these models, and
    [est.allocate_samples(target_cost)], which returns the estimator it
    has changed. *)
Variable get_estimator : est_type -> list nat -> est_kwargs -> result E.
Variable allocate_samples : E -> Q -> result E.

(** The fields of a [BestEstimator] that the selection reads.  The
    constructor divides by the number of candidate models, so there is at
    least one. *)
Record t := {
  _estimator_types : list est_type;
  _ncandidate_models : nat;
  _max_nmodels : option nat;
  _kwargs : est_kwargs;
  _allow_failures : bool }.

Definition _lf_model_indices (self : t) : list nat :=
  seq 1 (_ncandidate_models self - 1).

Definition _get_estimator (self : t) (est_type : est_type) (idx : list nat)
    (target_cost : Q) (sub_kwargs : est_kwargs) : result (option E) :=
  match get_estimator est_type idx sub_kwargs with
  | Raise (ValueError _) => Ok None
  | Raise e => Raise e
  | Ok est =>
      match allocate_samples est target_cost with
      | Ok est => Ok (Some est)
      | Raise e =>
          match e with
          | RuntimeError _ | ValueError _ =>
              if _allow_failures self then Ok None else Raise e
          | _ => Raise e
          end
      end
  end.

(** The body of [for est_type in self._estimator_types]. *)
Definition subset_estimator_step (self : t) (idx : list nat)
    (target_cost : Q) (sub_kwargs : est_kwargs)
    (best : option E * fval) (est_type : est_type)
    : result (option E * fval) :=
  est ← _get_estimator self est_type idx target_cost sub_kwargs;
  match est with
  | Some est =>
      if fval_lt (optimized_criteria est) best.2
      then Ok (Some est, optimized_criteria est)
      else Ok best
  | None => Ok best
  end.

Definition _get_model_subset_estimator (self : t) (nsubset_lfmodels : nat)
    (target_cost : Q) (lf_model_subset_indices : list nat)
    : result (option E) :=
  let idx := 0 :: lf_model_subset_indices in
  sub_kwargs ← _validate_kwargs (_kwargs self) nsubset_lfmodels;
  best ← for_each_r (subset_estimator_step self idx target_cost sub_kwargs)
           (_estimator_types self) (None, PInf);
  Ok best.1.

(** [best_criteria, best_model_indices, best_est] *)
Definition best_state : Type := (fval * option (list nat) * option E)%type.

(** The body of the loop over the subsets of one size. *)
Definition serial_step (self : t) (nsubset_lfmodels : nat) (target_cost : Q)
    (best : best_state) (lf_model_subset_indices : list nat)
    : result best_state :=
  est ← _get_model_subset_estimator self nsubset_lfmodels target_cost
          lf_model_subset_indices;
  match est with
  | Some est =>
      if fval_lt (optimized_criteria est) best.1.1
      then Ok (optimized_criteria est, Some (0 :: lf_model_subset_indices),
               Some est)
      else Ok best
  | None => Ok best
  end.

Definition _get_best_model_subset_for_estimator_serial (self : t)
    (nsubset_lfmodels : nat) (target_cost : Q) (best : best_state)
    : result best_state :=
  for_each_r (serial_step self nsubset_lfmodels target_cost)
    (combinations (_lf_model_indices self) nsubset_lfmodels) best.

(** The subsets of one size evaluated by a pool of processes: [pool.map]
    returns the results in the order of the subsets. *)
Definition _get_best_model_subset_for_estimator_pool (self : t)
    (nsubset_lfmodels : nat) (target_cost : Q) (best : best_state)
    : result best_state :=
  let indices := combinations (_lf_model_indices self) nsubset_lfmodels in
  results ← map_r (_get_model_subset_estimator self nsubset_lfmodels
                     target_cost) indices;
  let criteria :=
    (fun est => match est with
                | Some est => optimized_criteria est
                | None => PInf
                end) <$> results in
  match argmin criteria with
  | None => Raise (ValueError "attempt to get argmin of an empty sequence")
  | Some II =>
      c ← lift (criteria !! II);
      if negb (isfinite c) then Ok (best.1.1, best.1.2, None)
      else
        est ← lift (mjoin (results !! II));
        lf ← lift (indices !! II);
        Ok (optimized_criteria est, Some (0 :: lf), Some est)
  end.

Definition _get_best_estimator (self : t) (target_cost : Q) (nprocs : Z)
    : result (E * option (list nat)) :=
  let sizes :=
    match _max_nmodels self with
    | None => range (_ncandidate_models self - 1) (_ncandidate_models self)
    | Some _ => range 1 (_ncandidate_models self)
    end in
  best ← for_each_r
           (fun best nsubset_lfmodels =>
              if decide (1 < nprocs)%Z
              then _get_best_model_subset_for_estimator_pool self
                     nsubset_lfmodels target_cost best
              else _get_best_model_subset_for_estimator_serial self
                     nsubset_lfmodels target_cost best)
           sizes (PInf, None, None);
  match best.2 with
  | None => Raise (RuntimeError "No solutions found for any model subset")
  | Some best_est => Ok (best_est, best.1.2)
  end.

End Selection.

End BestEstimator.


(** A selection among three candidate models and three estimator types,
    on which the selection can be run: an estimator is its type and its
    models, the type [0] cannot be built, and the criterion of the others
    grows with the type and with the models. *)
Definition example_get_estimator (est_type : nat) (idx : list nat)
    (_ : est_kwargs) : result (nat * list nat) :=
  if decide (est_type = 0) then Raise (ValueError "unknown estimator")
  else Ok (est_type, idx).

Definition example_allocate_samples (est : nat * list nat) (_ : Q)
    : result (nat * list nat) :=
  Ok est.

Definition example_criteria (est : nat * list nat) : fval :=
  Finite (inject_Z (Z.of_nat (est.1 + sum_list est.2))).

Definition example_selection : BestEstimator.t :=
  {| BestEstimator._estimator_types := [2; 0; 1];
     BestEstimator._ncandidate_models := 3;
     BestEstimator._max_nmodels := Some 2;
     BestEstimator._kwargs :=
       {| kw_recursion_index := None; kw_tree_depth := None |};
     BestEstimator._allow_failures := false |}.
(** ** Loop rules *)

Lemma for_each_app {A St} (body : St -> A -> option St) xs ys s :
  for_each body (xs ++ ys) s = for_each body xs s ≫= for_each body ys.
Proof.
  revert s; induction xs as [|x xs IH]; intros s; simpl; [done|].
  destruct (body s x); simpl; auto.
Qed.

Lemma range_empty a : range a a = [].
Proof. unfold range. by rewrite Nat.sub_diag. Qed.

Lemma range_snoc a b : a <= b -> range a (S b) = range a b ++ [b].
Proof.
  intros H. unfold range. replace (S b - a) with (S (b - a)) by lia.
  rewrite seq_S. do 2 f_equal. lia.
Qed.

(** Total correctness of a counted loop with invariant [I]. *)
Lemma for_each_range {St} (body : St -> nat -> option St) (I : nat -> St -> Prop)
    a b s :
  a <= b -> I a s ->
  (forall i t, a <= i < b -> I i t -> exists t', body t i = Some t' /\ I (S i) t') ->
  exists t, for_each body (range a b) s = Some t /\ I b t.
Proof.
  intros Hab Ha Hstep. induction Hab as [|b Hab IH].
  - exists s. by rewrite range_empty.
  - destruct IH as (t & Ht & HI); [intros; apply Hstep; [lia|done]|].
    destruct (Hstep b t) as (t' & Hb & HI'); [lia|done|].
    exists t'. rewrite range_snoc, for_each_app, Ht by done. simpl.
    by rewrite Hb.
Qed.

Lemma foldl_range {St} (body : St -> nat -> St) (I : nat -> St -> Prop) a b s :
  a <= b -> I a s ->
  (forall i t, a <= i < b -> I i t -> I (S i) (body t i)) ->
  I b (foldl body s (range a b)).
Proof.
  intros Hab Ha Hstep. induction Hab as [|b Hab IH].
  - by rewrite range_empty.
  - rewrite range_snoc, foldl_snoc by done. apply Hstep; [lia|].
    apply IH. intros; apply Hstep; [lia|done].
Qed.

(** ** Matrices given by a column function *)

Lemma mat_of_length N f : length (mat_of N f) = N.
Proof. unfold mat_of. by rewrite length_fmap, length_seq. Qed.

Lemma mat_of_lookup N f c : c < N -> mat_of N f !! c = Some (f c).
Proof.
  intros H. unfold mat_of. by rewrite list_lookup_fmap, lookup_seq_lt.
Qed.

Lemma mat_of_lookup_ge N f c : N <= c -> mat_of N f !! c = None.
Proof.
  intros H. apply lookup_ge_None_2. by rewrite mat_of_length.
Qed.

Lemma mat_of_ext N f g :
  (forall c, c < N -> f c = g c) -> mat_of N f = mat_of N g.
Proof.
  intros H. apply list_eq; intros c. destruct (decide (c < N)).
  - rewrite !mat_of_lookup by done. f_equal; auto.
  - rewrite !mat_of_lookup_ge by lia. done.
Qed.

Lemma mat_of_insert N f c x :
  <[c := x]> (mat_of N f) =
  mat_of N (fun c' => if decide (c' = c) then x else f c').
Proof.
  apply list_eq; intros i. destruct (decide (i < N)).
  - rewrite mat_of_lookup by done. destruct (decide (i = c)) as [->|].
    + rewrite list_lookup_insert_eq; [done|by rewrite mat_of_length].
    + rewrite list_lookup_insert_ne, mat_of_lookup by done. done.
  - rewrite mat_of_lookup_ge by lia. apply lookup_ge_None_2.
    rewrite length_insert, mat_of_length. lia.
Qed.

Lemma mat_of_set_entry N f i c v :
  set_entry (mat_of N f) i c v =
  mat_of N (fun c' => if decide (c' = c) then <[i := v]> (f c') else f c').
Proof.
  unfold set_entry. apply list_eq; intros j. destruct (decide (j < N)).
  - rewrite mat_of_lookup by done. destruct (decide (j = c)) as [->|].
    + by rewrite list_lookup_alter_eq, mat_of_lookup.
    + rewrite list_lookup_alter_ne, mat_of_lookup by done. done.
  - rewrite mat_of_lookup_ge by lia. apply lookup_ge_None_2.
    rewrite length_alter, mat_of_length. lia.
Qed.

Lemma zeros_mat_of M N : np.zeros M N = mat_of N (fun _ => replicate M 0%Z).
Proof.
  apply list_eq; intros c. unfold np.zeros. destruct (decide (c < N)).
  - by rewrite mat_of_lookup, lookup_replicate_2.
  - rewrite mat_of_lookup_ge by lia. apply lookup_ge_None_2.
    rewrite length_replicate. lia.
Qed.

(** ** Columns *)

Lemma unit_col_length M k : k < M -> length (unit_col M k) = M.
Proof.
  intros. unfold unit_col. rewrite length_app. simpl.
  rewrite !length_replicate. lia.
Qed.

Lemma prefix_col_length M k : k < M -> length (prefix_col M k) = M.
Proof.
  intros. unfold prefix_col. rewrite length_app, !length_replicate. lia.
Qed.

Lemma insert_zeros_unit M k :
  k < M -> <[k := 1%Z]> (replicate M 0%Z) = unit_col M k.
Proof.
  intros H. unfold unit_col.
  replace M with (k + S (M - S k)) at 1 by lia.
  rewrite replicate_add, insert_app_r_alt by (rewrite length_replicate; lia).
  rewrite length_replicate, Nat.sub_diag. done.
Qed.

Lemma where_from_app i l1 l2 :
  np.where_from i (l1 ++ l2) =
  np.where_from i l1 ++ np.where_from (i + length l1) l2.
Proof.
  revert i; induction l1 as [|x l1 IH]; intros i; simpl.
  - by rewrite Nat.add_0_r.
  - rewrite IH. replace (S i + length l1) with (i + S (length l1)) by lia.
    by destruct x.
Qed.

Lemma where_from_false i n : np.where_from i (replicate n false) = [].
Proof. revert i; induction n; intros i; simpl; auto. Qed.

Lemma where_from_true i n : np.where_from i (replicate n true) = seq i n.
Proof. revert i; induction n as [|n IH]; intros i; simpl; [done|]. by rewrite IH. Qed.

Lemma eq1_app a b : np.eq1 (a ++ b) = np.eq1 a ++ np.eq1 b.
Proof. unfold np.eq1. by rewrite fmap_app. Qed.

Lemma eq1_zeros n : np.eq1 (replicate n 0%Z) = replicate n false.
Proof. unfold np.eq1. by rewrite fmap_replicate. Qed.

Lemma eq1_ones n : np.eq1 (replicate n 1%Z) = replicate n true.
Proof. unfold np.eq1. by rewrite fmap_replicate. Qed.

Lemma eq1_unit M k :
  np.eq1 (unit_col M k) =
  replicate k false ++ true :: replicate (M - S k) false.
Proof. unfold unit_col. rewrite eq1_app, eq1_zeros. simpl. by rewrite eq1_zeros. Qed.

Lemma where1_unit M k : np.where1 (unit_col M k) = [k].
Proof.
  unfold np.where1, np.flatnonzero. rewrite eq1_unit.
  rewrite where_from_app, where_from_false.
  simpl. by rewrite where_from_false, length_replicate.
Qed.

Lemma where1_prefix M k : np.where1 (prefix_col M k) = seq 0 (S k).
Proof.
  unfold np.where1, np.flatnonzero, prefix_col.
  rewrite eq1_app, eq1_ones, eq1_zeros.
  rewrite where_from_app, where_from_false, where_from_true.
  by rewrite app_nil_r.
Qed.

Lemma fill_unit M k :
  replicate k 1%Z ++ drop k (unit_col M k) = prefix_col M k.
Proof.
  unfold unit_col, prefix_col.
  rewrite drop_app_length'; [|by rewrite length_replicate].
  rewrite replicate_S_end, <- app_assoc. done.
Qed.

(** ** The three loops in closed form *)

Ltac col_cases :=
  unfold col_acvis, col_gmf, col_mirror, col_init;
  repeat case_decide; try (exfalso; lia); try done; try (f_equal; lia).

Lemma init_plain_closed M :
  init_plain M (np.zeros M (2 * M)) = mat_of (2 * M) (col_init M M).
Proof.
  unfold init_plain.
  apply (foldl_range _ (fun n m => m = mat_of (2 * M) (col_init M n)));
    [lia| |].
  - rewrite zeros_mat_of. apply mat_of_ext; intros c _. col_cases.
  - intros i t Hi ->. rewrite mat_of_set_entry.
    apply mat_of_ext; intros c _. case_decide as Hc.
    + subst c. unfold col_init. repeat case_decide; try (exfalso; lia).
      rewrite insert_zeros_unit by lia. f_equal; lia.
    + col_cases.
Qed.

Lemma valid_recursion_index_lookup ri i :
  valid_recursion_index ri -> i < length ri ->
  exists r, ri !! i = Some r /\ (0 <= r <= Z.of_nat (length ri))%Z.
Proof.
  intros Hv Hi. destruct (lookup_lt_is_Some_2 ri i Hi) as [r Hr].
  exists r; split; [done|].
  by apply (proj1 (Forall_lookup _ _) Hv i r).
Qed.

Lemma mirror_parents_closed ri :
  valid_recursion_index ri ->
  mirror_parents (length ri + 1) ri
    (mat_of (2 * (length ri + 1)) (col_init (length ri + 1) (length ri + 1))) =
  Some (mat_of (2 * (length ri + 1)) (col_mirror ri (length ri + 1))).
Proof.
  intros Hv. set (M := length ri + 1). unfold mirror_parents.
  destruct (for_each_range (mirror_step M ri)
              (fun n m => m = mat_of (2 * M) (col_mirror ri n)) 1 M
              (mat_of (2 * M) (col_init M M))) as (t & Ht & ->);
    [lia| | |done].
  - apply mat_of_ext; intros c _. col_cases.
  - intros i t Hi ->. unfold mirror_step.
    destruct (valid_recursion_index_lookup ri (i - 1) Hv) as (r & Hr & Hb);
      [lia|].
    rewrite Hr. simpl. unfold np.index.
    rewrite decide_True by lia. simpl.
    rewrite mat_of_lookup by lia. simpl.
    eexists; split; [done|]. rewrite mat_of_insert.
    apply mat_of_ext; intros c _. case_decide as Hc.
    + subst c. assert (2 * i / 2 = i) as E by lia.
      unfold col_mirror, col_init, parent. rewrite E, Hr. simpl.
      fold M. repeat case_decide; try (exfalso; lia). f_equal; lia.
    + fold M. col_cases.
Qed.

Lemma gmf_fill_closed ri :
  for_each gmf_fill_step (range 2 (2 * (length ri + 1)))
    (mat_of (2 * (length ri + 1)) (col_mirror ri (length ri + 1))) =
  Some (mat_of (2 * (length ri + 1)) (col_gmf ri (2 * (length ri + 1)))).
Proof.
  set (M := length ri + 1).
  destruct (for_each_range gmf_fill_step
              (fun n m => m = mat_of (2 * M) (col_gmf ri n)) 2 (2 * M)
              (mat_of (2 * M) (col_mirror ri M))) as (t & Ht & ->);
    [lia| | |done].
  - apply mat_of_ext; intros c _. col_cases.
  - intros i t Hi ->. unfold gmf_fill_step.
    rewrite mat_of_lookup by lia. simpl.
    set (k := if decide (i mod 2 = 1) then i / 2 else parent ri (i / 2)).
    assert (col_gmf ri i i = unit_col M k) as ->.
    { unfold k. fold M. col_cases. }
    rewrite where1_unit. simpl. eexists; split; [done|].
    rewrite fill_unit, mat_of_insert.
    apply mat_of_ext; intros c _. case_decide as Hc.
    + subst c. unfold col_gmf. rewrite decide_True by lia. done.
    + col_cases.
Qed.

Lemma acvis_saturate_closed ri :
  for_each acvis_saturate_step (range 1 (length ri + 1))
    (mat_of (2 * (length ri + 1)) (col_mirror ri (length ri + 1))) =
  Some (mat_of (2 * (length ri + 1)) (col_acvis ri (length ri + 1))).
Proof.
  set (M := length ri + 1).
  destruct (for_each_range acvis_saturate_step
              (fun n m => m = mat_of (2 * M) (col_acvis ri n)) 1 M
              (mat_of (2 * M) (col_mirror ri M))) as (t & Ht & ->);
    [lia| | |done].
  - apply mat_of_ext; intros c _. col_cases.
  - intros i t Hi ->. unfold acvis_saturate_step.
    rewrite !mat_of_lookup by lia. simpl.
    eexists; split; [done|]. rewrite mat_of_insert.
    apply mat_of_ext; intros c _. case_decide as Hc.
    + subst c. unfold col_acvis. fold M.
      repeat case_decide; try (exfalso; lia).
      by replace (2 * i + 1 - 1) with (2 * i) by lia.
    + col_cases.
Qed.

Lemma gmf_closed ri :
  valid_recursion_index ri ->
  _get_allocation_matrix_gmf ri =
  Some (mat_of (2 * (length ri + 1)) (col_gmf ri (2 * (length ri + 1)))).
Proof.
  intros Hv. unfold _get_allocation_matrix_gmf. cbv zeta.
  rewrite init_plain_closed, (mirror_parents_closed ri Hv). simpl.
  apply gmf_fill_closed.
Qed.

Lemma acvis_closed ri :
  valid_recursion_index ri ->
  _get_allocation_matrix_acvis ri =
  Some (mat_of (2 * (length ri + 1)) (col_acvis ri (length ri + 1))).
Proof.
  intros Hv. unfold _get_allocation_matrix_acvis. cbv zeta.
  rewrite init_plain_closed, (mirror_parents_closed ri Hv). simpl.
  apply acvis_saturate_closed.
Qed.

Lemma acvrd_closed ri :
  valid_recursion_index ri ->
  _get_allocation_matrix_acvrd ri =
  Some (mat_of (2 * (length ri + 1)) (col_mirror ri (length ri + 1))).
Proof.
  intros Hv. unfold _get_allocation_matrix_acvrd. cbv zeta.
  rewrite init_plain_closed. apply (mirror_parents_closed ri Hv).
Qed.

(** ** The specification's wording of the GMF construction *)

Lemma spec_unit_plain_closed M :
  spec_unit_plain M (np.zeros M (2 * M)) = mat_of (2 * M) (col_init M M).
Proof.
  unfold spec_unit_plain.
  apply (foldl_range _ (fun n m => m = mat_of (2 * M) (col_init M n)));
    [lia| |].
  - rewrite zeros_mat_of. apply mat_of_ext; intros c _. col_cases.
  - intros i t Hi ->. rewrite mat_of_insert.
    apply mat_of_ext; intros c _. case_decide as Hc.
    + subst c. col_cases.
    + col_cases.
Qed.

Lemma parent_lt ri i : valid_recursion_index ri -> parent ri i < length ri + 1.
Proof.
  intros Hv. unfold parent. destruct (ri !! (i - 1)) as [r|] eqn:Hr; simpl.
  - pose proof (proj1 (Forall_lookup _ _) Hv _ _ Hr) as Hb. simpl in Hb. lia.
  - lia.
Qed.

Lemma spec_mirror_closed ri :
  valid_recursion_index ri ->
  spec_mirror (length ri + 1) ri
    (mat_of (2 * (length ri + 1)) (col_init (length ri + 1) (length ri + 1))) =
  Some (mat_of (2 * (length ri + 1)) (col_mirror ri (length ri + 1))).
Proof.
  intros Hv. set (M := length ri + 1). unfold spec_mirror.
  match goal with |- for_each ?body _ _ = _ =>
    destruct (for_each_range body
                (fun n m => m = mat_of (2 * M) (col_mirror ri n)) 1 M
                (mat_of (2 * M) (col_init M M))) as (t & Ht & ->);
      [lia| | |done]
  end.
  - apply mat_of_ext; intros c _. col_cases.
  - intros i t Hi ->. pose proof (parent_lt ri i Hv) as Hp. fold M in Hp.
    rewrite mat_of_lookup by lia. simpl.
    eexists; split; [done|]. rewrite mat_of_insert.
    apply mat_of_ext; intros c _. case_decide as Hc.
    + subst c. assert (2 * i / 2 = i) as E by lia.
      unfold col_mirror, col_init. fold M. rewrite E.
      repeat case_decide; try (exfalso; lia). f_equal; lia.
    + fold M. col_cases.
Qed.

Lemma spec_fill_closed ri :
  for_each spec_fill_step (range 2 (2 * (length ri + 1)))
    (mat_of (2 * (length ri + 1)) (col_mirror ri (length ri + 1))) =
  Some (mat_of (2 * (length ri + 1)) (col_gmf ri (2 * (length ri + 1)))).
Proof.
  set (M := length ri + 1).
  destruct (for_each_range spec_fill_step
              (fun n m => m = mat_of (2 * M) (col_gmf ri n)) 2 (2 * M)
              (mat_of (2 * M) (col_mirror ri M))) as (t & Ht & ->);
    [lia| | |done].
  - apply mat_of_ext; intros c _. col_cases.
  - intros i t Hi ->. unfold spec_fill_step.
    rewrite mat_of_lookup by lia. simpl.
    set (k := if decide (i mod 2 = 1) then i / 2 else parent ri (i / 2)).
    assert (col_gmf ri i i = unit_col M k) as ->.
    { unfold k. fold M. col_cases. }
    rewrite where1_unit. simpl. eexists; split; [done|].
    rewrite fill_unit, mat_of_insert.
    apply mat_of_ext; intros c _. case_decide as Hc.
    + subst c. unfold col_gmf. rewrite decide_True by lia. done.
    + col_cases.
Qed.

Lemma gmf_spec_closed ri :
  valid_recursion_index ri ->
  gmf_spec ri =
  Some (mat_of (2 * (length ri + 1)) (col_gmf ri (2 * (length ri + 1)))).
Proof.
  intros Hv. unfold gmf_spec. cbv zeta.
  rewrite spec_unit_plain_closed, (spec_mirror_closed ri Hv). simpl.
  apply spec_fill_closed.
Qed.

(** ** Shape and entries *)

Lemma binary_replicate n (b : Z) :
  b = 0%Z \/ b = 1%Z -> Forall (fun x => x = 0%Z \/ x = 1%Z) (replicate n b).
Proof. intros H. by apply Forall_replicate. Qed.

Lemma unit_col_binary M k : Forall (fun x => x = 0%Z \/ x = 1%Z) (unit_col M k).
Proof.
  unfold unit_col. apply Forall_app; split; [|constructor]; auto using binary_replicate.
Qed.

Lemma prefix_col_binary M k :
  Forall (fun x => x = 0%Z \/ x = 1%Z) (prefix_col M k).
Proof.
  unfold prefix_col. apply Forall_app; split; auto using binary_replicate.
Qed.

Lemma mat_of_binary M f :
  (forall c, c < 2 * M ->
     length (f c) = M /\ Forall (fun x => x = 0%Z \/ x = 1%Z) (f c)) ->
  binary_matrix M (mat_of (2 * M) f).
Proof.
  intros H. split; [apply mat_of_length|].
  apply Forall_lookup; intros c col Hc.
  assert (c < 2 * M) as Hlt.
  { apply lookup_lt_Some in Hc. by rewrite mat_of_length in Hc. }
  rewrite mat_of_lookup in Hc by done. injection Hc as <-. auto.
Qed.

Lemma col_mirror_shape ri c :
  valid_recursion_index ri -> c < 2 * (length ri + 1) ->
  length (col_mirror ri (length ri + 1) c) = length ri + 1 /\
  Forall (fun x => x = 0%Z \/ x = 1%Z) (col_mirror ri (length ri + 1) c).
Proof.
  intros Hv Hc. pose proof (parent_lt ri (c / 2) Hv).
  unfold col_mirror, col_init. repeat case_decide;
    (split; [first [apply unit_col_length; lia | apply length_replicate]
            |auto using unit_col_binary, binary_replicate]).
Qed.

Lemma col_gmf_shape ri c :
  valid_recursion_index ri -> c < 2 * (length ri + 1) ->
  length (col_gmf ri (2 * (length ri + 1)) c) = length ri + 1 /\
  Forall (fun x => x = 0%Z \/ x = 1%Z) (col_gmf ri (2 * (length ri + 1)) c).
Proof.
  intros Hv Hc. pose proof (parent_lt ri (c / 2) Hv).
  unfold col_gmf. case_decide; [|by apply col_mirror_shape].
  split; [|apply prefix_col_binary].
  apply prefix_col_length. case_decide; lia.
Qed.

(** C1. For a recursion index with values in [0, M-1] the GMF builder
    returns a matrix, and it is the (M, 2M) binary matrix of the
    construction worded with the lowest-indexed active row: unit plain
    columns, starred columns mirroring the parent's plain column, then in
    every column c >= 2 all rows below the first active one marked. *)
Theorem gmf_matches_spec_construction (recursion_index : list Z) :
  valid_recursion_index recursion_index ->
  exists mat,
    _get_allocation_matrix_gmf recursion_index = Some mat /\
    gmf_spec recursion_index = Some mat /\
    binary_matrix (length recursion_index + 1) mat.
Proof.
  intros Hv. eexists. split; [by apply gmf_closed|].
  split; [by apply gmf_spec_closed|].
  apply mat_of_binary. intros c Hc. by apply col_gmf_shape.
Qed.

Lemma gmf_matches_spec_construction_witness :
  valid_recursion_index [0; 1; 0]%Z /\
  exists mat,
    _get_allocation_matrix_gmf [0; 1; 0]%Z = Some mat /\
    gmf_spec [0; 1; 0]%Z = Some mat /\
    binary_matrix 4 mat.
Proof.
  assert (valid_recursion_index [0; 1; 0]%Z) as Hv.
  { unfold valid_recursion_index. repeat constructor; simpl; lia. }
  split; [exact Hv|].
  exact (gmf_matches_spec_construction [0; 1; 0]%Z Hv).
Defined.

(** ** The GIS builder *)

Lemma maximum_zeros_l n col :
  length col = n -> Forall (fun x => x = 0%Z \/ x = 1%Z) col ->
  np.maximum (replicate n 0%Z) col = col.
Proof.
  intros <- Hb. unfold np.maximum. induction Hb as [|x col Hx _ IH]; simpl.
  - done.
  - rewrite IH. f_equal. lia.
Qed.

Lemma saturate_plain_mat_of N f :
  saturate_plain (mat_of N f) =
  mat_of N (fun c => if decide (c mod 2 = 1)
                     then np.maximum (f (c - 1)) (f c) else f c).
Proof.
  unfold saturate_plain. apply list_eq; intros c.
  rewrite list_lookup_imap. destruct (decide (c < N)).
  - rewrite !mat_of_lookup by lia. simpl. by case_decide.
  - by rewrite !(mat_of_lookup_ge N _ c) by lia.
Qed.

Lemma saturate_mirror_closed ri :
  valid_recursion_index ri ->
  saturate_plain (mat_of (2 * (length ri + 1)) (col_mirror ri (length ri + 1))) =
  mat_of (2 * (length ri + 1)) (col_acvis ri (length ri + 1)).
Proof.
  intros Hv. rewrite saturate_plain_mat_of.
  apply mat_of_ext; intros c Hc. unfold col_acvis.
  repeat case_decide; try (exfalso; lia); try done.
  (* the plain column of model 0: its starred column is empty *)
  assert (c = 1) as -> by lia.
  destruct (col_mirror_shape ri 1 Hv) as [Hl Hb]; [lia|].
  replace (col_mirror ri (length ri + 1) (1 - 1))
    with (replicate (length ri + 1) 0%Z) by col_cases.
  by apply maximum_zeros_l.
Qed.

(** C5, as stated, fails: with both low-fidelity models recursing on the
    high-fidelity model the GIS builder leaves partition 1 out of the plain
    set of model 2, which the saturated GMF matrix contains. *)
Lemma gis_is_not_saturated_gmf :
  _get_allocation_matrix_acvis [0; 0]%Z <> gis_spec [0; 0]%Z.
Proof. vm_compute. discriminate. Qed.

(** C5, amended. For every recursion index the GIS builder returns the
    matrix of the construction without the downward propagation step (the
    GRD matrix: unit plain columns and mirrored starred columns) in which
    each plain column 2m+1 is saturated to the elementwise maximum of itself
    and its starred counterpart 2m. *)
Theorem gis_is_saturated_grd (recursion_index : list Z) :
  valid_recursion_index recursion_index ->
  exists mat,
    _get_allocation_matrix_acvrd recursion_index = Some mat /\
    _get_allocation_matrix_acvis recursion_index = Some (saturate_plain mat).
Proof.
  intros Hv. eexists. split; [by apply acvrd_closed|].
  rewrite saturate_mirror_closed by done. by apply acvis_closed.
Qed.

Lemma gis_is_saturated_grd_witness :
  valid_recursion_index [0; 0; 2]%Z /\
  exists mat,
    _get_allocation_matrix_acvrd [0; 0; 2]%Z = Some mat /\
    _get_allocation_matrix_acvis [0; 0; 2]%Z = Some (saturate_plain mat).
Proof.
  assert (valid_recursion_index [0; 0; 2]%Z) as Hv.
  { unfold valid_recursion_index. repeat constructor; simpl; lia. }
  split; [exact Hv|].
  exact (gis_is_saturated_grd [0; 0; 2]%Z Hv).
Defined.

(** ** Partition index ranges *)

Lemma slice_seq T a n : a + n <= T -> np.slice (seq 0 T) a (a + n) = seq a n.
Proof.
  intros H. unfold np.slice. rewrite drop_seq, take_seq.
  f_equal; lia.
Qed.

Lemma split_cumsum acc n ns T :
  T = acc + np.sum (n :: ns) ->
  np.split_from acc (seq 0 T) (np.cumsum_from acc (removelast (n :: ns))) =
  blocks_from acc (n :: ns).
Proof.
  revert acc n; induction ns as [|n' ns IH]; intros acc n HT.
  - simpl in *. rewrite drop_seq. do 2 f_equal; lia.
  - change (removelast (n :: n' :: ns)) with (n :: removelast (n' :: ns)).
    cbn [np.cumsum_from np.split_from blocks_from].
    rewrite slice_seq by (simpl in *; lia).
    f_equal. apply IH. simpl in *. lia.
Qed.

Lemma partition_indices_blocks ns :
  ns <> [] -> _get_partition_indices ns = blocks_from 0 ns.
Proof.
  intros Hne. destruct ns as [|n ns]; [done|].
  unfold _get_partition_indices, np.split, np.cumsum. by apply split_cumsum.
Qed.

Lemma blocks_from_lengths acc ns : length <$> blocks_from acc ns = ns.
Proof.
  revert acc; induction ns as [|n ns IH]; intros acc; simpl; [done|].
  by rewrite length_seq, IH.
Qed.

Lemma blocks_from_lookup_length acc ns k n :
  ns !! k = Some n ->
  exists p, blocks_from acc ns !! k = Some p /\ length p = n.
Proof.
  intros Hk. rewrite <- (blocks_from_lengths acc ns) in Hk.
  rewrite list_lookup_fmap in Hk.
  destruct (blocks_from acc ns !! k) as [p|]; simplify_eq/=. eauto.
Qed.

(** ** Masks *)

Lemma eq1_length col : length (np.eq1 col) = length col.
Proof. unfold np.eq1. by rewrite length_fmap. Qed.

Lemma lor_length a b : length a = length b -> length (np.lor a b) = length a.
Proof. intros H. unfold np.lor. rewrite length_zip_with. lia. Qed.

Lemma take_rows_where {A} (l : list A) i mask :
  i + length mask <= length l ->
  np.take_rows l (np.where_from i mask) = Some (mfilter mask (drop i l)).
Proof.
  revert i; induction mask as [|b mask IH]; intros i Hl; simpl in *.
  - by destruct (drop i l).
  - destruct (lookup_lt_is_Some_2 l i) as [x Hx]; [lia|].
    rewrite (drop_S _ _ _ Hx).
    unfold np.take_rows in *. destruct b; simpl.
    + rewrite Hx. simpl. rewrite IH by lia. done.
    + apply IH. lia.
Qed.

Lemma mfilter_app {A} m1 m2 (l1 l2 : list A) :
  length m1 = length l1 ->
  mfilter (m1 ++ m2) (l1 ++ l2) = mfilter m1 l1 ++ mfilter m2 l2.
Proof.
  revert l1; induction m1 as [|b m1 IH]; intros [|x l1] Hl; simplify_eq/=.
  - done.
  - rewrite IH by done. by destruct b.
Qed.

Lemma sum_app (a b : list nat) : np.sum (a ++ b) = np.sum a + np.sum b.
Proof. induction a as [|x a IH]; simpl in *; [done|]. rewrite IH. lia. Qed.

Lemma msum_app m1 m2 l1 l2 :
  length m1 = length l1 ->
  msum (m1 ++ m2) (l1 ++ l2) = msum m1 l1 + msum m2 l2.
Proof. intros H. unfold msum. by rewrite mfilter_app, sum_app. Qed.

Lemma msum_take_S (mask : list bool) (ns : list nat) j (b : bool) n :
  length mask = length ns -> mask !! j = Some b -> ns !! j = Some n ->
  msum (take (S j) mask) (take (S j) ns) =
  msum (take j mask) (take j ns) + (if b then n else 0).
Proof.
  intros Hl Hb Hn. rewrite (take_S_r _ _ _ Hb), (take_S_r _ _ _ Hn).
  rewrite msum_app.
  - f_equal. unfold msum. destruct b; simpl; lia.
  - rewrite !length_take. lia.
Qed.

(** ** The loop over the active partitions of one model *)

#[local] Arguments py_setitem : simpl never.
#[local] Arguments np.random_choice : simpl never.
#[local] Arguments np.take_rows : simpl never.

Ltac opt_step :=
  cbn [mbind option_bind mjoin option_join lb ub subset_indices
       random_partition_indices gen fst snd].

Lemma py_setitem_lt {A} (l : list A) i v :
  i < length l -> py_setitem l i v = Some (<[i := v]> l).
Proof. intros H. unfold py_setitem. by rewrite decide_True. Qed.

Lemma rpi_le_refl rpi : rpi_le rpi rpi.
Proof. by split. Qed.

Lemma rpi_le_trans a b c : rpi_le a b -> rpi_le b c -> rpi_le a c.
Proof. intros [H1 H2] [H3 H4]. split; [congruence|auto]. Qed.

Lemma take_rows_shift lb n perm :
  Forall (fun k => k < n) perm ->
  np.take_rows (seq lb n) perm = Some (Nat.add lb <$> perm).
Proof.
  intros H. unfold np.take_rows. apply mapM_Some.
  induction H as [|k perm Hk _ IH]; simpl; constructor; [|done].
  by apply lookup_seq_lt.
Qed.

Lemma random_choice_ok n g :
  length (np.random_choice n g).1 = n /\
  Forall (fun k => k < n) (np.random_choice n g).1.
Proof.
  unfold np.random_choice. simpl. split.
  - by rewrite length_fmap, length_seq.
  - apply Forall_fmap, Forall_forall. intros k Hk. simpl.
    apply elem_of_seq in Hk. apply Nat.mod_upper_bound. lia.
Qed.

Lemma draw_step ns rpi g i n :
  rpi_ok ns rpi -> ns !! i = Some n ->
  exists drawn perm rpi1 g1,
    rpi !! i = Some drawn /\
    match drawn with
    | None =>
        let '(perm, g') := np.random_choice n g in
        rpi ← py_setitem rpi i (Some perm); Some (rpi, g')
    | Some _ => Some (rpi, g)
    end = Some (rpi1, g1) /\
    rpi1 !! i = Some (Some perm) /\
    rpi_le rpi rpi1 /\ rpi_ok ns rpi1 /\
    length perm = n /\ Forall (fun k => k < n) perm /\
    (rpi1, g1) = draw ns (rpi, g) i.
Proof.
  intros [Hlen Hok] Hn.
  assert (i < length rpi) as Hi by (rewrite Hlen; by eapply lookup_lt_Some).
  destruct (lookup_lt_is_Some_2 rpi i Hi) as [drawn Hd].
  exists drawn. destruct drawn as [p|].
  - destruct (Hok _ _ Hd) as (n' & Hn' & Hp & Hb). simplify_eq.
    exists p, rpi, g. unfold draw. cbn [fst snd]. rewrite Hd.
    repeat split; auto.
  - destruct (random_choice_ok n g) as [Hl Hb].
    assert (draw ns (rpi, g) i =
            (<[i := Some (np.random_choice n g).1]> rpi,
             (np.random_choice n g).2)) as Hdraw.
    { unfold draw. cbn [fst snd]. rewrite Hd, Hn. cbn [default id from_option].
      by destruct (np.random_choice n g). }
    destruct (np.random_choice n g) as [perm g'] eqn:Hc. simpl in *.
    exists perm, (<[i := Some perm]> rpi), g'.
    rewrite py_setitem_lt by done. simpl.
    repeat split; auto.
    + by apply list_lookup_insert_eq.
    + by rewrite length_insert.
    + intros idx p Hp. destruct (decide (idx = i)) as [->|]; [congruence|].
      by rewrite list_lookup_insert_ne.
    + by rewrite length_insert.
    + intros idx p Hp. destruct (decide (idx = i)) as [->|].
      * rewrite list_lookup_insert_eq in Hp by done. simplify_eq. eauto.
      * rewrite list_lookup_insert_ne in Hp by done. eauto.
Qed.

Lemma for_each_cons {A St} (body : St -> A -> option St) x xs s :
  for_each body (x :: xs) s = body s x ≫= for_each body xs.
Proof. done. Qed.

Lemma subset_step_spec bootstrap ns pi i n pre rest lb0 rpi g :
  length <$> pi = ns -> ns !! i = Some n -> length pre = i ->
  (bootstrap = true -> rpi_ok ns rpi) ->
  exists blk rpi1 g1,
    subset_step pi bootstrap
      {| lb := lb0; ub := lb0; subset_indices := pre ++ None :: rest;
         random_partition_indices := rpi; gen := g |} i =
    Some {| lb := lb0 + n; ub := lb0 + n;
            subset_indices := pre ++ Some blk :: rest;
            random_partition_indices := rpi1; gen := g1 |} /\
    (bootstrap = true ->
       rpi_le rpi rpi1 /\ rpi_ok ns rpi1 /\
       exists perm, rpi1 !! i = Some (Some perm) /\ blk = Nat.add lb0 <$> perm) /\
    (bootstrap = false -> rpi1 = rpi /\ g1 = g /\ blk = seq lb0 n) /\
    (bootstrap = true -> (rpi1, g1) = draw ns (rpi, g) i).
Proof.
  intros Hpi Hn Hpre Hok.
  assert (exists pidx, pi !! i = Some pidx /\ length pidx = n) as (pidx & Hp & Hl).
  { rewrite <- Hpi, list_lookup_fmap in Hn.
    destruct (pi !! i) as [pidx|]; simplify_eq/=. eauto. }
  assert (forall v : option (list nat),
            <[i := v]> (pre ++ None :: rest) = pre ++ v :: rest) as Hins.
  { intros v. rewrite insert_app_r_alt by lia.
    by replace (i - length pre) with 0 by lia. }
  assert (forall v w : option (list nat),
            <[i := v]> (pre ++ w :: rest) = pre ++ v :: rest) as Hins2.
  { intros v w. rewrite insert_app_r_alt by lia.
    by replace (i - length pre) with 0 by lia. }
  unfold subset_step. opt_step. rewrite Hp. opt_step. rewrite Hl.
  replace (lb0 + n - lb0) with n by lia.
  rewrite (py_setitem_lt (pre ++ _)) by (rewrite length_app; simpl; lia).
  opt_step. rewrite Hins2.
  destruct bootstrap.
  - destruct (draw_step ns rpi g i n (Hok eq_refl) Hn)
      as (drawn & perm & rpi1 & g1 & Hd & Hm & Hr1 & Hle & Hok1 & Hpl & Hpb
          & Hdraw).
    rewrite Hd. opt_step. rewrite Hm. opt_step. rewrite Hr1.
    rewrite list_lookup_middle by done. opt_step.
    rewrite take_rows_shift by done. opt_step.
    rewrite (py_setitem_lt (pre ++ _)) by (rewrite length_app; simpl; lia).
    opt_step. rewrite Hins2.
    exists (Nat.add lb0 <$> perm), rpi1, g1.
    split; [done|]. split; [|split; [done|done]]. intros _. eauto 10.
  - exists (seq lb0 n), rpi, g. split; [done|]. split; [done|].
    split; [auto|done].
Qed.

Lemma subset_loop bootstrap ns pi mask :
  length <$> pi = ns ->
  forall i pre lb0 rpi g,
    i + length mask = length ns -> length pre = i ->
    (bootstrap = true -> rpi_ok ns rpi) ->
    exists sub rpi' g',
      for_each (subset_step pi bootstrap) (np.where_from i mask)
        {| lb := lb0; ub := lb0;
           subset_indices := pre ++ replicate (length mask) None;
           random_partition_indices := rpi; gen := g |} =
      Some {| lb := lb0 + msum mask (drop i ns);
              ub := lb0 + msum mask (drop i ns);
              subset_indices := sub;
              random_partition_indices := rpi'; gen := g' |} /\
      (bootstrap = true -> rpi_le rpi rpi' /\ rpi_ok ns rpi') /\
      (bootstrap = false -> rpi' = rpi /\ g' = g) /\
      (bootstrap = true ->
         (rpi', g') = foldl (draw ns) (rpi, g) (np.where_from i mask)) /\
      forall rpi'', (bootstrap = true -> rpi_le rpi' rpi'') ->
        sub = pre ++ shifted_blocks (perm_fn bootstrap ns rpi'') i lb0 mask
                       (drop i ns).
Proof.
  intros Hpi. induction mask as [|b mask IH]; intros i pre lb0 rpi g Hi Hpre Hok.
  { simpl. exists pre, rpi, g. unfold msum. simpl.
    rewrite Nat.add_0_r, app_nil_r. split; [done|].
    split; [intros; split; [apply rpi_le_refl|auto]|].
    split; [done|]. split; [done|]. done. }
  simpl in Hi.
  destruct (lookup_lt_is_Some_2 ns i) as [n Hn]; [lia|].
  rewrite (drop_S _ _ _ Hn).
  destruct b; simpl np.where_from.
  - (* partition [i] is active *)
    rewrite for_each_cons. simpl replicate.
    destruct (subset_step_spec bootstrap ns pi i n pre
                (replicate (length mask) None) lb0 rpi g Hpi Hn Hpre Hok)
      as (blk & rpi1 & g1 & Hstep & Hb1 & Hb0 & Hd1).
    rewrite Hstep. simpl.
    destruct (IH (S i) (pre ++ [Some blk]) (lb0 + n) rpi1 g1)
      as (sub & rpi' & g' & Hrun & Hc1 & Hc0 & Hdr & Hsub);
      [lia|rewrite length_app; simpl; lia| |].
    { intros Hbt. by destruct (Hb1 Hbt) as (_ & ? & _). }
    rewrite <- app_assoc in Hrun. simpl in Hrun.
    exists sub, rpi', g'. split; [|split; [|split; [|split]]].
    + rewrite Hrun. unfold msum. simpl. do 2 f_equal; lia.
    + intros Hbt. destruct (Hb1 Hbt) as (Hle & _ & _).
      destruct (Hc1 Hbt) as [Hle' Hok']. split; [by eapply rpi_le_trans|done].
    + intros Hbf. destruct (Hb0 Hbf) as (-> & -> & _). auto.
    + intros Hbt. rewrite (Hdr Hbt), (Hd1 Hbt). done.
    + intros rpi'' Hext. rewrite (Hsub rpi'' Hext), <- app_assoc. simpl.
      do 3 f_equal. unfold perm_fn. destruct bootstrap.
      * destruct (Hb1 eq_refl) as (_ & _ & perm & Hr1 & ->).
        destruct (Hext eq_refl) as [_ Hx]. destruct (Hc1 eq_refl) as [[_ Hy] _].
        by rewrite (Hx _ _ (Hy _ _ Hr1)).
      * destruct (Hb0 eq_refl) as (_ & _ & ->). rewrite Hn. simpl.
        by rewrite fmap_add_seq, Nat.add_0_r.
  - (* partition [i] is not active *)
    destruct (IH (S i) (pre ++ [None]) lb0 rpi g)
      as (sub & rpi' & g' & Hrun & Hb1 & Hb0 & Hdr & Hsub);
      [lia|rewrite length_app; simpl; lia|done|].
    rewrite <- app_assoc in Hrun. simpl in Hrun.
    exists sub, rpi', g'. split; [|split; [|split; [|split]]]; try done.
    intros rpi'' Hext. rewrite (Hsub rpi'' Hext), <- app_assoc. done.
Qed.

(** ** The index sets of the acv subsets *)

Lemma shifted_blocks_lookup P (mask : list bool) :
  forall (ns : list nat) i lb0 k (b : bool) n,
    length mask = length ns -> mask !! k = Some b -> ns !! k = Some n ->
    shifted_blocks P i lb0 mask ns !! k =
    Some (if b
          then Some (Nat.add (lb0 + msum (take k mask) (take k ns)) <$> P (i + k))
          else None).
Proof.
  induction mask as [|b' mask IH]; intros [|n' ns] i lb0 k b n Hl Hb Hn;
    simplify_eq/=.
  destruct k as [|k]; simplify_eq/=.
  - unfold msum. simpl. rewrite !Nat.add_0_r. by destruct b.
  - destruct b'; simpl.
    + rewrite (IH ns (S i) (lb0 + n') k b n) by done.
      unfold msum. simpl.
      replace (i + S k) with (S i + k) by lia.
      destruct b; [|done]. simpl. by rewrite Nat.add_assoc.
    + rewrite (IH ns (S i) lb0 k b n) by done.
      by replace (i + S k) with (S i + k) by lia.
Qed.

Lemma elem_of_where_from i mask x :
  x ∈ np.where_from i mask <-> i <= x /\ mask !! (x - i) = Some true.
Proof.
  revert i; induction mask as [|b mask IH]; intros i; simpl.
  - split; [by intros ?%elem_of_nil|by intros [_ ?]].
  - assert (x ∈ np.where_from (S i) mask <->
            i <= x /\ x <> i /\ mask !! (x - S i) = Some true) as IH'.
    { rewrite IH. split; [intros []|intros (?&?&?)]; repeat split; auto; lia. }
    destruct b; [rewrite elem_of_cons|]; rewrite IH'; split.
    + intros [->|(?&?&?)]; [by rewrite Nat.sub_diag|].
      split; [done|]. by replace (x - i) with (S (x - S i)) by lia.
    + intros [Hx Hm]. destruct (decide (x = i)) as [->|]; [by left|right].
      repeat split; auto. by replace (x - i) with (S (x - S i)) in Hm by lia.
    + intros (?&?&?). split; [done|].
      by replace (x - i) with (S (x - S i)) by lia.
    + intros [Hx Hm]. destruct (decide (x = i)) as [->|].
      * by rewrite Nat.sub_diag in Hm.
      * repeat split; auto.
        by replace (x - i) with (S (x - S i)) in Hm by lia.
Qed.

Lemma mapM_fmap_elem {A B} (f : A -> option B) (h : A -> B) l :
  (forall x, x ∈ l -> f x = Some (h x)) -> mapM f l = Some (h <$> l).
Proof.
  intros H. apply mapM_Some. induction l as [|x l IH]; simpl; constructor.
  - apply H. by left.
  - apply IH. intros y Hy. apply H. by right.
Qed.

Lemma hstack_nonempty {A} (l : list (list A)) :
  l <> [] -> np.hstack l = Some (concat l).
Proof. by destruct l. Qed.

Lemma gather_spec P (mask mask1 : list bool) (ns : list nat) :
  length mask = length ns -> length mask1 = length ns ->
  (forall k, mask1 !! k = Some true -> mask !! k = Some true) ->
  np.flatnonzero mask1 <> [] ->
  gather (shifted_blocks P 0 0 mask ns) (np.flatnonzero mask1) =
  Some (concat ((fun idx => Nat.add (msum (take idx mask) (take idx ns)) <$> P idx)
                  <$> np.flatnonzero mask1)).
Proof.
  intros Hl Hl1 Hsub Hne. unfold gather.
  rewrite (mapM_fmap_elem _
             (fun idx => Nat.add (msum (take idx mask) (take idx ns)) <$> P idx)).
  - simpl. apply hstack_nonempty. by destruct (np.flatnonzero mask1).
  - intros idx Hidx. apply elem_of_where_from in Hidx as [_ Hm].
    rewrite Nat.sub_0_r in Hm.
    destruct (lookup_lt_is_Some_2 ns idx) as [n Hn].
    { rewrite <- Hl1. by eapply lookup_lt_Some. }
    by rewrite (shifted_blocks_lookup P mask ns 0 0 idx true n Hl (Hsub _ Hm) Hn).
Qed.

Lemma lor_lookup_l (a b : list bool) k :
  length a = length b -> a !! k = Some true -> np.lor a b !! k = Some true.
Proof.
  intros Hl Ha. unfold np.lor. rewrite lookup_zip_with, Ha. simpl.
  destruct (lookup_lt_is_Some_2 b k) as [y ->]; [|done].
  rewrite <- Hl. by eapply lookup_lt_Some.
Qed.

Lemma lor_lookup_r (a b : list bool) k :
  length a = length b -> b !! k = Some true -> np.lor a b !! k = Some true.
Proof.
  intros Hl Hb. unfold np.lor. rewrite lookup_zip_with, Hb.
  destruct (lookup_lt_is_Some_2 a k) as [y ->]; [|by destruct y].
  rewrite Hl. by eapply lookup_lt_Some.
Qed.

Lemma acv_subset_step_spec bootstrap M mat ns pi ii acc rpi g :
  allocation_ok M mat -> length ns = M -> length <$> pi = ns ->
  1 <= ii < M -> (bootstrap = true -> rpi_ok ns rpi) ->
  exists S1 S2 rpi' g',
    acv_subset_step M mat pi bootstrap (acc, (rpi, g)) ii =
    Some (acc ++ [S1; S2], (rpi', g')) /\
    (bootstrap = true -> rpi_le rpi rpi' /\ rpi_ok ns rpi') /\
    (bootstrap = false -> rpi' = rpi /\ g' = g) /\
    (bootstrap = true ->
       (rpi', g') =
       foldl (draw ns) (rpi, g) (np.flatnonzero (active_mask mat ii))) /\
    forall rpi'', (bootstrap = true -> rpi_le rpi' rpi'') ->
      S1 = acv_subset (perm_fn bootstrap ns rpi'') mat ns ii (2 * ii) /\
      S2 = acv_subset (perm_fn bootstrap ns rpi'') mat ns ii (2 * ii + 1).
Proof.
  intros (Hlen & Hcols & _ & _ & Hne) Hns Hpi Hii Hok.
  destruct (lookup_lt_is_Some_2 mat (2 * ii)) as [c1 Hc1]; [lia|].
  destruct (lookup_lt_is_Some_2 mat (2 * ii + 1)) as [c2 Hc2]; [lia|].
  pose proof (Hcols _ _ Hc1) as Hl1. pose proof (Hcols _ _ Hc2) as Hl2.
  assert (mat !!! (2 * ii) = c1) as E1 by by apply list_lookup_total_correct.
  assert (mat !!! (2 * ii + 1) = c2) as E2 by by apply list_lookup_total_correct.
  assert (active_mask mat ii = np.lor (np.eq1 c1) (np.eq1 c2)) as Em
    by (unfold active_mask; by rewrite E1, E2).
  assert (length (np.eq1 c1) = length (np.eq1 c2)) as Hle
    by (rewrite !eq1_length; lia).
  assert (length (active_mask mat ii) = length ns) as Hml.
  { rewrite Em, lor_length, eq1_length by done. lia. }
  unfold acv_subset_step, active_partitions. rewrite Hc1, Hc2.
  cbn [mbind option_bind fst snd]. rewrite <- Em.
  destruct (subset_loop bootstrap ns pi (active_mask mat ii) Hpi 0 [] 0 rpi g)
    as (sub & rpi' & g' & Hrun & Hb1 & Hb0 & Hdr & Hsub); [lia|done|done|].
  rewrite Hml, Hns in Hrun. simpl in Hrun. unfold np.flatnonzero at 1.
  rewrite Hrun. opt_step.
  pose proof (Hsub rpi') as Hsub'. simpl in Hsub'.
  assert (forall rpi'', (bootstrap = true -> rpi_le rpi' rpi'') ->
            gather sub (np.where1 c1) =
              Some (acv_subset (perm_fn bootstrap ns rpi'') mat ns ii (2 * ii)) /\
            gather sub (np.where1 c2) =
              Some (acv_subset (perm_fn bootstrap ns rpi'') mat ns ii (2 * ii + 1)))
    as Hg.
  { intros rpi'' Hext. rewrite (Hsub rpi'' Hext). simpl.
    unfold acv_subset, offset. rewrite E1, E2. unfold np.where1. split.
    - apply gather_spec; [done|rewrite eq1_length; lia| |].
      + intros k Hk. rewrite Em. by apply lor_lookup_l.
      + specialize (Hne (2 * ii)). rewrite E1 in Hne. apply Hne. lia.
    - apply gather_spec; [done|rewrite eq1_length; lia| |].
      + intros k Hk. rewrite Em. by apply lor_lookup_r.
      + specialize (Hne (2 * ii + 1)). rewrite E2 in Hne. apply Hne. lia. }
  destruct (Hg rpi') as [Hg1 Hg2]; [intros; apply rpi_le_refl|].
  rewrite Hg1. opt_step. rewrite Hg2. opt_step.
  eexists _, _, rpi', g'. split; [done|]. split; [done|]. split; [done|].
  split; [exact Hdr|].
  intros rpi'' Hext. destruct (Hg rpi'' Hext) as [Hg1' Hg2'].
  rewrite Hg1 in Hg1'. rewrite Hg2 in Hg2'. by simplify_eq.
Qed.

Lemma acv_subsets_snoc P mat ns k :
  1 <= k ->
  acv_subsets P mat ns (S k) =
  acv_subsets P mat ns k ++
  [acv_subset P mat ns k (2 * k); acv_subset P mat ns k (2 * k + 1)].
Proof.
  intros Hk. unfold acv_subsets.
  rewrite range_snoc, fmap_app, concat_app by done. done.
Qed.

Lemma fmap_add_0 (l : list nat) : Nat.add 0 <$> l = l.
Proof. induction l; simpl; by f_equal. Qed.

Lemma partition_uses_snoc mat k :
  1 <= k ->
  partition_uses mat (S k) =
  partition_uses mat k ++ np.flatnonzero (active_mask mat k).
Proof.
  intros Hk. unfold partition_uses.
  rewrite range_snoc, fmap_app, concat_app by done. simpl.
  by rewrite app_nil_r.
Qed.

Lemma acv_subset_indices_spec bootstrap M mat ns g :
  allocation_ok M mat -> length ns = M -> 1 <= M ->
  exists rpi' g',
    _get_partition_indices_per_acv_subset M mat ns bootstrap g =
    Some (acv_subsets (perm_fn bootstrap ns rpi') mat ns M, g') /\
    (bootstrap = true -> rpi_ok ns rpi') /\
    (bootstrap = false -> g' = g) /\
    (bootstrap = true ->
       (rpi', g') =
       foldl (draw ns) (replicate (length ns) None, g) (partition_uses mat M)).
Proof.
  intros Hmat Hns HM.
  destruct ns as [|n0 ns']; [simpl in Hns; lia|]. set (ns := n0 :: ns') in *.
  assert (_get_partition_indices ns = blocks_from 0 ns) as Hpi
    by by apply partition_indices_blocks.
  unfold _get_partition_indices_per_acv_subset. rewrite Hpi.
  pose proof (blocks_from_lengths 0 ns) as Hlens.
  change (blocks_from 0 ns !! 0) with (Some (seq 0 n0)). opt_step.
  set (pi := blocks_from 0 ns) in *.
  (* the state in which the loop over the models starts *)
  assert (exists acc0 rpi0 g0,
    (if bootstrap
     then let '(perm, g') := np.random_choice (length (seq 0 n0)) g in
          rpi ← py_setitem (replicate (length ns) None) 0 (Some perm);
          first ← np.take_rows (seq 0 n0) perm;
          Some ([[]; first], (rpi, g'))
     else Some ([[]; seq 0 n0], ([], g))) = Some (acc0, (rpi0, g0)) /\
    (bootstrap = true -> rpi_ok ns rpi0) /\
    (bootstrap = false -> g0 = g) /\
    (bootstrap = true ->
       (rpi0, g0) = draw ns (replicate (length ns) None, g) 0) /\
    forall rpi'', (bootstrap = true -> rpi_le rpi0 rpi'') ->
      acc0 = acv_subsets (perm_fn bootstrap ns rpi'') mat ns 1)
    as (acc0 & rpi0 & g0 & -> & Hok0 & Hg0 & Hd0 & Hacc0).
  { destruct bootstrap.
    - rewrite length_seq.
      destruct (random_choice_ok n0 g) as [Hl Hb].
      assert (draw ns (replicate (length ns) None, g) 0 =
              (<[0 := Some (np.random_choice n0 g).1]>
                 (replicate (length ns) None),
               (np.random_choice n0 g).2)) as Hdraw.
      { unfold draw. cbn [fst snd ns length replicate lookup list_lookup].
        cbn [default id from_option]. by destruct (np.random_choice n0 g). }
      destruct (np.random_choice n0 g) as [perm g1]. simpl in Hl, Hb.
      rewrite py_setitem_lt by (rewrite length_replicate; simpl; lia).
      opt_step. rewrite take_rows_shift by done. opt_step.
      rewrite fmap_add_0. eexists _, _, _. split; [done|].
      split; [|split; [done|split]].
      + intros _. split; [by rewrite length_insert, length_replicate|].
        intros idx p Hp. destruct idx as [|idx].
        * rewrite list_lookup_insert_eq in Hp
            by (rewrite length_replicate; simpl; lia).
          injection Hp as <-. exists n0. auto.
        * rewrite list_lookup_insert_ne in Hp by done.
          apply lookup_replicate in Hp as [? _]. done.
      + intros _. by rewrite Hdraw.
      + intros rpi'' Hext. destruct (Hext eq_refl) as [_ Hx].
        unfold acv_subsets, perm_fn. rewrite range_empty. simpl.
        by rewrite (Hx 0 perm).
    - eexists _, _, _. split; [done|]. split; [done|]. split; [done|].
      split; [done|].
      intros rpi'' _. unfold acv_subsets. by rewrite range_empty. }
  destruct (for_each_range (acv_subset_step M mat pi bootstrap)
    (fun k st =>
       (bootstrap = true -> rpi_ok ns st.2.1) /\
       (bootstrap = false -> st.2.2 = g) /\
       (bootstrap = true ->
          st.2 = foldl (draw ns) (replicate (length ns) None, g)
                   (partition_uses mat k)) /\
       forall rpi'', (bootstrap = true -> rpi_le st.2.1 rpi'') ->
         st.1 = acv_subsets (perm_fn bootstrap ns rpi'') mat ns k)
    1 M (acc0, (rpi0, g0)))
    as ([acc [rpi g']] & Hrun & Hok & Hg & Hdr & Hacc);
    [done| | |].
  - cbn [fst snd]. split; [done|]. split; [done|]. split; [|done].
    intros Hbt. unfold partition_uses. rewrite range_empty.
    cbn [fmap list_fmap concat foldl]. by apply Hd0.
  - intros k [acc [rpi g1]] Hk (Hok & Hg & Hdr & Hacc).
    cbn [fst snd] in Hok, Hg, Hdr, Hacc.
    destruct (acv_subset_step_spec bootstrap M mat ns pi k acc rpi g1)
      as (S1 & S2 & rpi1 & g2 & Hstep & Hb1 & Hb0 & Hd1 & HS); try done.
    eexists. split; [exact Hstep|]. cbn [fst snd]. split; [|split; [|split]].
    + intros Hbt. by destruct (Hb1 Hbt).
    + intros Hbf. destruct (Hb0 Hbf) as [_ ->]. auto.
    + intros Hbt. rewrite partition_uses_snoc, foldl_app by lia.
      rewrite <- (Hdr Hbt). by apply Hd1.
    + intros rpi'' Hext. rewrite acv_subsets_snoc by lia.
      destruct (HS rpi'' Hext) as [-> ->]. f_equal. apply Hacc.
      intros Hbt. destruct (Hb1 Hbt) as [Hle _].
      eapply rpi_le_trans; [exact Hle|by apply Hext].
  - cbn [fst snd] in Hok, Hg, Hdr, Hacc. opt_step. rewrite Hrun. opt_step.
    exists rpi, g'. split; [|done]. do 2 f_equal. apply Hacc.
    intros; apply rpi_le_refl.
Qed.

Lemma acv_subsets_length P mat ns k :
  1 <= k -> length (acv_subsets P mat ns k) = 2 * k.
Proof.
  induction 1 as [|k Hk IH].
  - unfold acv_subsets. by rewrite range_empty.
  - rewrite acv_subsets_snoc, length_app, IH by done. simpl. lia.
Qed.

Lemma acv_subsets_lookup P mat ns k ii :
  1 <= ii < k ->
  acv_subsets P mat ns k !! (2 * ii) = Some (acv_subset P mat ns ii (2 * ii)) /\
  acv_subsets P mat ns k !! (2 * ii + 1) =
    Some (acv_subset P mat ns ii (2 * ii + 1)).
Proof.
  intros [Hii Hk]. induction Hk as [|k Hk IH].
  - rewrite acv_subsets_snoc by done.
    pose proof (acv_subsets_length P mat ns ii Hii) as Hl.
    rewrite !lookup_app_r by lia.
    replace (2 * ii - _) with 0 by lia.
    by replace (2 * ii + 1 - _) with 1 by lia.
  - rewrite acv_subsets_snoc by lia.
    pose proof (acv_subsets_length P mat ns k ltac:(lia)) as Hl.
    rewrite !lookup_app_l by lia. done.
Qed.

Lemma acv_subsets_lookup_1 P mat ns k : acv_subsets P mat ns k !! 1 = Some (P 0).
Proof. done. Qed.

(** ** The matrices of the three policies fit the bookkeeping *)

Lemma mat_of_allocation_ok M f :
  1 <= M ->
  (forall c, c < 2 * M -> length (f c) = M) ->
  f 0 = replicate M 0%Z -> f 1 = unit_col M 0 ->
  (forall c, 2 <= c < 2 * M -> np.where1 (f c) <> []) ->
  allocation_ok M (mat_of (2 * M) f).
Proof.
  intros HM Hlen H0 H1 Hne. split; [apply mat_of_length|].
  split; [|split; [|split]].
  - intros c col Hc.
    assert (c < 2 * M) as Hlt.
    { apply lookup_lt_Some in Hc. by rewrite mat_of_length in Hc. }
    rewrite mat_of_lookup in Hc by done. injection Hc as <-. auto.
  - rewrite mat_of_lookup by lia. by rewrite H0.
  - rewrite mat_of_lookup by lia. by rewrite H1.
  - intros c Hc.
    rewrite (list_lookup_total_correct _ _ (f c)); [by apply Hne|].
    apply mat_of_lookup. lia.
Qed.

Lemma where1_maximum_r a b k :
  Forall (fun x => x = 0%Z \/ x = 1%Z) a -> length a = length b ->
  k ∈ np.where1 b -> k ∈ np.where1 (np.maximum a b).
Proof.
  intros Ha Hl Hk. unfold np.where1, np.flatnonzero in *.
  apply elem_of_where_from in Hk as [_ Hk]. apply elem_of_where_from.
  split; [lia|]. rewrite Nat.sub_0_r in *.
  unfold np.eq1, np.maximum in *.
  rewrite list_lookup_fmap in Hk. rewrite list_lookup_fmap, lookup_zip_with.
  destruct (b !! k) as [y|] eqn:Hy; [|done]. simpl in Hk.
  destruct (lookup_lt_is_Some_2 a k) as [x Hx].
  { rewrite Hl. by eapply lookup_lt_Some. }
  rewrite Hx. simpl. f_equal.
  injection Hk as Hk. apply bool_decide_eq_true in Hk.
  apply bool_decide_eq_true.
  pose proof (proj1 (Forall_lookup _ _) Ha _ _ Hx) as Hb. simpl in Hb. lia.
Qed.

Lemma maximum_length a b :
  length a = length b -> length (np.maximum a b) = length b.
Proof. intros H. unfold np.maximum. rewrite length_zip_with. lia. Qed.

Lemma col_acvis_shape ri c :
  valid_recursion_index ri -> c < 2 * (length ri + 1) ->
  length (col_acvis ri (length ri + 1) c) = length ri + 1.
Proof.
  intros Hv Hc. unfold col_acvis. case_decide.
  - destruct (col_mirror_shape ri (c - 1) Hv) as [H1 _]; [lia|].
    destruct (col_mirror_shape ri c Hv) as [H2 _]; [lia|].
    rewrite maximum_length; congruence.
  - by apply col_mirror_shape.
Qed.

Lemma col_mirror_nonempty ri c :
  2 <= c < 2 * (length ri + 1) ->
  np.where1 (col_mirror ri (length ri + 1) c) <> [].
Proof.
  intros Hc. unfold col_mirror, col_init.
  repeat case_decide; try (exfalso; lia); by rewrite where1_unit.
Qed.

Lemma policy_allocation_ok (p : policy) ri :
  valid_recursion_index ri ->
  exists mat,
    _create_allocation_matrix p ri = Some mat /\
    allocation_ok (length ri + 1) mat.
Proof.
  intros Hv. destruct p; simpl.
  - eexists. split; [by apply gmf_closed|].
    apply mat_of_allocation_ok; [lia| | | |].
    + intros c Hc. by apply col_gmf_shape.
    + col_cases.
    + unfold col_gmf, col_mirror, col_init.
      repeat case_decide; try (exfalso; lia). done.
    + intros c Hc. unfold col_gmf. rewrite decide_True by lia.
      by rewrite where1_prefix.
  - eexists. split; [by apply acvis_closed|].
    apply mat_of_allocation_ok; [lia| | | |].
    + intros c Hc. by apply col_acvis_shape.
    + col_cases.
    + unfold col_acvis, col_mirror, col_init.
      repeat case_decide; try (exfalso; lia). done.
    + intros c Hc. unfold col_acvis. case_decide.
      * destruct (col_mirror_shape ri (c - 1) Hv) as [H1 Hb1]; [lia|].
        destruct (col_mirror_shape ri c Hv) as [H2 _]; [lia|].
        pose proof (col_mirror_nonempty ri c ltac:(lia)) as Hne.
        destruct (np.where1 (col_mirror ri (length ri + 1) c)) as [|k l] eqn:E;
          [done|].
        assert (k ∈ np.where1 (np.maximum (col_mirror ri (length ri + 1) (c - 1))
                                 (col_mirror ri (length ri + 1) c))) as Hk.
        { apply where1_maximum_r; [done|congruence|]. rewrite E. by left. }
        intros E'. rewrite E' in Hk. by apply elem_of_nil in Hk.
      * by apply col_mirror_nonempty.
  - eexists. split; [by apply acvrd_closed|].
    apply mat_of_allocation_ok; [lia| | | |].
    + intros c Hc. by apply col_mirror_shape.
    + col_cases.
    + unfold col_mirror, col_init.
      repeat case_decide; try (exfalso; lia). done.
    + intros c Hc. by apply col_mirror_nonempty.
Qed.

Lemma active_mask_length M mat ii :
  allocation_ok M mat -> ii < M -> length (active_mask mat ii) = M.
Proof.
  intros (Hlen & Hcols & _) Hii.
  destruct (lookup_lt_is_Some_2 mat (2 * ii)) as [c1 Hc1]; [lia|].
  destruct (lookup_lt_is_Some_2 mat (2 * ii + 1)) as [c2 Hc2]; [lia|].
  pose proof (Hcols _ _ Hc1) as Hl1. pose proof (Hcols _ _ Hc2) as Hl2.
  unfold active_mask.
  rewrite (list_lookup_total_correct _ _ _ Hc1).
  rewrite (list_lookup_total_correct _ _ _ Hc2).
  rewrite lor_length, eq1_length; rewrite ?eq1_length; lia.
Qed.

(** *** The draws of a bootstrap replicate *)

Lemma first_uses_snoc l x :
  first_uses (l ++ [x]) =
  if decide (x ∈ first_uses l) then first_uses l else first_uses l ++ [x].
Proof. unfold first_uses. by rewrite foldl_app. Qed.

Lemma first_uses_elem l idx : idx ∈ first_uses l <-> idx ∈ l.
Proof.
  induction l as [|x l IH] using rev_ind.
  { done. }
  rewrite first_uses_snoc, elem_of_app, list_elem_of_singleton.
  case_decide.
  - rewrite IH. split; [auto|]. intros [?| ->]; [done|]. by apply IH.
  - by rewrite elem_of_app, list_elem_of_singleton, IH.
Qed.

Lemma first_uses_NoDup l : NoDup (first_uses l).
Proof.
  induction l as [|x l IH] using rev_ind.
  { constructor. }
  rewrite first_uses_snoc. case_decide; [done|].
  apply NoDup_app. split; [done|]. split; [|apply NoDup_singleton].
  intros y Hy ->%list_elem_of_singleton. done.
Qed.

(** The recorded permutations and the generator after the partitions
    [uses] have been met: every partition has taken its permutation from
    the generator once, when it was first met, and the generator has
    advanced by the sizes of the partitions met. *)
Lemma draws_closed (ns : list nat) (g : np.rng) (uses : list nat) :
  (forall idx, idx ∈ uses -> idx < length ns) ->
  let order := first_uses uses in
  let st := foldl (draw ns) (replicate (length ns) None, g) uses in
  length st.1 = length ns /\
  (forall k idx,
     order !! k = Some idx ->
     st.1 !! idx =
     Some (Some (np.random_choice (default 0 (ns !! idx))
                   (fun j => g (np.sum ((fun i => default 0 (ns !! i))
                                          <$> take k order) + j))).1)) /\
  (forall idx, idx < length ns -> idx ∉ order -> st.1 !! idx = Some None) /\
  (forall j, st.2 j = g (np.sum ((fun i => default 0 (ns !! i)) <$> order) + j)).
Proof.
  induction uses as [|x uses IH] using rev_ind; intros Hin order st.
  { subst order st. cbn [foldl first_uses fst snd].
    split; [apply length_replicate|]. split; [done|]. split; [|done].
    intros idx Hidx _. by apply lookup_replicate_2. }
  destruct IH as (Hlen & Hdrawn & Hfree & Hgen).
  { intros idx Hidx. apply Hin, elem_of_app. by left. }
  assert (x < length ns) as Hx
    by (apply Hin, elem_of_app; right; by apply list_elem_of_singleton).
  subst order st. rewrite first_uses_snoc, foldl_app. cbn [foldl].
  set (order := first_uses uses) in *.
  set (st := foldl (draw ns) (replicate (length ns) None, g) uses) in *.
  destruct (decide (x ∈ order)) as [Hseen|Hnew].
  - (* met before: nothing is drawn *)
    apply list_elem_of_lookup in Hseen as [k Hk].
    unfold draw. rewrite (Hdrawn k x Hk). done.
  - (* met for the first time *)
    pose proof (Hfree x Hx Hnew) as Hnone.
    unfold draw. rewrite Hnone.
    set (n := default 0 (ns !! x)).
    unfold np.random_choice. cbn [fst snd].
    set (S0 := np.sum ((fun i => default 0 (ns !! i)) <$> order)) in *.
    split; [by rewrite length_insert|]. split; [|split].
    + intros k idx Hk.
      destruct (decide (k < length order)) as [Hlt|Hge].
      * rewrite lookup_app_l in Hk by done.
        assert (idx <> x) as Hne.
        { intros ->. apply Hnew. by eapply list_elem_of_lookup_2. }
        rewrite list_lookup_insert_ne by done.
        rewrite take_app_le by lia. by apply Hdrawn.
      * assert (k = length order) as ->.
        { apply lookup_lt_Some in Hk. rewrite length_app in Hk.
          simpl in Hk. lia. }
        rewrite list_lookup_middle in Hk by done. injection Hk as <-.
        rewrite list_lookup_insert_eq by lia.
        rewrite take_app_length. fold S0 n. do 2 f_equal.
        apply list_fmap_ext. intros i j _. by rewrite Hgen.
    + intros idx Hidx Hnot.
      assert (idx <> x) as Hne.
      { intros ->. apply Hnot, elem_of_app. right.
        by apply list_elem_of_singleton. }
      rewrite list_lookup_insert_ne by done. apply Hfree; [done|].
      intros Hi. apply Hnot, elem_of_app. by left.
    + intros j. rewrite Hgen, fmap_app, sum_app. fold S0. cbn [fmap list_fmap].
      fold n. change (np.sum [n]) with (n + 0). f_equal. lia.
Qed.

Lemma elem_of_concat {A} (x : A) (ls : list (list A)) :
  x ∈ concat ls <-> exists l, x ∈ l /\ l ∈ ls.
Proof.
  induction ls as [|l0 ls IH]; simpl.
  - split; [by intros ?%elem_of_nil|]. by intros (l & _ & ?%elem_of_nil).
  - rewrite elem_of_app, IH. split.
    + intros [Hx|(l & Hx & Hl)]; [exists l0|exists l]; split; try done;
        [by left|by right].
    + intros (l & Hx & [->|Hl]%elem_of_cons); [by left|right; eauto].
Qed.

Lemma elem_of_partition_uses M mat idx :
  idx ∈ partition_uses mat M <->
  idx = 0 \/ exists ii, 1 <= ii < M /\ active_mask mat ii !! idx = Some true.
Proof.
  unfold partition_uses. rewrite elem_of_cons, elem_of_concat.
  split; (intros [->|Hr]; [by left|right]).
  - destruct Hr as (l & Hidx & Hl).
    apply list_elem_of_fmap in Hl as (ii & -> & Hii). apply elem_of_seq in Hii.
    exists ii. split; [lia|].
    apply elem_of_where_from in Hidx as [_ Hidx].
    by rewrite Nat.sub_0_r in Hidx.
  - destruct Hr as (ii & Hii & Hidx).
    exists (np.flatnonzero (active_mask mat ii)). split.
    + apply elem_of_where_from. rewrite Nat.sub_0_r. split; [lia|done].
    + apply list_elem_of_fmap. exists ii. split; [done|].
      apply elem_of_seq. lia.
Qed.

(** C8. In a bootstrap replicate every partition [idx] that a model uses
    has one resampling [P idx] of its own indices.  It is what
    [np.random.choice] draws for the partition when the partition is first
    met, from the generator as the partitions met before have left it, and
    each acv subset of each model that contains the partition holds exactly
    that resampling, moved to where the partition starts among the samples
    of the model.  The generator is advanced once per partition, by the
    size of the partition: the permutation is drawn once and reused, never
    redrawn per model. *)
Theorem bootstrap_reuses_partition_permutation (p : policy)
    (recursion_index : list Z) (npartition_samples : list nat) (g : np.rng) :
  valid_recursion_index recursion_index ->
  length npartition_samples = length recursion_index + 1 ->
  let M := length recursion_index + 1 in
  let size := fun idx => default 0 (npartition_samples !! idx) in
  exists mat P subsets g',
    _create_allocation_matrix p recursion_index = Some mat /\
    _get_partition_indices_per_acv_subset M mat npartition_samples true g
    = Some (subsets, g') /\
    (forall idx n, npartition_samples !! idx = Some n ->
       length (P idx) = n /\ Forall (fun k => k < n) (P idx)) /\
    subsets !! 1 = Some (P 0) /\
    (forall ii c,
       1 <= ii < M -> c = 2 * ii \/ c = 2 * ii + 1 ->
       subsets !! c =
       Some (concat ((fun idx =>
                        Nat.add (offset mat npartition_samples ii idx)
                          <$> P idx)
                       <$> np.where1 (mat !!! c)))) /\
    let order := first_uses (partition_uses mat M) in
    NoDup order /\
    (forall idx,
       idx ∈ order <->
       idx = 0 \/
       exists ii, 1 <= ii < M /\ active_mask mat ii !! idx = Some true) /\
    (forall k idx,
       order !! k = Some idx ->
       P idx =
       (np.random_choice (size idx)
          (fun j => g (np.sum (size <$> take k order) + j))).1) /\
    (forall j, g' j = g (np.sum (size <$> order) + j)).
Proof.
  intros Hv Hns M size.
  destruct (policy_allocation_ok p recursion_index Hv) as (mat & Hmat & Hok).
  fold M in Hok.
  destruct (acv_subset_indices_spec true M mat npartition_samples g Hok Hns)
    as (rpi & g' & Hrun & Hrpi & _ & Hdraws); [unfold M; lia|].
  specialize (Hdraws eq_refl).
  assert (forall idx, idx ∈ partition_uses mat M ->
                      idx < length npartition_samples) as Hin.
  { intros idx [->|(ii & Hii & Hidx)]%elem_of_partition_uses; [lia|].
    apply lookup_lt_Some in Hidx.
    rewrite (active_mask_length M) in Hidx by (done || lia). lia. }
  destruct (draws_closed npartition_samples g (partition_uses mat M) Hin)
    as (_ & Hdrawn & _ & Hgen).
  rewrite <- Hdraws in Hdrawn, Hgen. cbn [fst snd] in Hdrawn, Hgen.
  exists mat, (perm_fn true npartition_samples rpi). eexists _, g'.
  split; [done|]. split; [exact Hrun|].
  split; [|split; [|split; [|split; [|split; [|split]]]]].
  - intros idx n Hn. unfold perm_fn.
    destruct (mjoin (rpi !! idx)) as [perm|] eqn:E.
    + destruct (rpi !! idx) as [[q|]|] eqn:E'; simplify_eq/=.
      destruct (Hrpi eq_refl) as [_ Hall].
      destruct (Hall _ _ E') as (n' & Hn' & ? & ?). by simplify_eq.
    + rewrite Hn. simpl. split; [apply length_seq|].
      apply Forall_seq. intros; lia.
  - apply acv_subsets_lookup_1.
  - intros ii c Hii [-> | ->].
    + by apply acv_subsets_lookup.
    + by apply acv_subsets_lookup.
  - apply first_uses_NoDup.
  - intros idx. rewrite first_uses_elem. apply elem_of_partition_uses.
  - intros k idx Hk. unfold perm_fn. by rewrite (Hdrawn k idx Hk).
  - exact Hgen.
Qed.

Lemma bootstrap_reuses_partition_permutation_witness :
  valid_recursion_index [0; 0]%Z /\
  length [2; 1; 3] = length [0; 0]%Z + 1 /\
  exists mat subsets g',
    _create_allocation_matrix GMF [0; 0]%Z = Some mat /\
    _get_partition_indices_per_acv_subset 3 mat [2; 1; 3] true
      (fun k => 7 * k + 3) = Some (subsets, g') /\
    first_uses (partition_uses mat 3) = [0; 1; 2] /\
    subsets = [[]; [1; 0]; [1; 0]; [1; 0; 2]; [1; 0]; [1; 0; 2; 3; 4; 5]] /\
    forall j, g' j = 7 * (6 + j) + 3.
Proof.
  assert (valid_recursion_index [0; 0]%Z) as Hv.
  { unfold valid_recursion_index. repeat constructor; simpl; lia. }
  split; [exact Hv|]. split; [reflexivity|].
  destruct (bootstrap_reuses_partition_permutation GMF [0; 0]%Z [2; 1; 3]
              (fun k => 7 * k + 3) Hv eq_refl)
    as (mat & P & subsets & g' & Hmat & Hrun & _ & _ & _ & _ & _ & _ & Hgen).
  exists mat, subsets, g'. split; [exact Hmat|]. split; [exact Hrun|].
  vm_compute in Hmat. injection Hmat as <-.
  split; [vm_compute; reflexivity|]. split.
  - vm_compute in Hrun. by injection Hrun as <- _.
  - intros j. rewrite Hgen. reflexivity.
Defined.

(** ** Separating the values of a model into its acv subsets *)

Lemma take_rows_seq {A} (V : list A) off n :
  off + n <= length V ->
  np.take_rows V (seq off n) = Some (np.slice V off (off + n)).
Proof.
  unfold np.take_rows, np.slice. replace (off + n - off) with n by lia.
  revert off; induction n as [|n IH]; intros off Hl; [done|].
  destruct (lookup_lt_is_Some_2 V off) as [x Hx]; [lia|].
  cbn [seq mapM]. rewrite Hx, (drop_S _ _ _ Hx). cbn [mbind option_bind].
  rewrite IH by lia. done.
Qed.

Lemma take_rows_app {A} (V : list A) l1 l2 r1 r2 :
  np.take_rows V l1 = Some r1 -> np.take_rows V l2 = Some r2 ->
  np.take_rows V (l1 ++ l2) = Some (r1 ++ r2).
Proof.
  unfold np.take_rows. rewrite !mapM_Some. apply Forall2_app.
Qed.

Lemma take_rows_concat {A B} (V : list A) (f : B -> list nat)
    (h : B -> list A) (l : list B) :
  (forall x, x ∈ l -> np.take_rows V (f x) = Some (h x)) ->
  np.take_rows V (concat (f <$> l)) = Some (concat (h <$> l)).
Proof.
  induction l as [|x l IH]; intros H; [done|]. simpl.
  apply take_rows_app; [apply H; by left|].
  apply IH. intros y Hy. apply H. by right.
Qed.

Lemma msum_take_le (mask : list bool) (ns : list nat) j n :
  length mask = length ns -> mask !! j = Some true -> ns !! j = Some n ->
  msum (take j mask) (take j ns) + n <= msum mask ns.
Proof.
  intros Hl Hm Hn.
  rewrite <- (take_drop_middle _ _ _ Hm) at 2.
  rewrite <- (take_drop_middle _ _ _ Hn) at 2.
  rewrite msum_app by (rewrite !length_take; lia).
  unfold msum at 3. simpl.  unfold np.sum at 1. lia.
Qed.

Lemma take_rows_acv_subset {A} (V : list A) (mask mask1 : list bool)
    (ns : list nat) :
  length mask = length ns -> length mask1 = length ns ->
  (forall k, mask1 !! k = Some true -> mask !! k = Some true) ->
  length V = msum mask ns ->
  np.take_rows V
    (concat ((fun idx => Nat.add (msum (take idx mask) (take idx ns))
                           <$> seq 0 (default 0 (ns !! idx)))
               <$> np.flatnonzero mask1)) =
  Some (concat (block V mask ns <$> np.flatnonzero mask1)).
Proof.
  intros Hl Hl1 Hsub HV. apply take_rows_concat. intros idx Hidx.
  apply elem_of_where_from in Hidx as [_ Hm]. rewrite Nat.sub_0_r in Hm.
  destruct (lookup_lt_is_Some_2 ns idx) as [n Hn].
  { rewrite <- Hl1. by eapply lookup_lt_Some. }
  pose proof (msum_take_le mask ns idx n Hl (Hsub _ Hm) Hn).
  rewrite fmap_add_seq, Nat.add_0_r. unfold block. rewrite Hn. simpl.
  apply take_rows_seq. lia.
Qed.

Lemma single_model_nsamples_gen {A} `{Sum A} M mat (l : list A) ii :
  allocation_ok M mat -> length l = M -> ii < M ->
  _compute_single_model_nsamples mat l ii =
  Some (array_sum (mfilter (active_mask mat ii) l)).
Proof.
  intros (Hlen & Hcols & _) Hns Hii.
  destruct (lookup_lt_is_Some_2 mat (2 * ii)) as [c1 Hc1]; [lia|].
  destruct (lookup_lt_is_Some_2 mat (2 * ii + 1)) as [c2 Hc2]; [lia|].
  pose proof (Hcols _ _ Hc1) as Hl1. pose proof (Hcols _ _ Hc2) as Hl2.
  unfold _compute_single_model_nsamples, active_partitions, active_mask.
  rewrite Hc1, Hc2. simpl.
  rewrite (list_lookup_total_correct _ _ _ Hc1).
  rewrite (list_lookup_total_correct _ _ _ Hc2).
  unfold np.flatnonzero. rewrite take_rows_where.
  - done.
  - rewrite lor_length, eq1_length; rewrite ?eq1_length; lia.
Qed.

Lemma single_model_nsamples M mat (ns : list nat) ii :
  allocation_ok M mat -> length ns = M -> ii < M ->
  _compute_single_model_nsamples mat ns ii = Some (msum (active_mask mat ii) ns).
Proof. apply single_model_nsamples_gen. Qed.

Lemma nsamples_per_model_gen {A} `{Sum A} M mat (l : list A) :
  allocation_ok M mat -> length l = M ->
  _compute_nsamples_per_model M mat l =
  Some ((fun ii => array_sum (mfilter (active_mask mat ii) l)) <$> range 0 M).
Proof.
  intros Hok Hns. unfold _compute_nsamples_per_model.
  apply mapM_fmap_elem. intros ii Hii. apply elem_of_seq in Hii.
  apply (single_model_nsamples_gen M); (done || lia).
Qed.

Lemma nsamples_per_model_lookup M mat (ns nspm : list nat) ii :
  allocation_ok M mat -> length ns = M -> ii < M ->
  _compute_nsamples_per_model M mat ns = Some nspm ->
  nspm !! ii = Some (msum (active_mask mat ii) ns).
Proof.
  intros Hok Hns Hii Hc. unfold _compute_nsamples_per_model in Hc.
  apply mapM_Some in Hc.
  assert (range 0 M !! ii = Some ii) as Hr.
  { unfold range. rewrite lookup_seq_lt by lia. done. }
  destruct (Forall2_lookup_l _ _ _ _ _ Hc Hr) as (n & Hn & Hs).
  rewrite (single_model_nsamples M) in Hs by done. by simplify_eq.
Qed.

Lemma column_in_active_mask M mat ii c k :
  allocation_ok M mat -> ii < M -> c = 2 * ii \/ c = 2 * ii + 1 ->
  np.eq1 (mat !!! c) !! k = Some true -> active_mask mat ii !! k = Some true.
Proof.
  intros (Hlen & Hcols & _) Hii Hc Hk.
  destruct (lookup_lt_is_Some_2 mat (2 * ii)) as [c1 Hc1]; [lia|].
  destruct (lookup_lt_is_Some_2 mat (2 * ii + 1)) as [c2 Hc2]; [lia|].
  pose proof (Hcols _ _ Hc1) as Hl1. pose proof (Hcols _ _ Hc2) as Hl2.
  unfold active_mask.
  rewrite (list_lookup_total_correct _ _ _ Hc1).
  rewrite (list_lookup_total_correct _ _ _ Hc2).
  assert (length (np.eq1 c1) = length (np.eq1 c2)) by (rewrite !eq1_length; lia).
  destruct Hc as [-> | ->].
  - rewrite (list_lookup_total_correct _ _ _ Hc1) in Hk. by apply lor_lookup_l.
  - rewrite (list_lookup_total_correct _ _ _ Hc2) in Hk. by apply lor_lookup_r.
Qed.

Lemma column_length M mat c :
  allocation_ok M mat -> c < 2 * M -> length (mat !!! c) = M.
Proof.
  intros (Hlen & Hcols & _) Hc.
  destruct (lookup_lt_is_Some_2 mat c) as [col Hcol]; [lia|].
  rewrite (list_lookup_total_correct _ _ _ Hcol). eauto.
Qed.

Lemma where1_zeros n : np.where1 (replicate n 0%Z) = [].
Proof.
  unfold np.where1, np.flatnonzero. by rewrite eq1_zeros, where_from_false.
Qed.

Lemma perm_fn_false ns rpi idx :
  perm_fn false ns rpi idx = seq 0 (default 0 (ns !! idx)).
Proof. done. Qed.

Lemma separate_spec M mat ns nspm values g :
  allocation_ok M mat -> 1 <= M -> length ns = M ->
  _compute_nsamples_per_model M mat ns = Some nspm ->
  Forall2 (fun v n => length (rows v) = n) values nspm ->
  _separate_values_per_model M mat ns nspm values false g =
  Some ((fun c => expected_acv mat ns (values !!! (c / 2)) c)
          <$> range 0 (2 * M), g).
Proof.
  intros Hok HM Hns Hc Hvals.
  assert (length nspm = M) as Hlm.
  { unfold _compute_nsamples_per_model in Hc. apply mapM_Some in Hc.
    apply Forall2_length in Hc. unfold range in Hc.
    rewrite length_seq in Hc. lia. }
  assert (length values = M) as Hlv
    by (apply Forall2_length in Hvals; lia).
  assert (forall ii, ii < M ->
            exists V, values !! ii = Some V /\ values !!! ii = V /\
                      length (rows V) = msum (active_mask mat ii) ns) as HV.
  { intros ii Hii.
    destruct (lookup_lt_is_Some_2 values ii) as [V HVi]; [lia|].
    exists V. split; [done|]. split; [by apply list_lookup_total_correct|].
    destruct (Forall2_lookup_l _ _ _ _ _ Hvals HVi) as (n & Hn & <-).
    rewrite (nsamples_per_model_lookup M mat ns nspm ii) in Hn by done.
    by simplify_eq. }
  unfold _separate_values_per_model. rewrite decide_False by lia.
  (* the row counts agree *)
  match goal with |- context [for_each ?body (range 0 M) tt] =>
    destruct (for_each_range body (fun _ _ => True) 0 M tt) as ([] & -> & _);
      [lia|done| |]
  end.
  { intros ii [] Hii _. destruct (HV ii) as (V & -> & _ & HVl); [lia|].
    rewrite (nsamples_per_model_lookup M mat ns nspm ii) by (done || lia).
    simpl. rewrite decide_False by lia. eauto. }
  cbn [mbind option_bind].
  destruct (acv_subset_indices_spec false M mat ns g Hok Hns HM)
    as (rpi & g' & -> & _ & Hg & _).
  rewrite (Hg eq_refl). cbn [mbind option_bind fst snd].
  rewrite acv_subsets_length by done.
  rewrite (mapM_fmap_elem _
             (fun c => expected_acv mat ns (values !!! (c / 2)) c)); [done|].
  intros c Hc'. apply elem_of_seq in Hc'.
  destruct (HV (c / 2)) as (V & HVi & -> & HVl); [lia|].
  rewrite HVi. cbn [mbind option_bind].
  pose proof (active_mask_length M mat (c / 2) Hok ltac:(lia)) as Hml.
  pose proof (column_length M mat c Hok ltac:(lia)) as Hcl.
  pose proof Hok as (Hlen & Hcols & H0 & H1 & Hne).
  unfold expected_acv, fancy.
  destruct (decide (c = 0)) as [->|Hc0]; [|destruct (decide (c = 1)) as [->|Hc1]].
  - simpl. rewrite (list_lookup_total_correct _ _ _ H0), where1_zeros. done.
  - change (1 / 2) with 0 in *.
    rewrite acv_subsets_lookup_1, perm_fn_false. cbn [mbind option_bind].
    rewrite (list_lookup_total_correct _ _ _ H1), where1_unit. simpl.
    rewrite app_nil_r. unfold block. rewrite !take_0.
    destruct (lookup_lt_is_Some_2 ns 0) as [n0 Hn0]; [lia|]. rewrite Hn0. simpl.
    change (msum [] []) with 0.
    assert (active_mask mat 0 !! 0 = Some true) as Ha.
    { apply (column_in_active_mask M mat 0 1); [done|lia|by right|].
      rewrite (list_lookup_total_correct _ _ _ H1), eq1_unit. done. }
    assert (length (active_mask mat 0) = length ns) as Hml' by lia.
    pose proof (msum_take_le _ ns 0 n0 Hml' Ha Hn0) as Hle.
    rewrite !take_0 in Hle. change (msum [] []) with 0 in Hle.
    rewrite take_rows_seq by lia. done.
  - assert (c = 2 * (c / 2) \/ c = 2 * (c / 2) + 1) as Hcc by lia.
    assert (acv_subsets (perm_fn false ns rpi) mat ns M !! c =
            Some (acv_subset (perm_fn false ns rpi) mat ns (c / 2) c)) as ->.
    { destruct (acv_subsets_lookup (perm_fn false ns rpi) mat ns M (c / 2))
        as [E1 E2]; [lia|].
      destruct Hcc as [Hcc|Hcc]; [rewrite <- Hcc in E1|rewrite <- Hcc in E2];
        done. }
    cbn [mbind option_bind]. unfold acv_subset, offset, np.where1.
    rewrite (take_rows_acv_subset (rows V) (active_mask mat (c / 2))
               (np.eq1 (mat !!! c)) ns); [done|lia| | |lia].
    + rewrite eq1_length. lia.
    + intros k Hk.
      apply (column_in_active_mask M mat (c / 2) c); [done|lia|done|done].
Qed.

(** ** Combining the acv subsets of a model *)

Lemma where_from_take_S i (mask : list bool) j (b : bool) :
  mask !! j = Some b ->
  np.where_from i (take (S j) mask) =
  np.where_from i (take j mask) ++ (if b then [i + j] else []).
Proof.
  intros Hb. rewrite (take_S_r _ _ _ Hb), where_from_app.
  rewrite length_take_le by (apply lookup_lt_Some in Hb; lia).
  by destruct b.
Qed.

Lemma block_length {A} (V : list A) (mask : list bool) (ns : list nat) j n :
  length mask = length ns -> length V = msum mask ns ->
  mask !! j = Some true -> ns !! j = Some n ->
  length (block V mask ns j) = n.
Proof.
  intros Hl HV Hm Hn. pose proof (msum_take_le mask ns j n Hl Hm Hn).
  unfold block, np.slice. rewrite Hn. simpl.
  rewrite length_take, length_drop. lia.
Qed.

Lemma length_concat_blocks {A} (Bf : nat -> list A) (mask1 : list bool)
    (ns : list nat) jj :
  length mask1 = length ns -> jj <= length ns ->
  (forall j n, mask1 !! j = Some true -> ns !! j = Some n -> length (Bf j) = n) ->
  length (concat (Bf <$> np.where_from 0 (take jj mask1))) =
  msum (take jj mask1) (take jj ns).
Proof.
  intros Hl Hjj HB. induction jj as [|jj IH]; [by rewrite !take_0|].
  destruct (lookup_lt_is_Some_2 mask1 jj) as [b Hb]; [lia|].
  destruct (lookup_lt_is_Some_2 ns jj) as [n Hn]; [lia|].
  rewrite (where_from_take_S _ _ _ _ Hb), (msum_take_S _ _ _ _ _ Hl Hb Hn).
  rewrite fmap_app, concat_app, length_app, IH by lia. f_equal.
  destruct b; simpl; [|done]. rewrite app_nil_r. eauto.
Qed.

Lemma slice_app_middle {A} (X B Y : list A) :
  np.slice (X ++ B ++ Y) (length X) (length X + length B) = B.
Proof.
  unfold np.slice. rewrite drop_app_length.
  replace (length X + length B - length X) with (length B) by lia.
  by rewrite take_app_length.
Qed.

Lemma slice_concat_where {A} (Bf : nat -> list A) (mask1 : list bool)
    (ns : list nat) jj n :
  length mask1 = length ns ->
  (forall j n, mask1 !! j = Some true -> ns !! j = Some n -> length (Bf j) = n) ->
  mask1 !! jj = Some true -> ns !! jj = Some n ->
  np.slice (concat (Bf <$> np.where_from 0 mask1))
    (msum (take jj mask1) (take jj ns))
    (msum (take jj mask1) (take jj ns) + n) = Bf jj.
Proof.
  intros Hl HB Hm Hn.
  assert (jj < length ns) as Hjj by by eapply lookup_lt_Some.
  rewrite <- (take_drop_middle _ _ _ Hm) at 1.
  rewrite where_from_app. simpl.
  rewrite length_take_le by lia. simpl.
  rewrite fmap_app, concat_app. simpl.
  rewrite <- (length_concat_blocks Bf mask1 ns jj) by (done || lia).
  pose proof (HB jj n Hm Hn) as HBl. rewrite <- HBl.
  apply slice_app_middle.
Qed.

Lemma concat_blocks_take {A} (V : list A) (mask : list bool) (ns : list nat) jj :
  length mask = length ns -> jj <= length ns ->
  concat (block V mask ns <$> np.where_from 0 (take jj mask)) =
  take (msum (take jj mask) (take jj ns)) V.
Proof.
  intros Hl Hjj. induction jj as [|jj IH]; [by rewrite !take_0|].
  destruct (lookup_lt_is_Some_2 mask jj) as [b Hb]; [lia|].
  destruct (lookup_lt_is_Some_2 ns jj) as [n Hn]; [lia|].
  rewrite (where_from_take_S _ _ _ _ Hb), (msum_take_S _ _ _ _ _ Hl Hb Hn).
  rewrite fmap_app, concat_app, IH by lia.
  destruct b; simpl.
  - rewrite app_nil_r. unfold block, np.slice. rewrite Hn. simpl.
    replace (msum (take jj mask) (take jj ns) + n -
             msum (take jj mask) (take jj ns)) with n by lia.
    apply take_take_drop.
  - by rewrite app_nil_r, Nat.add_0_r.
Qed.

Lemma pair_up_length (l : list array2d) M :
  length l = 2 * M -> length (pair_up l) = M.
Proof.
  revert l; induction M as [|M IH]; intros l Hl.
  - by destruct l.
  - destruct l as [|a [|b l]]; simpl in Hl; try lia.
    simpl. f_equal. apply IH. lia.
Qed.

Lemma pair_up_lookup (l : list array2d) ii a b :
  l !! (2 * ii) = Some a -> l !! (2 * ii + 1) = Some b ->
  pair_up l !! ii = Some (PyList [Arr2 a; Arr2 b]).
Proof.
  revert l; induction ii as [|ii IH]; intros l Ha Hb.
  - destruct l as [|a' [|b' l]]; simplify_eq/=. done.
  - replace (2 * S ii) with (S (S (2 * ii))) in Ha by lia.
    replace (2 * S ii + 1) with (S (S (2 * ii + 1))) in Hb by lia.
    destruct l as [|a' [|b' l]]; try done. by apply IH.
Qed.

Lemma vstack_blocks w (blocks : list (list (list Z))) :
  blocks <> [] ->
  vstack ((fun B => Arr2 {| ncols := w; rows := B |}) <$> blocks) =
  Some {| ncols := w; rows := concat blocks |}.
Proof.
  intros Hne. unfold vstack. rewrite <- list_fmap_compose.
  destruct blocks as [|B blocks]; [done|]. simpl.
  match goal with |- context [forallb ?f ?l] =>
    assert (forallb f l = true) as ->
  end.
  { apply forallb_forall. intros b Hb. apply list_elem_of_In in Hb.
    apply list_elem_of_fmap in Hb as (B' & -> & _). simpl.
    apply Nat.eqb_refl. }
  do 3 f_equal. induction blocks as [|B' blocks IH]; simpl; [done|].
  by rewrite IH.
Qed.

Ltac comb_step :=
  cbn [mbind option_bind c_lb c_lb2 pieces fst snd getitem nd_slice
       ncols rows lookup list_lookup].

Lemma eq1_lookup col j x :
  col !! j = Some x -> np.eq1 col !! j = Some (bool_decide (x = 1%Z)).
Proof. intros H. unfold np.eq1. by rewrite list_lookup_fmap, H. Qed.

Lemma combine_step_spec M mat ns acv ii V jj :
  allocation_ok M mat -> length ns = M -> 1 <= ii < M -> jj < M ->
  acv !! ii = Some (PyList [Arr2 (expected_acv mat ns V (2 * ii));
                            Arr2 (expected_acv mat ns V (2 * ii + 1))]) ->
  length (rows V) = msum (active_mask mat ii) ns ->
  combine_step mat ns acv ii (combine_state_at mat ns ii V jj) jj =
  Some (combine_state_at mat ns ii V (S jj)).
Proof.
  intros Hok Hns Hii Hjj Hacv HV.
  pose proof Hok as (Hlen & Hcols & _).
  destruct (lookup_lt_is_Some_2 mat (2 * ii)) as [c1 Hc1]; [lia|].
  destruct (lookup_lt_is_Some_2 mat (2 * ii + 1)) as [c2 Hc2]; [lia|].
  pose proof (Hcols _ _ Hc1) as Hl1. pose proof (Hcols _ _ Hc2) as Hl2.
  pose proof (list_lookup_total_correct _ _ _ Hc1) as E1.
  pose proof (list_lookup_total_correct _ _ _ Hc2) as E2.
  destruct (lookup_lt_is_Some_2 c1 jj) as [x1 Hx1]; [lia|].
  destruct (lookup_lt_is_Some_2 c2 jj) as [x2 Hx2]; [lia|].
  destruct (lookup_lt_is_Some_2 ns jj) as [n Hn]; [lia|].
  pose proof (eq1_lookup _ _ _ Hx1) as Hm1.
  pose proof (eq1_lookup _ _ _ Hx2) as Hm2.
  pose proof (active_mask_length M mat ii Hok ltac:(lia)) as Hml.
  assert (active_mask mat ii !! jj =
          Some (bool_decide (x1 = 1%Z) || bool_decide (x2 = 1%Z))) as Hm.
  { unfold active_mask, np.lor. by rewrite E1, E2, lookup_zip_with, Hm1, Hm2. }
  assert (forall c, c = 2 * ii \/ c = 2 * ii + 1 ->
            forall j n, np.eq1 (mat !!! c) !! j = Some true -> ns !! j = Some n ->
              length (block (rows V) (active_mask mat ii) ns j) = n) as HB.
  { intros c Hc j n' Hj Hn'. apply block_length; [lia|done| |done].
    apply (column_in_active_mask M mat ii c); [done|lia|done|done]. }
  assert (2 * ii / 2 = ii) as Ed1 by lia.
  assert ((2 * ii + 1) / 2 = ii) as Ed2 by lia.
  unfold combine_step, mat_get. rewrite Hc1, Hc2. comb_step.
  rewrite Hx1, Hx2, Hacv, Hn. comb_step.
  unfold combine_state_at. rewrite E1, E2. unfold np.flatnonzero.
  assert (length (np.eq1 c1) = length ns) as Hlm1 by (rewrite eq1_length; lia).
  assert (length (np.eq1 c2) = length ns) as Hlm2 by (rewrite eq1_length; lia).
  rewrite (msum_take_S _ _ _ _ _ Hlm1 Hm1 Hn).
  rewrite (msum_take_S _ _ _ _ _ Hlm2 Hm2 Hn).
  rewrite (where_from_take_S _ _ _ _ Hm), fmap_app.
  unfold expected_acv. rewrite Ed1, Ed2, E1, E2. unfold np.where1, np.flatnonzero.
  assert (x1 = 1%Z ->
          np.slice (concat (block (rows V) (active_mask mat ii) ns
                              <$> np.where_from 0 (np.eq1 c1)))
            (msum (take jj (np.eq1 c1)) (take jj ns))
            (msum (take jj (np.eq1 c1)) (take jj ns) + n) =
          block (rows V) (active_mask mat ii) ns jj) as Hs1.
  { intros Hd1. rewrite bool_decide_eq_true_2 in Hm1 by done.
    apply slice_concat_where; try done.
    intros j n'. rewrite <- E1. apply HB. by left. }
  assert (x2 = 1%Z ->
          np.slice (concat (block (rows V) (active_mask mat ii) ns
                              <$> np.where_from 0 (np.eq1 c2)))
            (msum (take jj (np.eq1 c2)) (take jj ns))
            (msum (take jj (np.eq1 c2)) (take jj ns) + n) =
          block (rows V) (active_mask mat ii) ns jj) as Hs2.
  { intros Hd2. rewrite bool_decide_eq_true_2 in Hm2 by done.
    apply slice_concat_where; try done.
    intros j n'. rewrite <- E2. apply HB. by right. }
  destruct (decide (x1 = 1%Z)) as [Hd1|Hd1];
    destruct (decide (x2 = 1%Z)) as [Hd2|Hd2]; comb_step;
    rewrite ?(bool_decide_eq_true_2 _ Hd1), ?(bool_decide_eq_false_2 _ Hd1),
            ?(bool_decide_eq_true_2 _ Hd2), ?(bool_decide_eq_false_2 _ Hd2);
    rewrite ?Hs1, ?Hs2 by done; simpl; by rewrite ?app_nil_r, ?Nat.add_0_r.
Qed.

Lemma array2d_eta (V : array2d) : {| ncols := ncols V; rows := rows V |} = V.
Proof. by destruct V. Qed.

Lemma concat_blocks_all {A} (V : list A) (mask : list bool) (ns : list nat) :
  length mask = length ns -> length V = msum mask ns ->
  concat (block V mask ns <$> np.flatnonzero mask) = V.
Proof.
  intros Hl HV. unfold np.flatnonzero.
  rewrite <- (take_ge mask (length ns)) at 2 by lia.
  rewrite concat_blocks_take by lia.
  rewrite (take_ge mask), (take_ge ns) by lia. apply take_ge. lia.
Qed.

Lemma combine_model_spec M mat ns acv ii V :
  allocation_ok M mat -> length ns = M -> 1 <= ii < M ->
  acv !! ii = Some (PyList [Arr2 (expected_acv mat ns V (2 * ii));
                            Arr2 (expected_acv mat ns V (2 * ii + 1))]) ->
  length (rows V) = msum (active_mask mat ii) ns ->
  (s ← for_each (combine_step mat ns acv ii) (range 0 M)
         {| c_lb := 0; c_lb2 := 0; pieces := [] |};
   Arr2 <$> vstack (pieces s)) = Some (Arr2 V).
Proof.
  intros Hok Hns Hii Hacv HV.
  destruct (for_each_range (combine_step mat ns acv ii)
              (fun jj s => s = combine_state_at mat ns ii V jj) 0 M
              {| c_lb := 0; c_lb2 := 0; pieces := [] |}) as (s & -> & ->);
    [lia| | |].
  - unfold combine_state_at. by rewrite !take_0.
  - intros jj s Hjj ->. eexists. split; [|done].
    apply (combine_step_spec M); (done || lia).
  - pose proof (active_mask_length M mat ii Hok ltac:(lia)) as Hml.
    cbn [mbind option_bind]. unfold combine_state_at. cbn [pieces].
    rewrite (take_ge (active_mask mat ii)) by lia.
    rewrite (list_fmap_compose (block (rows V) (active_mask mat ii) ns)
               (fun B => Arr2 {| ncols := ncols V; rows := B |})).
    rewrite vstack_blocks.
    + simpl. rewrite concat_blocks_all by (done || lia).
      by rewrite array2d_eta.
    + (* the plain subset of the model is not empty *)
      pose proof Hok as (_ & _ & _ & _ & Hne).
      specialize (Hne (2 * ii + 1) ltac:(lia)).
      destruct (np.where1 (mat !!! (2 * ii + 1))) as [|k l] eqn:E; [done|].
      assert (k ∈ np.flatnonzero (active_mask mat ii)) as Hk.
      { apply elem_of_where_from. split; [lia|]. rewrite Nat.sub_0_r.
        apply (column_in_active_mask M mat ii (2 * ii + 1));
          [done|lia|by right|].
        assert (k ∈ np.where1 (mat !!! (2 * ii + 1))) as Hk
          by (rewrite E; by left).
        apply elem_of_where_from in Hk as [_ Hk].
        by rewrite Nat.sub_0_r in Hk. }
      intros E'. apply fmap_nil_inv in E'. rewrite E' in Hk.
      by apply elem_of_nil in Hk.
Qed.

Lemma lor_false_l n (b : list bool) :
  length b = n -> np.lor (replicate n false) b = b.
Proof.
  intros <-. unfold np.lor. induction b as [|x b IH]; simpl; [done|].
  by rewrite IH.
Qed.

Lemma active_mask_0 M mat :
  allocation_ok M mat -> 1 <= M ->
  active_mask mat 0 = np.eq1 (mat !!! 1).
Proof.
  intros (_ & _ & H0 & H1 & _) HM. unfold active_mask.
  change (2 * 0) with 0. change (0 + 1) with 1.
  rewrite (list_lookup_total_correct _ _ _ H0).
  rewrite eq1_zeros. apply lor_false_l.
  rewrite eq1_length, (list_lookup_total_correct _ _ _ H1).
  apply unit_col_length. lia.
Qed.

Lemma fmap_lookup_total_range {A B} `{!Inhabited A} (f : A -> B) (l : list A) :
  1 <= length l ->
  f (l !!! 0) :: ((fun i => f (l !!! i)) <$> range 1 (length l)) = f <$> l.
Proof.
  intros Hl. apply list_eq. intros k. rewrite list_lookup_fmap.
  destruct (decide (k < length l)) as [Hk|Hk].
  - destruct (lookup_lt_is_Some_2 l k Hk) as [x Hx]. rewrite Hx. simpl.
    rewrite <- (list_lookup_total_correct _ _ _ Hx).
    destruct k as [|k]; [done|]. simpl.
    unfold range. rewrite list_lookup_fmap, lookup_seq_lt by lia. done.
  - rewrite (lookup_ge_None_2 l) by lia. simpl.
    apply lookup_ge_None_2. simpl. unfold range.
    rewrite length_fmap, length_seq. lia.
Qed.

Lemma combine_separate_spec M mat ns nspm values :
  allocation_ok M mat -> 1 <= M -> length ns = M ->
  _compute_nsamples_per_model M mat ns = Some nspm ->
  Forall2 (fun v n => length (rows v) = n) values nspm ->
  _combine_acv_values mat ns
    (pair_up ((fun c => expected_acv mat ns (values !!! (c / 2)) c)
                <$> range 0 (2 * M))) =
  Some (Arr2 <$> values).
Proof.
  intros Hok HM Hns Hc Hvals.
  set (acv := (fun c => expected_acv mat ns (values !!! (c / 2)) c)
                <$> range 0 (2 * M)).
  assert (length nspm = M) as Hlm.
  { apply length_mapM in Hc. unfold range in Hc.
    rewrite length_seq in Hc. lia. }
  assert (length values = M) as Hlv
    by (apply Forall2_length in Hvals; lia).
  assert (forall ii, ii < M ->
            length (rows (values !!! ii)) = msum (active_mask mat ii) ns) as HV.
  { intros ii Hii.
    destruct (lookup_lt_is_Some_2 values ii) as [V HVi]; [lia|].
    rewrite (list_lookup_total_correct _ _ _ HVi).
    destruct (Forall2_lookup_l _ _ _ _ _ Hvals HVi) as (n & Hn & <-).
    rewrite (nsamples_per_model_lookup M mat ns nspm ii) in Hn by done.
    by simplify_eq. }
  assert (length acv = 2 * M) as Hla.
  { unfold acv, range. rewrite length_fmap, length_seq. lia. }
  assert (forall c, c < 2 * M ->
            acv !! c = Some (expected_acv mat ns (values !!! (c / 2)) c)) as Hacv.
  { intros c Hc'. unfold acv, range.
    rewrite list_lookup_fmap, lookup_seq_lt by lia. done. }
  assert (forall ii, ii < M ->
            pair_up acv !! ii =
            Some (PyList [Arr2 (expected_acv mat ns (values !!! ii) (2 * ii));
                          Arr2 (expected_acv mat ns (values !!! ii) (2 * ii + 1))]))
    as Hpair.
  { intros ii Hii. apply pair_up_lookup.
    - rewrite Hacv by lia. by replace (2 * ii / 2) with ii by lia.
    - rewrite Hacv by lia. by replace ((2 * ii + 1) / 2) with ii by lia. }
  unfold _combine_acv_values. rewrite (pair_up_length acv M Hla).
  rewrite (Hpair 0) by lia. cbn [mbind option_bind getitem lookup list_lookup].
  rewrite (mapM_fmap_elem _ (fun ii => Arr2 (values !!! ii))).
  - cbn [mbind option_bind]. f_equal.
    rewrite <- (fmap_lookup_total_range Arr2 values) by lia.
    rewrite Hlv. f_equal.
    (* model 0: its plain subset is all of its values *)
    unfold expected_acv. change ((2 * 0 + 1) / 2) with 0.
    change (2 * 0 + 1) with 1. unfold np.where1.
    rewrite <- (active_mask_0 M mat Hok HM).
    rewrite concat_blocks_all.
    + by rewrite array2d_eta.
    + rewrite (active_mask_length M) by (done || lia). lia.
    + apply HV. lia.
  - intros ii Hii. apply elem_of_seq in Hii.
    apply (combine_model_spec M); try (done || lia).
    + apply Hpair. lia.
    + apply HV. lia.
Qed.

Lemma nsamples_per_model_total M mat (ns : list nat) :
  allocation_ok M mat -> length ns = M ->
  _compute_nsamples_per_model M mat ns =
  Some ((fun ii => msum (active_mask mat ii) ns) <$> range 0 M).
Proof.
  intros Hok Hns. unfold _compute_nsamples_per_model.
  apply mapM_fmap_elem. intros ii Hii. apply elem_of_seq in Hii.
  apply (single_model_nsamples M); (done || lia).
Qed.

(** C2, as stated, fails: [_separate_values_per_model] returns one flat
    list of [2M] arrays, [_combine_acv_values] subscripts its argument as a
    list of [M] pairs, so on the output as it is the first subscript
    [acv_values[0][1]] asks the empty first array for its row 1 and raises
    [IndexError]. *)
Lemma combine_rejects_the_flat_list :
  let mat := [[0; 0]; [1; 0]; [1; 0]; [1; 1]]%Z in
  let values := [ {| ncols := 1; rows := [[5]; [6]]%Z |};
                  {| ncols := 1; rows := [[7]; [8]; [9]]%Z |} ] in
  _get_allocation_matrix_gmf [0]%Z = Some mat /\
  _compute_nsamples_per_model 2 mat [2; 1] = Some [2; 3] /\
  exists acv,
    fst <$> _separate_values_per_model 2 mat [2; 1] [2; 3] values false
              (fun k => k) = Some acv /\
    _combine_acv_values mat [2; 1] (PyArray <$> (Arr2 <$> acv)) = None /\
    _combine_acv_values mat [2; 1] (PyArray <$> (Arr2 <$> acv))
      <> Some (Arr2 <$> values).
Proof.
  cbv zeta. split; [reflexivity|]. split; [reflexivity|].
  eexists. split; [vm_compute; reflexivity|].
  split; [vm_compute; reflexivity|vm_compute; discriminate].
Qed.

(** C2, amended. For every allocation matrix of a policy builder and
    every vector of integer partition counts, with the per-model sample
    counts derived from them: the per-model value arrays separate into
    their acv subsets, and [_combine_acv_values] applied to the subsets
    grouped per model, [[acv[2m], acv[2m+1]]], returns for every model
    exactly its input array, rows in their order. *)
Theorem combine_inverts_separate (p : policy) (recursion_index : list Z)
    (npartition_samples : list nat) :
  valid_recursion_index recursion_index ->
  length npartition_samples = length recursion_index + 1 ->
  exists mat nsamples_per_model,
    _create_allocation_matrix p recursion_index = Some mat /\
    _compute_nsamples_per_model (length recursion_index + 1) mat
      npartition_samples = Some nsamples_per_model /\
    forall (values_per_model : list array2d) (g : np.rng),
      Forall2 (fun v n => length (rows v) = n)
              values_per_model nsamples_per_model ->
      exists acv_values,
        _separate_values_per_model (length recursion_index + 1) mat
          npartition_samples nsamples_per_model values_per_model false g =
        Some (acv_values, g) /\
        _combine_acv_values mat npartition_samples (pair_up acv_values) =
        Some (Arr2 <$> values_per_model).
Proof.
  intros Hv Hns.
  destruct (policy_allocation_ok p recursion_index Hv) as (mat & Hmat & Hok).
  pose proof (nsamples_per_model_total _ mat npartition_samples Hok Hns) as Hc.
  eexists mat, _. split; [done|]. split; [exact Hc|].
  intros values g Hvals. eexists. split.
  - apply (separate_spec _ mat); (done || lia).
  - eapply (combine_separate_spec _ mat npartition_samples);
      first [exact Hok | exact Hc | exact Hvals | lia].
Qed.

Lemma combine_inverts_separate_witness :
  valid_recursion_index [0; 1]%Z /\
  length [2; 1; 3] = length [0; 1]%Z + 1 /\
  exists mat nsamples_per_model,
    _create_allocation_matrix GIS [0; 1]%Z = Some mat /\
    _compute_nsamples_per_model 3 mat [2; 1; 3] = Some nsamples_per_model /\
    forall (values_per_model : list array2d) (g : np.rng),
      Forall2 (fun v n => length (rows v) = n)
              values_per_model nsamples_per_model ->
      exists acv_values,
        _separate_values_per_model 3 mat [2; 1; 3] nsamples_per_model
          values_per_model false g = Some (acv_values, g) /\
        _combine_acv_values mat [2; 1; 3] (pair_up acv_values) =
        Some (Arr2 <$> values_per_model).
Proof.
  assert (valid_recursion_index [0; 1]%Z) as Hv.
  { unfold valid_recursion_index. repeat constructor; simpl; lia. }
  split; [exact Hv|]. split; [reflexivity|].
  exact (combine_inverts_separate GIS [0; 1]%Z [2; 1; 3] Hv eq_refl).
Defined.

(** Two models, two samples in partition 0 and one in partition 1: the
    three rows of the low-fidelity model come back in their order. *)
Example combine_separate_two_models :
  let mat := [[0; 0]; [1; 0]; [1; 0]; [1; 1]]%Z in
  let values := [ {| ncols := 1; rows := [[5]; [6]]%Z |};
                  {| ncols := 1; rows := [[7]; [8]; [9]]%Z |} ] in
  exists acv_values,
    fst <$> _separate_values_per_model 2 mat [2; 1] [2; 3] values false
              (fun k => k) = Some acv_values /\
    _combine_acv_values mat [2; 1] (pair_up acv_values) =
    Some (Arr2 <$> values).
Proof. eexists. split; [vm_compute; reflexivity|]. vm_compute. reflexivity. Qed.

(** ** Sums of rationals *)

Open Scope Q_scope.

Ltac qsum := cbn [np.sum foldr num_add num_zero Q_num zip_with fmap list_fmap].

Lemma Qsum_cons (x : Q) l : np.sum (x :: l) = x + np.sum l.
Proof. done. Qed.

Lemma Qsum_scale (l : list Q) c :
  np.sum ((fun r => r * c) <$> l) == np.sum l * c.
Proof.
  induction l as [|x l IH]; qsum; [ring|].
  change (foldr Qplus 0 ((fun r => r * c) <$> l))
    with (np.sum ((fun r => r * c) <$> l)).
  rewrite IH. change (foldr Qplus 0 l) with (np.sum l). ring.
Qed.

Lemma Qsum_nonneg (l : list Q) : Forall (fun x => 0 <= x) l -> 0 <= np.sum l.
Proof.
  induction 1 as [|x l Hx _ IH]; [done|].
  rewrite Qsum_cons. lra.
Qed.

Lemma mfilter_fmap {A B} (f : A -> B) mask (l : list A) :
  mfilter mask (f <$> l) = f <$> mfilter mask l.
Proof.
  revert l; induction mask as [|b mask IH]; intros [|x l]; simpl; try done.
  rewrite IH. by destruct b.
Qed.

Lemma Forall_mfilter {A} (P : A -> Prop) mask (l : list A) :
  Forall P l -> Forall P (mfilter mask l).
Proof.
  intros H. revert mask. induction H as [|x l Hx _ IH]; intros [|b mask];
    simpl; try done.
  destruct b; auto.
Qed.

Lemma mfilter_false {A} n (l : list A) : mfilter (replicate n false) l = [].
Proof. revert l; induction n as [|n IH]; intros [|x l]; simpl; auto. Qed.

Lemma weighted_sum_scale (xs ys cs : list Q) c :
  Forall2 (fun x y => x == y * c) xs ys ->
  np.sum (zip_with Qmult xs cs) == c * np.sum (zip_with Qmult ys cs).
Proof.
  intros H. revert cs. induction H as [|x y xs ys Hxy _ IH]; intros [|k cs];
    qsum; try ring.
  change (foldr Qplus 0 (zip_with Qmult xs cs))
    with (np.sum (zip_with Qmult xs cs)).
  change (foldr Qplus 0 (zip_with Qmult ys cs))
    with (np.sum (zip_with Qmult ys cs)).
  rewrite IH, Hxy. ring.
Qed.

Lemma weighted_sum_nonneg (xs cs : list Q) :
  Forall (fun x => 0 <= x) xs -> Forall (fun c => 0 < c) cs ->
  0 <= np.sum (zip_with Qmult xs cs).
Proof.
  intros Hx. revert cs. induction Hx as [|x xs Hx0 _ IH]; intros cs Hc.
  - done.
  - destruct Hc as [|k cs Hk Hc]; [done|]. simpl zip_with.
    rewrite Qsum_cons. specialize (IH cs Hc).
    assert (0 <= x * k) by (apply Qmult_le_0_compat; lra). lra.
Qed.

Lemma Forall2_fmap_same {A B C} (R : B -> C -> Prop) (f : A -> B) (g : A -> C) l :
  (forall x, x ∈ l -> R (f x) (g x)) -> Forall2 R (f <$> l) (g <$> l).
Proof.
  induction l as [|x l IH]; intros H; simpl; constructor.
  - apply H. by left.
  - apply IH. intros y Hy. apply H. by right.
Qed.

Close Scope Q_scope.

Lemma range_cons a b : a < b -> range a b = a :: range (S a) b.
Proof.
  intros H. unfold range. replace (b - a) with (S (b - S a)) by lia. done.
Qed.

(** ** Model ratios and the number of high-fidelity samples *)

Lemma lor_drop n (a b : list bool) :
  drop n (np.lor a b) = np.lor (drop n a) (drop n b).
Proof.
  unfold np.lor. revert a b; induction n as [|n IH]; intros a b; [done|].
  destruct a as [|x a], b as [|y b]; simpl; try done.
  by destruct (drop n a).
Qed.

Lemma eq1_drop n col : drop n (np.eq1 col) = np.eq1 (drop n col).
Proof. unfold np.eq1. by rewrite fmap_drop. Qed.

(** *** In every arithmetic *)

Section RatiosProofs.

Context {R : Type} `{Arith R}.

Lemma mul_same_length (a b : list R) :
  length a = length b -> np.mul a b = Some (zip_with r_mul a b).
Proof. intros E. unfold np.mul. by rewrite decide_True. Qed.

Lemma model_ratio_step_spec M mat (ratios arr : list R) m :
  allocation_ok M mat -> length ratios = M - 1 -> 1 <= m < M ->
  model_ratio_step mat ratios arr m =
  py_setitem arr (m - 1) (model_ratio mat ratios m).
Proof.
  intros (Hlen & Hcols & _) Hr Hm.
  destruct (lookup_lt_is_Some_2 mat (2 * m)) as [c1 Hc1]; [lia|].
  destruct (lookup_lt_is_Some_2 mat (2 * m + 1)) as [c2 Hc2]; [lia|].
  pose proof (Hcols _ _ Hc1) as Hl1. pose proof (Hcols _ _ Hc2) as Hl2.
  destruct (lookup_lt_is_Some_2 c1 0) as [e1 He1]; [lia|].
  destruct (lookup_lt_is_Some_2 c2 0) as [e2 He2]; [lia|].
  unfold model_ratio_step, model_ratio, active_mask.
  rewrite Hc1, Hc2. cbn [mbind option_bind].
  rewrite (list_lookup_total_correct _ _ _ Hc1).
  rewrite (list_lookup_total_correct _ _ _ Hc2).
  rewrite lor_drop, !eq1_drop. unfold np.flatnonzero.
  rewrite take_rows_where
    by (rewrite lor_length, eq1_length, ?length_drop;
        rewrite ?eq1_length, ?length_drop; lia).
  cbn [mbind option_bind]. rewrite He1, He2. cbn [mbind option_bind].
  rewrite drop_0. f_equal.
  unfold np.lor. rewrite lookup_zip_with.
  rewrite (eq1_lookup _ _ _ He1), (eq1_lookup _ _ _ He2). simpl.
  destruct (decide (e1 = 1%Z)) as [H1|H1], (decide (e2 = 1%Z)) as [H2|H2];
    rewrite ?(bool_decide_eq_true_2 _ H1), ?(bool_decide_eq_false_2 _ H1),
            ?(bool_decide_eq_true_2 _ H2), ?(bool_decide_eq_false_2 _ H2);
    simpl; repeat case_decide; try done; try tauto.
Qed.

Lemma model_ratios_closed M mat (ratios : list R) :
  allocation_ok M mat -> length ratios = M - 1 -> 1 <= M ->
  _partition_ratios_to_model_ratios M mat ratios =
  Some (model_ratio mat ratios <$> range 1 M).
Proof.
  intros Hok Hr HM. unfold _partition_ratios_to_model_ratios.
  destruct (for_each_range (model_ratio_step mat ratios)
              (fun k arr => arr = (model_ratio mat ratios <$> range 1 k) ++
                                  replicate (M - k) r_zero) 1 M
              (replicate (length ratios) r_zero)) as (arr & -> & ->);
    [lia| | |].
  - rewrite range_empty, Hr. done.
  - intros k arr Hk ->. rewrite (model_ratio_step_spec M) by (done || lia).
    assert (length (model_ratio mat ratios <$> range 1 k) = k - 1) as Hlk.
    { unfold range. by rewrite length_fmap, length_seq. }
    rewrite py_setitem_lt by (rewrite length_app, length_replicate; lia).
    eexists. split; [done|].
    rewrite insert_app_r_alt by lia. rewrite Hlk, Nat.sub_diag.
    replace (M - k) with (S (M - S k)) by lia. simpl.
    rewrite range_snoc, fmap_app, <- app_assoc by lia. done.
  - by rewrite Nat.sub_diag, app_nil_r.
Qed.

Lemma model_ratios_lookup M mat (ratios : list R) m :
  1 <= m < M ->
  (model_ratio mat ratios <$> range 1 M) !! (m - 1) =
  Some (model_ratio mat ratios m).
Proof.
  intros Hm. rewrite list_lookup_fmap. unfold range.
  rewrite lookup_seq_lt by lia. simpl. f_equal. f_equal. lia.
Qed.

(** The number of high-fidelity samples and the partition counts, as the
    arithmetic computes them. *)
Lemma hf_count_closed M mat (costs ratios : list R) target cost0 :
  allocation_ok M mat -> 1 <= M ->
  length costs = M -> length ratios = M - 1 ->
  costs !! 0 = Some cost0 ->
  let nhf :=
    r_div target
      (r_add cost0
         (r_sum (zip_with r_mul (model_ratio mat ratios <$> range 1 M)
                   (drop 1 costs)))) in
  _get_num_high_fidelity_samples_from_partition_ratios M mat costs target
    ratios = Some nhf /\
  _npartition_samples_from_partition_ratios M mat costs target ratios =
    Some (nhf :: ((fun r => r_mul r nhf) <$> ratios)).
Proof.
  intros Hok HM Hlc Hlr Hc0 nhf.
  assert (_get_num_high_fidelity_samples_from_partition_ratios M mat costs
            target ratios = Some nhf) as Hnhf.
  { unfold _get_num_high_fidelity_samples_from_partition_ratios.
    rewrite (model_ratios_closed M) by done. cbn [mbind option_bind].
    rewrite Hc0. cbn [mbind option_bind].
    rewrite mul_same_length; [done|].
    unfold range. rewrite length_fmap, length_seq, length_drop. lia. }
  split; [exact Hnhf|].
  unfold _npartition_samples_from_partition_ratios. by rewrite Hnhf.
Qed.

(** The cost of partition counts: every model costs the sum of the counts
    of its partitions times its cost. *)
Lemma estimator_cost_closed M mat (costs nps : list R) :
  allocation_ok M mat -> length costs = M -> length nps = M ->
  _estimator_cost M mat costs nps =
  Some (r_sum (zip_with r_mul
                 ((fun ii => r_sum (mfilter (active_mask mat ii) nps))
                    <$> range 0 M) costs)).
Proof.
  intros Hok Hlc Hln. unfold _estimator_cost.
  rewrite (nsamples_per_model_gen M) by done. cbn [mbind option_bind].
  rewrite mul_same_length; [done|].
  unfold range. rewrite length_fmap, length_seq. lia.
Qed.

(** [_round_partition_ratios] on the partition counts [nps] of the
    ratios. *)
Lemma round_partition_ratios_closed M mat (costs ratios nps : list R)
    target nhf :
  allocation_ok M mat -> length costs = M -> length nps = M ->
  _npartition_samples_from_partition_ratios M mat costs target ratios =
    Some nps ->
  nps !! 0 = Some nhf ->
  let counts := (fun x => r_floor (r_add x r_eps)) <$> nps in
  _compute_nsamples_per_model (H := int_sum) M mat counts =
    Some ((fun ii => int_sum (mfilter (active_mask mat ii) counts))
            <$> range 0 M) /\
  _round_partition_ratios M mat costs target ratios =
  if r_lt nhf (r_sub r_one r_eps)
  then Raise (RuntimeError "Rounding will cause nhf samples to be zero")
  else if decide (1 <= r_floor (r_add nhf r_eps))%Z
       then Ok ((fun n => r_div (r_of_int n)
                            (r_of_int (r_floor (r_add nhf r_eps))))
                  <$> drop 1 counts,
                r_sum (zip_with r_mul
                         (r_of_int
                            <$> ((fun ii =>
                                    int_sum (mfilter (active_mask mat ii)
                                               counts))
                                   <$> range 0 M)) costs))
       else Raise AssertionError.
Proof.
  intros Hok Hlc Hln Hnps Hnhf counts.
  assert (length counts = M) as Hlcounts
    by (unfold counts; by rewrite length_fmap).
  pose proof (nsamples_per_model_gen (H := int_sum) M mat counts Hok
                Hlcounts) as Hnspm.
  split; [exact Hnspm|].
  unfold _round_partition_ratios. rewrite Hnps.
  cbn [mbind result_bind lift]. rewrite Hnhf. cbn [mbind result_bind lift].
  destruct (r_lt nhf (r_sub r_one r_eps)); [done|].
  fold counts.
  assert (counts !! 0 = Some (r_floor (r_add nhf r_eps))) as ->
    by (unfold counts; by rewrite list_lookup_fmap, Hnhf).
  cbn [mbind result_bind lift].
  destruct (decide (1 <= r_floor (r_add nhf r_eps))%Z); [|done].
  rewrite Hnspm. cbn [mbind result_bind lift].
  rewrite mul_same_length; [done|].
  unfold range. rewrite !length_fmap, length_seq. lia.
Qed.

End RatiosProofs.

(** *** In exact arithmetic *)

Open Scope Q_scope.

Ltac exact_arith :=
  cbn [r_zero r_one r_eps r_add r_sub r_mul r_div r_lt r_sum r_of_int
       r_floor int_sum rationals array_sum arith_sum] in *.

Lemma model_ratio_nonneg mat (ratios : list Q) m :
  Forall (fun r => 0 < r) ratios -> 0 <= model_ratio mat ratios m.
Proof.
  intros Hr. unfold model_ratio. exact_arith.
  assert (0 <= np.sum (mfilter (drop 1 (active_mask mat m)) ratios)).
  { apply Qsum_nonneg, Forall_mfilter.
    eapply Forall_impl; [exact Hr|]. simpl. intros; lra. }
  case_decide; lra.
Qed.

Lemma model_count M mat (ratios : list Q) nhf m :
  allocation_ok M mat -> (m < M)%nat ->
  np.sum (mfilter (active_mask mat m)
            (nhf :: ((fun r => r * nhf) <$> ratios))) ==
  model_ratio mat ratios m * nhf.
Proof.
  intros Hok Hm. pose proof (active_mask_length M mat m Hok Hm) as Hl.
  unfold model_ratio. exact_arith.
  destruct (active_mask mat m) as [|b t]; [simpl in Hl; lia|].
  simpl. rewrite mfilter_fmap, ?drop_0.
  destruct b; case_decide; try done;
    rewrite ?Qsum_cons, Qsum_scale; ring.
Qed.

Lemma model_ratio_0 M mat (ratios : list Q) :
  allocation_ok M mat -> (1 <= M)%nat -> model_ratio mat ratios 0 == 1.
Proof.
  intros Hok HM. unfold model_ratio. exact_arith.
  rewrite (active_mask_0 M mat Hok HM).
  pose proof Hok as (_ & _ & _ & H1 & _).
  rewrite (list_lookup_total_correct _ _ _ H1), eq1_unit. simpl.
  rewrite drop_0, mfilter_false. done.
Qed.

(** With positive costs and ratios the number of high-fidelity samples
    divides by a positive number, and the counts cost the target cost. *)
Lemma hf_count_exact M mat (costs ratios : list Q) target :
  allocation_ok M mat -> (1 <= M)%nat ->
  length costs = M -> length ratios = (M - 1)%nat ->
  Forall (fun c => 0 < c) costs -> Forall (fun r => 0 < r) ratios ->
  exists cost0 W cost,
    costs !! 0%nat = Some cost0 /\ 0 < cost0 + W /\
    _npartition_samples_from_partition_ratios M mat costs target ratios =
      Some (target / (cost0 + W)
              :: ((fun r => r * (target / (cost0 + W))) <$> ratios)) /\
    _estimator_cost M mat costs
      (target / (cost0 + W)
         :: ((fun r => r * (target / (cost0 + W))) <$> ratios)) = Some cost /\
    cost == target.
Proof.
  intros Hok HM Hlc Hlr Hc Hr.
  destruct costs as [|c0 cs]; [simpl in Hlc; lia|].
  simpl in Hlc. apply Forall_cons in Hc as [Hc0 Hcs].
  set (mrs := model_ratio mat ratios <$> range 1 M).
  assert (length mrs = length cs) as Hlm.
  { unfold mrs, range. rewrite length_fmap, length_seq. lia. }
  set (W := np.sum (zip_with Qmult mrs cs)).
  assert (0 <= W) as HW.
  { apply weighted_sum_nonneg; [|done]. unfold mrs.
    apply Forall_fmap, Forall_forall. intros m _. simpl.
    by apply model_ratio_nonneg. }
  set (nhf := target / (c0 + W)).
  set (nps := nhf :: ((fun r => r * nhf) <$> ratios)).
  destruct (hf_count_closed M mat (c0 :: cs) ratios target c0)
    as [_ Hnps]; try (done || (simpl; lia)).
  exact_arith. change (drop 1 (c0 :: cs)) with cs in Hnps.
  fold mrs W nhf nps in Hnps.
  exists c0, W. eexists. split; [done|]. split; [lra|].
  split; [exact Hnps|]. fold nhf nps.
  rewrite (estimator_cost_closed M)
    by (done || (simpl; lia) || (unfold nps; simpl; rewrite length_fmap; lia)).
  split; [done|]. exact_arith.
  rewrite (range_cons 0 M) by lia.
  cbn [fmap list_fmap zip_with]. rewrite Qsum_cons.
  rewrite (weighted_sum_scale _ mrs cs nhf).
  - unfold nps. rewrite (model_count M) by (done || lia).
    rewrite (model_ratio_0 M) by done. fold W. unfold nhf. field. lra.
  - unfold mrs. apply Forall2_fmap_same. intros m Hm.
    apply elem_of_seq in Hm. unfold nps. apply (model_count M); (done || lia).
Qed.

Close Scope Q_scope.

(** *** The cost of the derived counts *)




(** ** Rounding the partition ratios *)

Lemma Qfloor_ge_1 (y : Q) : (1 <= y)%Q -> (1 <= Qfloor y)%Z.
Proof.
  intros H. change 1%Z with (Qfloor (inject_Z 1)).
  by apply Qfloor_resp_le.
Qed.

(** The tolerance keeps a count that is a little below an integer: in
    binary64 the count 3.999999999 of a single model is rounded to 4 and
    not to 3. *)
Example floor_with_tolerance :
  let x := b64.ratio 3999999999 1000000000 in
  exists mat,
    _create_allocation_matrix GMF [] = Some mat /\
    _npartition_samples_from_partition_ratios 1 mat [b64.of_int 1] x []
    = Some [x] /\
    b64.floor x = 3%Z /\
    _round_partition_ratios 1 mat [b64.of_int 1] x []
    = Ok ([], b64.of_int 4).
Proof.
  intros x. eexists. split; [vm_compute; reflexivity|].
  split; [vm_compute; reflexivity|].
  split; vm_compute; reflexivity.
Qed.



(** ** The constructor *)

Lemma zeros_valid n : valid_recursion_index (replicate n 0%Z).
Proof.
  unfold valid_recursion_index. apply Forall_replicate.
  rewrite length_replicate. lia.
Qed.

Lemma parent_zeros n ii : parent (replicate n 0%Z) ii = 0.
Proof.
  unfold parent. destruct (replicate n 0%Z !! (ii - 1)) as [r|] eqn:E; [|done].
  apply lookup_replicate in E as [-> _]. done.
Qed.

(** C10. An estimator of policy GMF, GIS or GRD constructed with neither
    a recursion index nor a tree depth gets the all-zeros recursion index
    of length M-1, in which every low-fidelity model has the high-fidelity
    model as its parent, and the allocation matrix built from that index. *)
Theorem default_recursion_index_is_zeros (p : policy) (costs : list Q)
    (cov_rows : nat) (allow_failures : bool) :
  1 <= length costs ->
  cov_rows mod length costs = 0 ->
  exists est mat,
    ACVEstimator_init p costs cov_rows None None allow_failures = Ok est /\
    _recursion_index est = Some (replicate (length costs - 1) 0%Z) /\
    (forall ii, parent (replicate (length costs - 1) 0%Z) ii = 0) /\
    _create_allocation_matrix p (replicate (length costs - 1) 0%Z) = Some mat /\
    _allocation_mat est = Some mat.
Proof.
  intros HM Hcov.
  destruct (policy_allocation_ok p (replicate (length costs - 1) 0%Z)
              (zeros_valid _)) as (mat & Hmat & _).
  unfold ACVEstimator_init, _check_cov.
  rewrite decide_False by lia. rewrite decide_False by lia.
  cbn [mbind result_bind fst snd].
  unfold _set_recursion_index. cbn [_nmodels est_policy].
  rewrite decide_False by lia.
  rewrite decide_False by (rewrite length_replicate; lia).
  rewrite Hmat. cbn [mbind result_bind lift].
  eexists _, mat. split; [done|]. cbn.
  split; [done|]. split; [apply parent_zeros|]. done.
Qed.

Lemma default_recursion_index_is_zeros_witness :
  1 <= length [1; 1 # 10; 1 # 100]%Q /\
  6 mod length [1; 1 # 10; 1 # 100]%Q = 0 /\
  exists est mat,
    ACVEstimator_init GIS [1; 1 # 10; 1 # 100]%Q 6 None None false = Ok est /\
    _recursion_index est = Some (replicate 2 0%Z) /\
    (forall ii, parent (replicate 2 0%Z) ii = 0) /\
    _create_allocation_matrix GIS (replicate 2 0%Z) = Some mat /\
    _allocation_mat est = Some mat.
Proof.
  split; [simpl; lia|]. split; [reflexivity|].
  apply (default_recursion_index_is_zeros GIS [1; 1 # 10; 1 # 100]%Q 6 false).
  - simpl; lia.
  - reflexivity.
Defined.

(** ** The sweep over the recursion indices *)

Section AllocationProofs.

Variable minimize : matrix -> list Q -> Q -> result OptimizeResult.
Variable criterion : matrix -> list Z -> result fval.
Variable _get_acv_recursion_indices : nat -> nat -> list (list Z).

Lemma set_recursion_index_spec est index est' :
  _set_recursion_index est (Some index) = Ok est' ->
  exists mat,
    _create_allocation_matrix (est_policy est) index = Some mat /\
    est' = set_allocation est mat index.
Proof.
  unfold _set_recursion_index.
  destruct (decide (_nmodels est = 0)); [done|].
  destruct (decide (length index <> _nmodels est - 1)); [done|].
  destruct (_create_allocation_matrix (est_policy est) index) as [mat|];
    [|done].
  cbn [lift mbind result_bind]. intros [= <-]. by exists mat.
Qed.

Lemma set_recursion_index_ok est index mat :
  _nmodels est <> 0 ->
  length index = _nmodels est - 1 ->
  _create_allocation_matrix (est_policy est) index = Some mat ->
  _set_recursion_index est (Some index) = Ok (set_allocation est mat index).
Proof.
  intros HM Hlen Hmat. unfold _set_recursion_index.
  rewrite decide_False by done. rewrite decide_False by lia.
  by rewrite Hmat.
Qed.

Lemma set_optimized_params_config est ratios target_cost :
  config (outcome_est (_set_optimized_params criterion est ratios target_cost))
  = config est.
Proof.
  unfold _set_optimized_params.
  destruct ratios as [ratios|]; [|done].
  destruct (_allocation_mat est) as [mat|]; [|done].
  destruct (_round_partition_ratios _ _ _ _ _) as [rounded|e]; [|done].
  cbn [_nmodels _costs set_rounded_partition_ratios].
  match goal with
  | |- context [match ?x with Some _ => _ | None => _ end] =>
      destruct x as [counts|]
  end; [|done].
  by destruct (criterion _ _).
Qed.

Lemma single_recursion_config est target_cost :
  config (outcome_est
            (_allocate_samples_for_single_recursion minimize criterion est
               target_cost))
  = config est.
Proof.
  unfold _allocate_samples_for_single_recursion.
  destruct (_allocate_samples _ _ _) as [opt|e]; [|done].
  apply set_optimized_params_config.
Qed.

Lemma sweep_body_config target_cost best est index :
  config (outcome_est (sweep_body minimize criterion target_cost best est index))
  = config est.
Proof.
  unfold sweep_body.
  destruct (_set_recursion_index est (Some index)) as [est1|e] eqn:Hset;
    [|done].
  apply set_recursion_index_spec in Hset as (mat & _ & ->).
  pose proof (single_recursion_config (set_allocation est mat index)
                target_cost) as Hcfg.
  destruct (_allocate_samples_for_single_recursion _ _ _ _) as [[] est2|e est2];
    cbn [outcome_est] in Hcfg.
  - destruct (_optimized_criteria est2) as [criteria|]; [|done].
    by destruct (fval_lt criteria best.1).
  - destruct e; try done.
    destruct (_allow_failures est2); [|done].
    cbn [negb _optimized_criteria set_optimized_criteria].
    by destruct (fval_lt PInf best.1).
Qed.

Lemma sweep_loop_config target_cost indices best est :
  config (outcome_est
            (sweep_loop minimize criterion target_cost indices best est))
  = config est.
Proof.
  revert best est. induction indices as [|index indices IH]; intros best est;
    [done|].
  cbn [sweep_loop].
  pose proof (sweep_body_config target_cost best est index) as Hcfg.
  destruct (sweep_body _ _ _ _ _ _) as [best' est'|e est']; [|done].
  rewrite IH. done.
Qed.

Lemma sweep_loop_app target_cost pre indices best est :
  sweep_loop minimize criterion target_cost (pre ++ indices) best est =
  match sweep_loop minimize criterion target_cost pre best est with
  | Done best' est' =>
      sweep_loop minimize criterion target_cost indices best' est'
  | Failed e est' => Failed e est'
  end.
Proof.
  revert best est. induction pre as [|index pre IH]; intros best est; [done|].
  cbn [app sweep_loop].
  destruct (sweep_body _ _ _ _ _ _) as [best' est'|e est']; [|done].
  apply IH.
Qed.

(** A failing solver makes the allocation for one recursion index raise a
    [RuntimeError], and leaves the estimator as it was. *)
Lemma single_recursion_solver_failure est mat target_cost :
  _allocation_mat est = Some mat ->
  (np.sum (_costs est) <= target_cost)%Q ->
  solver_fails minimize mat (_costs est) target_cost ->
  exists msg,
    _allocate_samples_for_single_recursion minimize criterion est target_cost
    = Failed (RuntimeError msg) est.
Proof.
  intros Hmat Hcost Hfail.
  unfold _allocate_samples_for_single_recursion, _allocate_samples,
    _allocate_samples_user_init_guess, _allocate_samples_opt.
  destruct (Qlt_le_dec target_cost (np.sum (_costs est))) as [Hlt|_].
  { exfalso. eapply Qlt_not_le; eauto. }
  rewrite Hmat. unfold solver_fails in Hfail.
  destruct (minimize mat (_costs est) target_cost) as [opt|e].
  - cbn [mbind result_bind]. rewrite Hfail. by eexists.
  - destruct e; try done. by eexists.
Qed.

Lemma fval_lt_PInf best : fval_lt PInf best = false.
Proof. by destruct best. Qed.

Lemma sweep_body_solver_failure est0 index mat target_cost best :
  _nmodels est0 <> 0 ->
  length index = _nmodels est0 - 1 ->
  _create_allocation_matrix (est_policy est0) index = Some mat ->
  (np.sum (_costs est0) <= target_cost)%Q ->
  solver_fails minimize mat (_costs est0) target_cost ->
  exists msg,
    sweep_body minimize criterion target_cost best est0 index =
    if _allow_failures est0
    then Done best (set_optimized_criteria (set_allocation est0 mat index) PInf)
    else Failed (RuntimeError msg) (set_allocation est0 mat index).
Proof.
  intros HM Hlen Hmat Hcost Hfail.
  destruct (single_recursion_solver_failure (set_allocation est0 mat index)
              mat target_cost) as [msg Hsingle]; [done..|].
  exists msg. unfold sweep_body.
  rewrite (set_recursion_index_ok _ _ mat) by done.
  rewrite Hsingle. cbn [_allow_failures set_allocation].
  destruct (_allow_failures est0); cbn [negb]; [|done].
  cbn [_optimized_criteria set_optimized_criteria].
  by rewrite fval_lt_PInf.
Qed.

(** C6. During the sweep over the recursion indices, a failure of the solver
    at an index that the loop reaches is handled according to
    [allow_failures]: when it is set, the criterion of that index is
    recorded as plus infinity, the best result so far is kept and the loop
    goes on with the remaining indices; when it is not set, the
    [RuntimeError] of that index is raised to the caller of the sweep.
    When the solver fails at every index and failures are allowed, the
    sweep raises the [RuntimeError] "No solutions were found". *)
Theorem sweep_tolerates_solver_failures est depth target_cost :
  _tree_depth est = Some depth ->
  _nmodels est <> 0 ->
  (np.sum (_costs est) <= target_cost)%Q ->
  let indices := _get_acv_recursion_indices (_nmodels est) depth in
  let fails index :=
    length index = _nmodels est - 1 /\
    exists mat,
      _create_allocation_matrix (est_policy est) index = Some mat /\
      solver_fails minimize mat (_costs est) target_cost in
  let sweep :=
    _allocate_samples_for_all_recursion_indices minimize criterion
      _get_acv_recursion_indices in
  (forall pre index rest best est0,
     indices = pre ++ index :: rest ->
     sweep_loop minimize criterion target_cost pre (PInf, None) est
     = Done best est0 ->
     fails index ->
     (_allow_failures est = true ->
      exists est1,
        sweep_body minimize criterion target_cost best est0 index
        = Done best est1 /\
        _optimized_criteria est1 = Some PInf /\
        sweep_loop minimize criterion target_cost indices (PInf, None) est
        = sweep_loop minimize criterion target_cost rest best est1) /\
     (_allow_failures est = false ->
      exists msg est1,
        sweep_body minimize criterion target_cost best est0 index
        = Failed (RuntimeError msg) est1 /\
        sweep est target_cost = Failed (RuntimeError msg) est1)) /\
  (_allow_failures est = true ->
   Forall fails indices ->
   exists est1,
     sweep est target_cost
     = Failed (RuntimeError "No solutions were found") est1).
Proof.
  intros Hdepth HM Hcost indices fails sweep. split.
  - intros pre index rest best est0 Hidx Hpre (Hlen & mat & Hmat & Hfail).
    pose proof (sweep_loop_config target_cost pre (PInf, None) est) as Hcfg.
    rewrite Hpre in Hcfg. cbn [outcome_est] in Hcfg.
    injection Hcfg as Hp Hn Hc _ Ha.
    destruct (sweep_body_solver_failure est0 index mat target_cost best)
      as [msg Hbody]; try congruence.
    rewrite Ha in Hbody.
    assert (sweep_loop minimize criterion target_cost indices (PInf, None) est
            = match sweep_body minimize criterion target_cost best est0 index
              with
              | Done best' est' =>
                  sweep_loop minimize criterion target_cost rest best' est'
              | Failed e est' => Failed e est'
              end) as Hloop.
    { rewrite Hidx, sweep_loop_app, Hpre. done. }
    split; intros Hallow; rewrite Hallow in Hbody.
    + eexists. split; [exact Hbody|]. split; [done|].
      by rewrite Hloop, Hbody.
    + exists msg. eexists. split; [exact Hbody|].
      unfold sweep, _allocate_samples_for_all_recursion_indices.
      rewrite Hdepth. fold indices. cbv zeta. by rewrite Hloop, Hbody.
  - intros Hallow Hall.
    assert (forall l est0,
              config est0 = config est -> Forall fails l ->
              exists est1,
                sweep_loop minimize criterion target_cost l (PInf, None) est0
                = Done (PInf, None) est1) as Hloop.
    { induction l as [|index l IH]; intros est0 Hcfg Hl.
      { by exists est0. }
      apply Forall_cons in Hl as [(Hlen & mat & Hmat & Hfail) Hl].
      injection Hcfg as Hp Hn Hc Hd Ha.
      destruct (sweep_body_solver_failure est0 index mat target_cost
                  (PInf, None)) as [msg Hbody]; try congruence.
      rewrite Ha, Hallow in Hbody.
      cbn [sweep_loop]. rewrite Hbody.
      apply IH; [|done]. unfold config. cbn. congruence. }
    destruct (Hloop indices est eq_refl Hall) as [est1 Hsweep].
    exists est1. unfold sweep, _allocate_samples_for_all_recursion_indices.
    rewrite Hdepth. fold indices. cbv zeta. by rewrite Hsweep.
Qed.

End AllocationProofs.

Lemma sweep_tolerates_solver_failures_witness :
  let est := three_model_estimator true in
  let criterion := fun (_ : matrix) (_ : list Z) => Ok PInf in
  let indices := fun (_ _ : nat) => [[0; 0]; [0; 1]]%Z in
  _tree_depth est = Some 2 /\
  _nmodels est <> 0 /\
  (np.sum (_costs est) <= 10)%Q /\
  (exists est1,
     sweep_body failing_minimize criterion 10 (PInf, None) est [0; 0]%Z
     = Done (PInf, None) est1 /\
     _optimized_criteria est1 = Some PInf /\
     sweep_loop failing_minimize criterion 10 (indices 3 2) (PInf, None) est
     = sweep_loop failing_minimize criterion 10 [[0; 1]%Z] (PInf, None) est1) /\
  (exists est1,
     _allocate_samples_for_all_recursion_indices failing_minimize criterion
       indices est 10
     = Failed (RuntimeError "No solutions were found") est1).
Proof.
  intros est criterion indices.
  assert (_tree_depth est = Some 2) as Hdepth by reflexivity.
  assert (_nmodels est <> 0) as HM by (simpl; lia).
  assert (np.sum (_costs est) <= 10)%Q as Hcost by (by vm_compute).
  assert (forall index mat,
            _create_allocation_matrix GMF index = Some mat ->
            length index = 2 ->
            length index = _nmodels est - 1 /\
            exists mat,
              _create_allocation_matrix (est_policy est) index = Some mat /\
              solver_fails failing_minimize mat (_costs est) 10) as Hfails.
  { intros index mat Hmat Hlen. split; [done|]. by exists mat. }
  destruct (sweep_tolerates_solver_failures failing_minimize criterion indices
              est 2 10 Hdepth HM Hcost) as [Hstep Hall].
  split; [done|]. split; [done|]. split; [done|]. split.
  - destruct (Hstep [] [0; 0]%Z [[0; 1]%Z] (PInf, None) est eq_refl eq_refl)
      as [Hallow _].
    { by eapply Hfails. }
    exact (Hallow eq_refl).
  - apply Hall; [reflexivity|].
    repeat constructor; by eapply Hfails.
Defined.

(** ** Model selection *)

Lemma isclose_zero a : np.isclose a 0 = true <-> a = 0%Z.
Proof. unfold np.isclose. rewrite Z.leb_le. lia. Qed.

Lemma isclose_small a b :
  (0 <= b < 100000)%Z -> np.isclose a b = true <-> a = b.
Proof. intros Hb. unfold np.isclose. rewrite Z.leb_le. lia. Qed.

Lemma allclose_zeros index :
  np.allclose index (np.zeros1 (length index)) = true <->
  index = np.zeros1 (length index).
Proof.
  unfold np.allclose, np.zeros1.
  induction index as [|a index IH]; [done|].
  cbn [length replicate zip zip_with forallb fst snd].
  rewrite andb_true_iff, isclose_zero, IH. split.
  - by intros [-> <-].
  - intros [= -> Heq]. by rewrite <- Heq.
Qed.

Lemma allclose_arange_from start index :
  (0 <= start)%Z ->
  (start + Z.of_nat (length index) <= 100000)%Z ->
  np.allclose index (np.arange_from start (length index)) = true <->
  index = np.arange_from start (length index).
Proof.
  unfold np.allclose. revert start.
  induction index as [|a index IH]; intros start H0 Hlen; [done|].
  cbn [length np.arange_from zip zip_with forallb fst snd] in *.
  rewrite andb_true_iff, isclose_small, IH by lia. split.
  - by intros [-> <-].
  - intros [= -> Heq]. by rewrite <- Heq.
Qed.

(** For a recursion index of at most one hundred thousand entries the
    validation is exact: the index is accepted, and truncated, when it is
    [0, 1, 2, ...] or all zeros, and refused otherwise, whatever the size of
    the subset. *)
Lemma validate_kwargs_upto_100000 index depth nsubset_lfmodels :
  (Z.of_nat (length index) <= 100000)%Z ->
  _validate_kwargs
    {| kw_recursion_index := Some index; kw_tree_depth := depth |}
    nsubset_lfmodels
  = if decide (index = np.arange (length index)
               \/ index = np.zeros1 (length index))
    then Ok {| kw_recursion_index := Some (take nsubset_lfmodels index);
               kw_tree_depth :=
                 (fun d => Nat.min d nsubset_lfmodels) <$> depth |}
    else Raise (ValueError model_selection_msg).
Proof.
  intros Hlen. unfold _validate_kwargs.
  cbn [kw_recursion_index kw_tree_depth].
  pose proof (allclose_arange_from 0 index ltac:(lia) ltac:(lia)) as Ha.
  pose proof (allclose_zeros index) as Hz.
  fold (np.arange (length index)) in Ha.
  destruct (np.allclose index (np.arange (length index)));
    destruct (np.allclose index (np.zeros1 (length index)));
    cbn [orb mbind result_bind];
    try (rewrite decide_True by (tauto);
         unfold np.slice; by rewrite Nat.sub_0_r, drop_0).
  rewrite decide_False; [done|].
  intros [H|H]; [apply Ha in H|apply Hz in H]; done.
Qed.

Example validate_kwargs_refuses :
  _validate_kwargs
    {| kw_recursion_index := Some [0; 0; 1]%Z; kw_tree_depth := None |} 2
  = Raise (ValueError model_selection_msg).
Proof. reflexivity. Qed.

(** C9. [BestEstimator._validate_kwargs] at the recursion index
    [0, 1, ..., 99999, 99999], which is neither [0, 1, 2, ...] nor all
    zeros: the comparison with [0, 1, 2, ...] is one within the tolerance of
    [np.allclose], so the index is accepted and truncated where the
    validation error was to be raised. *)
Theorem validate_kwargs_accepts_a_third_index :
  long_index <> np.arange (length long_index) /\
  long_index <> np.zeros1 (length long_index) /\
  _validate_kwargs
    {| kw_recursion_index := Some long_index; kw_tree_depth := None |} 2
  = Ok {| kw_recursion_index := Some [0; 1]%Z; kw_tree_depth := None |}.
Proof.
  split; [|split].
  - intros H. apply (f_equal (fun l => last l)) in H.
    vm_compute in H. discriminate.
  - intros H. apply (f_equal (fun l => last l)) in H.
    vm_compute in H. discriminate.
  - vm_compute. reflexivity.
Qed.

(** ** Control variate weights *)

Lemma dot_neg_l n u v :
  (torch.dot n (fun l => - u l) v == - torch.dot n u v)%Q.
Proof.
  unfold torch.dot. generalize (seq 0 n) as ls.
  induction ls as [|l ls IH]; [done|].
  rewrite !fmap_cons, !Qsum_cons, IH. ring.
Qed.

(** C3. For a discrepancy covariance pair [(CF, cf)] of [nstats] statistics
    and [M] models, where [torch.linalg.pinv] returns the Moore-Penrose
    pseudo-inverse [X] of [CF], the weights are returned, whether or not
    [CF] is invertible; they have the shape [(nstats, nstats*(M-1))] and are
    the transpose of [-X @ cf.T]. *)
Theorem weights_are_minus_pinv_CF_cf_T pinv nstats M CF cf X :
  torch.shape CF = (nstats * (M - 1), nstats * (M - 1)) ->
  torch.shape cf = (nstats, nstats * (M - 1)) ->
  pinv CF = Ok X ->
  torch.moore_penrose CF X ->
  exists W W',
    _weights pinv CF cf = Ok W /\
    torch.shape W = (nstats, nstats * (M - 1)) /\
    weights_spec pinv CF cf = Ok W' /\
    torch.tensor_eq W W' /\
    forall i j, i < nstats -> j < nstats * (M - 1) ->
      (torch.item W i j ==
       - torch.dot (nstats * (M - 1))
           (fun l => torch.item X j l) (fun l => torch.item cf i l))%Q.
Proof.
  intros HCF Hcf Hpinv (HX & _).
  rewrite HCF in HX. cbn [fst snd] in HX.
  unfold _weights, weights_spec, torch.multi_dot. rewrite Hpinv.
  cbn [mbind result_bind torch.neg torch.T torch.shape].
  rewrite HX, Hcf. cbn [fst snd].
  rewrite !decide_True by done. cbn [mbind result_bind].
  eexists _, _. split; [done|].
  split; [cbn [torch.neg torch.T torch.mm torch.shape fst snd];
          by rewrite Hcf, HX|].
  split; [done|].
  split.
  - split; [done|]. intros i j _ _.
    cbn [torch.neg torch.T torch.mm torch.item torch.shape fst snd].
    rewrite HX. cbn [snd]. symmetry. apply dot_neg_l.
  - intros i j _ _.
    cbn [torch.neg torch.T torch.mm torch.item torch.shape fst snd].
    by rewrite HX.
Qed.

Lemma weights_are_minus_pinv_CF_cf_T_witness :
  let CF := torch.as_tensor 2 2 [[2; 0]; [0; 0]]%Q in
  let cf := torch.as_tensor 1 2 [[1; 3]]%Q in
  exists X,
    torch.pinv_diag CF = Ok X /\
    torch.moore_penrose CF X /\
    exists W W',
      _weights torch.pinv_diag CF cf = Ok W /\
      torch.shape W = (1, 2) /\
      weights_spec torch.pinv_diag CF cf = Ok W' /\
      torch.tensor_eq W W' /\
      (torch.item W 0 0 == - (1 # 2))%Q /\
      (torch.item W 0 1 == 0)%Q.
Proof.
  intros CF cf. eexists. split; [reflexivity|].
  match goal with |- torch.moore_penrose _ ?x /\ _ => set (X := x) end.
  assert (torch.moore_penrose CF X) as HX.
  { split; [reflexivity|].
    repeat split; try reflexivity; cbn [torch.shape torch.mm torch.T fst snd];
      intros i j Hi Hj; vm_compute in Hi, Hj;
      destruct i as [|[|i]], j as [|[|j]]; try lia; vm_compute; reflexivity. }
  split; [exact HX|].
  destruct (weights_are_minus_pinv_CF_cf_T torch.pinv_diag 1 3 CF cf X
              eq_refl eq_refl eq_refl HX)
    as (W & W' & HW & Hshape & HW' & Heq & Hitem).
  exists W, W'.
  split; [exact HW|]. split; [exact Hshape|]. split; [exact HW'|].
  split; [exact Heq|].
  split.
  - rewrite (Hitem 0 0) by lia. vm_compute. reflexivity.
  - rewrite (Hitem 0 1) by lia. vm_compute. reflexivity.
Defined.

(** * Further properties of the module *)

(** ** The entries of the three allocation matrices *)

Lemma unit_col_lookup M k i :
  k < M -> i < M ->
  unit_col M k !! i = Some (if decide (i = k) then 1%Z else 0%Z).
Proof.
  intros Hk Hi. unfold unit_col.
  destruct (decide (i < k)).
  - rewrite lookup_app_l by (rewrite length_replicate; lia).
    rewrite lookup_replicate_2 by lia. by rewrite decide_False by lia.
  - rewrite lookup_app_r by (rewrite length_replicate; lia).
    rewrite length_replicate. case_decide as E.
    + subst. by rewrite Nat.sub_diag.
    + destruct (i - k) as [|j] eqn:Ej; [lia|]. simpl.
      by rewrite lookup_replicate_2 by lia.
Qed.

Lemma prefix_col_lookup M k i :
  k < M -> i < M ->
  prefix_col M k !! i = Some (if decide (i <= k) then 1%Z else 0%Z).
Proof.
  intros Hk Hi. unfold prefix_col. case_decide.
  - rewrite lookup_app_l by (rewrite length_replicate; lia).
    by rewrite lookup_replicate_2 by lia.
  - rewrite lookup_app_r by (rewrite length_replicate; lia).
    rewrite length_replicate. by rewrite lookup_replicate_2 by lia.
Qed.

Lemma entry_mat_of N f i c :
  c < N -> entry (mat_of N f) i c = default 0%Z (f c !! i).
Proof. intros Hc. unfold entry. by rewrite mat_of_lookup by done. Qed.

(** X1. The matrix of the GMF builder is nested: the plain set of model
    [m] holds the partitions [0..m], its starred set the partitions of the
    plain set of its parent, [0..parent(m)], and model 0 has no starred
    set. *)
Theorem gmf_sets_are_nested (recursion_index : list Z) :
  valid_recursion_index recursion_index ->
  exists mat,
    _get_allocation_matrix_gmf recursion_index = Some mat /\
    forall i m,
      i < length recursion_index + 1 -> m < length recursion_index + 1 ->
      entry mat i (2 * m + 1) = (if decide (i <= m) then 1%Z else 0%Z) /\
      entry mat i (2 * m) =
        (if decide (1 <= m /\ i <= parent recursion_index m) then 1%Z else 0%Z).
Proof.
  intros Hv. eexists. split; [by apply gmf_closed|].
  intros i m Hi Hm. pose proof (parent_lt recursion_index m Hv) as Hp.
  rewrite !entry_mat_of by lia. unfold col_gmf, col_mirror, col_init.
  replace ((2 * m + 1) mod 2) with 1 by lia.
  replace ((2 * m + 1) / 2) with m by lia.
  replace ((2 * m) mod 2) with 0 by lia.
  replace ((2 * m) / 2) with m by lia.
  split.
  - destruct (decide (m = 0)) as [->|].
    + rewrite decide_False by lia. rewrite decide_False by lia.
      rewrite decide_True by lia. rewrite unit_col_lookup by lia.
      simpl. repeat case_decide; try lia; done.
    + rewrite decide_True by lia. rewrite decide_True by lia.
      rewrite prefix_col_lookup by lia. done.
  - destruct (decide (m = 0)) as [->|].
    + rewrite decide_False by lia. rewrite decide_False by lia.
      rewrite decide_False by lia. rewrite lookup_replicate_2 by lia.
      by rewrite decide_False by lia.
    + rewrite decide_True by lia. rewrite decide_False by lia.
      rewrite prefix_col_lookup by lia. simpl.
      repeat case_decide; try lia; done.
Qed.

Lemma gmf_sets_are_nested_witness :
  valid_recursion_index [0; 1; 1]%Z /\
  exists mat,
    _get_allocation_matrix_gmf [0; 1; 1]%Z = Some mat /\
    forall i m,
      i < 4 -> m < 4 ->
      entry mat i (2 * m + 1) = (if decide (i <= m) then 1%Z else 0%Z) /\
      entry mat i (2 * m) =
        (if decide (1 <= m /\ i <= parent [0; 1; 1]%Z m) then 1%Z else 0%Z).
Proof.
  assert (valid_recursion_index [0; 1; 1]%Z) as Hv.
  { unfold valid_recursion_index. repeat constructor; simpl; lia. }
  split; [exact Hv|].
  exact (gmf_sets_are_nested [0; 1; 1]%Z Hv).
Defined.

(** X2. In the matrix of the GRD builder the plain set of model [m] is
    partition [m] alone and its starred set is the partition of its parent
    alone; model 0 has no starred set. *)
Theorem grd_sets_are_single_partitions (recursion_index : list Z) :
  valid_recursion_index recursion_index ->
  exists mat,
    _get_allocation_matrix_acvrd recursion_index = Some mat /\
    forall i m,
      i < length recursion_index + 1 -> m < length recursion_index + 1 ->
      entry mat i (2 * m + 1) = (if decide (i = m) then 1%Z else 0%Z) /\
      entry mat i (2 * m) =
        (if decide (1 <= m /\ i = parent recursion_index m)
         then 1%Z else 0%Z).
Proof.
  intros Hv. eexists. split; [by apply acvrd_closed|].
  intros i m Hi Hm. pose proof (parent_lt recursion_index m Hv) as Hp.
  rewrite !entry_mat_of by lia. unfold col_mirror, col_init.
  replace ((2 * m + 1) mod 2) with 1 by lia.
  replace ((2 * m + 1) / 2) with m by lia.
  replace ((2 * m) mod 2) with 0 by lia.
  replace ((2 * m) / 2) with m by lia.
  split.
  - rewrite decide_False by lia. rewrite decide_True by lia.
    by rewrite unit_col_lookup by lia.
  - destruct (decide (m = 0)) as [->|].
    + rewrite decide_False by lia. rewrite decide_False by lia.
      rewrite lookup_replicate_2 by lia. by rewrite decide_False by lia.
    + rewrite decide_True by lia. rewrite unit_col_lookup by lia. simpl.
      repeat case_decide; try lia; done.
Qed.

Lemma grd_sets_are_single_partitions_witness :
  valid_recursion_index [0; 0; 2]%Z /\
  exists mat,
    _get_allocation_matrix_acvrd [0; 0; 2]%Z = Some mat /\
    forall i m,
      i < 4 -> m < 4 ->
      entry mat i (2 * m + 1) = (if decide (i = m) then 1%Z else 0%Z) /\
      entry mat i (2 * m) =
        (if decide (1 <= m /\ i = parent [0; 0; 2]%Z m) then 1%Z else 0%Z).
Proof.
  assert (valid_recursion_index [0; 0; 2]%Z) as Hv.
  { unfold valid_recursion_index. repeat constructor; simpl; lia. }
  split; [exact Hv|].
  exact (grd_sets_are_single_partitions [0; 0; 2]%Z Hv).
Defined.

(** X3. In the matrix of the GIS builder the starred set of model [m >= 1]
    is the partition of its parent alone, and its plain set is its own
    partition together with that of its parent. *)
Theorem gis_plain_set_adds_own_partition (recursion_index : list Z) :
  valid_recursion_index recursion_index ->
  exists mat,
    _get_allocation_matrix_acvis recursion_index = Some mat /\
    forall i m,
      i < length recursion_index + 1 ->
      1 <= m < length recursion_index + 1 ->
      entry mat i (2 * m) =
        (if decide (i = parent recursion_index m) then 1%Z else 0%Z) /\
      entry mat i (2 * m + 1) =
        (if decide (i = m \/ i = parent recursion_index m)
         then 1%Z else 0%Z).
Proof.
  intros Hv. eexists. split; [by apply acvis_closed|].
  intros i m Hi Hm. pose proof (parent_lt recursion_index m Hv) as Hp.
  rewrite !entry_mat_of by lia. unfold col_acvis, col_mirror, col_init.
  replace (2 * m + 1 - 1) with (2 * m) by lia.
  replace ((2 * m + 1) mod 2) with 1 by lia.
  replace ((2 * m + 1) / 2) with m by lia.
  replace ((2 * m) mod 2) with 0 by lia.
  replace ((2 * m) / 2) with m by lia.
  split.
  - rewrite decide_False by lia. rewrite decide_True by lia.
    by rewrite unit_col_lookup by lia.
  - rewrite decide_True by lia. rewrite decide_True by lia.
    rewrite decide_False by lia. rewrite decide_True by lia.
    unfold np.maximum. rewrite lookup_zip_with.
    rewrite !unit_col_lookup by lia. simpl.
    repeat case_decide; try lia; done.
Qed.

Lemma gis_plain_set_adds_own_partition_witness :
  valid_recursion_index [0; 0; 2]%Z /\
  exists mat,
    _get_allocation_matrix_acvis [0; 0; 2]%Z = Some mat /\
    forall i m,
      i < 4 -> 1 <= m < 4 ->
      entry mat i (2 * m) =
        (if decide (i = parent [0; 0; 2]%Z m) then 1%Z else 0%Z) /\
      entry mat i (2 * m + 1) =
        (if decide (i = m \/ i = parent [0; 0; 2]%Z m) then 1%Z else 0%Z).
Proof.
  assert (valid_recursion_index [0; 0; 2]%Z) as Hv.
  { unfold valid_recursion_index. repeat constructor; simpl; lia. }
  split; [exact Hv|].
  exact (gis_plain_set_adds_own_partition [0; 0; 2]%Z Hv).
Defined.

(** ** Recursion indices out of range *)

Lemma for_each_fails {A St} (body : St -> A -> option St) xs x s :
  x ∈ xs -> (forall t, body t x = None) -> for_each body xs s = None.
Proof.
  intros Hx Hfail. revert s. induction xs as [|a xs IH]; intros s.
  { by apply elem_of_nil in Hx. }
  rewrite for_each_cons. apply elem_of_cons in Hx as [->|Hx].
  - by rewrite Hfail.
  - destruct (body s a) as [t|]; [|done]. simpl. by apply IH.
Qed.

Lemma for_each_ext {A St} (f g : St -> A -> option St) xs s :
  (forall t x, x ∈ xs -> f t x = g t x) ->
  for_each f xs s = for_each g xs s.
Proof.
  revert s. induction xs as [|a xs IH]; intros s Hfg; [done|].
  rewrite !for_each_cons, Hfg by left.
  destruct (g s a) as [t|]; [|done]. simpl. apply IH.
  intros t' x Hx. apply Hfg. by right.
Qed.

Lemma mirror_parents_out_of_range ri r mat :
  r ∈ ri ->
  ~ (- Z.of_nat (length ri + 1) <= r <= Z.of_nat (length ri))%Z ->
  mirror_parents (length ri + 1) ri mat = None.
Proof.
  intros Hr Hout. apply list_elem_of_lookup in Hr as [k Hk].
  pose proof (lookup_lt_Some _ _ _ Hk) as Hlt.
  unfold mirror_parents. apply (for_each_fails _ _ (S k)).
  - unfold range. apply elem_of_seq. lia.
  - intros t. unfold mirror_step.
    replace (S k - 1) with k by lia. rewrite Hk. simpl.
    unfold np.index. rewrite decide_False by lia.
    by rewrite decide_False by lia.
Qed.

(** X4. A recursion index with an entry above [M-1] or below [-M] makes
    each of the three builders raise: the column [2*r+1] it asks for does
    not exist. *)
Theorem builders_reject_entries_out_of_range (p : policy)
    (recursion_index : list Z) (r : Z) :
  r ∈ recursion_index ->
  ~ (- Z.of_nat (length recursion_index + 1) <= r
     <= Z.of_nat (length recursion_index))%Z ->
  _create_allocation_matrix p recursion_index = None.
Proof.
  intros Hr Hout.
  destruct p; unfold _create_allocation_matrix, _get_allocation_matrix_gmf,
    _get_allocation_matrix_acvis, _get_allocation_matrix_acvrd; cbv zeta;
    by rewrite (mirror_parents_out_of_range _ r).
Qed.

Lemma builders_reject_entries_out_of_range_witness :
  3%Z ∈ [0; 3]%Z /\
  ~ (- Z.of_nat (length [0; 3]%Z + 1) <= 3 <= Z.of_nat (length [0; 3]%Z))%Z /\
  _create_allocation_matrix GMF [0; 3]%Z = None.
Proof.
  assert (3%Z ∈ [0; 3]%Z) as Hin by (right; left).
  assert (~ (- Z.of_nat (length [0; 3]%Z + 1) <= 3
             <= Z.of_nat (length [0; 3]%Z))%Z) as Hout by (simpl; lia).
  split; [exact Hin|]. split; [exact Hout|].
  exact (builders_reject_entries_out_of_range GMF [0; 3]%Z 3 Hin Hout).
Defined.

Lemma mirror_parents_wrap ri mat :
  Forall (fun r => (- Z.of_nat (length ri + 1) <= r <= Z.of_nat (length ri))%Z)
         ri ->
  mirror_parents (length ri + 1) ri mat =
  mirror_parents (length ri + 1)
    ((fun r => (r mod Z.of_nat (length ri + 1))%Z) <$> ri) mat.
Proof.
  intros Hall. unfold mirror_parents. apply for_each_ext.
  intros t ii Hii. unfold range in Hii. apply elem_of_seq in Hii.
  unfold mirror_step. rewrite list_lookup_fmap.
  destruct (ri !! (ii - 1)) as [r|] eqn:Hr; [|done]. simpl.
  rewrite Forall_lookup in Hall. specialize (Hall _ _ Hr).
  replace (np.index (2 * (length ri + 1))
             (r mod Z.of_nat (length ri + 1) * 2 + 1)%Z)
    with (np.index (2 * (length ri + 1)) (r * 2 + 1)%Z); [done|].
  unfold np.index. destruct (decide (0 <= r)%Z).
  - by rewrite Z.mod_small by lia.
  - replace (r mod Z.of_nat (length ri + 1))%Z
      with (r + Z.of_nat (length ri + 1))%Z.
    2:{ apply Z.mod_unique with (q := (-1)%Z); lia. }
    rewrite (decide_False (P := (0 <= r * 2 + 1 < _)%Z)) by lia.
    rewrite decide_True by lia. rewrite decide_True by lia.
    f_equal. lia.
Qed.

(** X5. An entry [-k] of the recursion index, [1 <= k <= M], is not
    refused: it is read from the end, as model [M-k], and the builder
    returns the matrix of the recursion index with every entry reduced
    modulo [M]. *)
Theorem builders_read_negative_entries_from_the_end (p : policy)
    (recursion_index : list Z) :
  Forall (fun r => (- Z.of_nat (length recursion_index + 1) <= r
                    <= Z.of_nat (length recursion_index))%Z)
         recursion_index ->
  exists mat,
    _create_allocation_matrix p recursion_index = Some mat /\
    _create_allocation_matrix p
      ((fun r => (r mod Z.of_nat (length recursion_index + 1))%Z)
         <$> recursion_index) = Some mat.
Proof.
  intros Hall.
  set (ri' := (fun r => (r mod Z.of_nat (length recursion_index + 1))%Z)
                <$> recursion_index).
  assert (length ri' = length recursion_index) as Hlen
    by (unfold ri'; by rewrite length_fmap).
  assert (valid_recursion_index ri') as Hv.
  { unfold valid_recursion_index, ri'. rewrite Forall_fmap.
    rewrite length_fmap. apply Forall_forall. intros r _. simpl.
    pose proof (Z.mod_pos_bound r (Z.of_nat (length recursion_index + 1))).
    lia. }
  destruct (policy_allocation_ok p ri' Hv) as (mat & Hmat & _).
  exists mat. split; [|done]. rewrite <- Hmat.
  destruct p; unfold _create_allocation_matrix, _get_allocation_matrix_gmf,
    _get_allocation_matrix_acvis, _get_allocation_matrix_acvrd; cbv zeta;
    rewrite Hlen; by rewrite (mirror_parents_wrap recursion_index).
Qed.

Lemma builders_read_negative_entries_from_the_end_witness :
  Forall (fun r => (- Z.of_nat (length [0; -1]%Z + 1) <= r
                    <= Z.of_nat (length [0; -1]%Z))%Z) [0; -1]%Z /\
  exists mat,
    _create_allocation_matrix GRD [0; -1]%Z = Some mat /\
    _create_allocation_matrix GRD
      ((fun r => (r mod Z.of_nat (length [0; -1]%Z + 1))%Z) <$> [0; -1]%Z)
    = Some mat.
Proof.
  assert (Forall (fun r => (- Z.of_nat (length [0; -1]%Z + 1) <= r
                            <= Z.of_nat (length [0; -1]%Z))%Z) [0; -1]%Z)
    as Hall by (repeat constructor; simpl; lia).
  split; [exact Hall|].
  exact (builders_read_negative_entries_from_the_end GRD [0; -1]%Z Hall).
Defined.

(** ** Partition indices *)

Lemma concat_blocks_from acc ns :
  concat (blocks_from acc ns) = seq acc (np.sum ns).
Proof.
  revert acc. induction ns as [|n ns IH]; intros acc; [done|].
  cbn [blocks_from concat]. rewrite IH.
  change (np.sum (n :: ns)) with (n + np.sum ns). by rewrite seq_app.
Qed.

(** X6. The index arrays of the partitions tile the range of all
    independent samples: there is one array per partition, of the size of
    the partition, and laid end to end they are [0, 1, ..., N-1]. *)
Theorem partition_indices_tile_the_samples (npartition_samples : list nat) :
  npartition_samples <> [] ->
  length <$> _get_partition_indices npartition_samples = npartition_samples /\
  concat (_get_partition_indices npartition_samples) =
  seq 0 (np.sum npartition_samples).
Proof.
  intros Hne. rewrite partition_indices_blocks by done.
  split; [apply blocks_from_lengths|apply concat_blocks_from].
Qed.

Lemma partition_indices_tile_the_samples_witness :
  [2; 0; 3] <> [] /\
  length <$> _get_partition_indices [2; 0; 3] = [2; 0; 3] /\
  concat (_get_partition_indices [2; 0; 3]) = seq 0 (np.sum [2; 0; 3]).
Proof.
  assert ([2; 0; 3] <> []) as Hne by discriminate.
  split; [exact Hne|].
  exact (partition_indices_tile_the_samples [2; 0; 3] Hne).
Defined.

(** ** The index sets of the acv subsets stay inside their model *)

Lemma perm_fn_ok bootstrap ns rpi idx n :
  (bootstrap = true -> rpi_ok ns rpi) -> ns !! idx = Some n ->
  length (perm_fn bootstrap ns rpi idx) = n /\
  Forall (fun k => k < n) (perm_fn bootstrap ns rpi idx).
Proof.
  intros Hrpi Hn. unfold perm_fn.
  destruct (if bootstrap then mjoin (rpi !! idx) else None) as [perm|] eqn:E.
  - destruct bootstrap; [|done].
    destruct (rpi !! idx) as [[q|]|] eqn:E'; simplify_eq/=.
    destruct (Hrpi eq_refl) as [_ Hall].
    destruct (Hall _ _ E') as (n' & Hn' & ? & ?). by simplify_eq.
  - rewrite Hn. simpl. split; [apply length_seq|].
    apply Forall_seq. intros; lia.
Qed.

Lemma acv_subsets_lookup_all P M mat ns c :
  allocation_ok M mat -> 1 <= M -> c < 2 * M ->
  acv_subsets P mat ns M !! c = Some (acv_subset P mat ns (c / 2) c).
Proof.
  intros Hok HM Hc. destruct Hok as (Hlen & Hcols & H0 & H1 & Hne).
  destruct (decide (c = 0)) as [->|]; [|destruct (decide (c = 1)) as [->|]].
  - unfold acv_subsets, acv_subset. cbn [app lookup list_lookup].
    rewrite (list_lookup_total_correct _ _ _ H0), where1_zeros. done.
  - rewrite acv_subsets_lookup_1. unfold acv_subset.
    rewrite (list_lookup_total_correct _ _ _ H1), where1_unit.
    cbn [fmap list_fmap concat]. unfold offset.
    rewrite take_0, app_nil_r. f_equal. symmetry. apply fmap_add_0.
  - destruct (acv_subsets_lookup P mat ns M (c / 2)) as [He Ho]; [lia|].
    destruct (decide (c mod 2 = 0)).
    + replace c with (2 * (c / 2)) at 1 by lia.
      rewrite He. do 2 f_equal. lia.
    + replace c with (2 * (c / 2) + 1) at 1 by lia.
      rewrite Ho. do 2 f_equal. lia.
Qed.

Lemma acv_subset_in_bounds P M mat ns ii c :
  allocation_ok M mat -> length ns = M -> ii < M ->
  c = 2 * ii \/ c = 2 * ii + 1 ->
  (forall idx n, ns !! idx = Some n ->
     length (P idx) = n /\ Forall (fun k => k < n) (P idx)) ->
  Forall (fun k => k < msum (active_mask mat ii) ns)
         (acv_subset P mat ns ii c) /\
  length (acv_subset P mat ns ii c) = msum (np.eq1 (mat !!! c)) ns.
Proof.
  intros Hok Hns Hii Hc HP.
  pose proof (active_mask_length M mat ii Hok Hii) as Hml.
  assert (length (mat !!! c) = M) as Hcl
    by (apply (column_length M); [done|lia]).
  split.
  - unfold acv_subset. apply Forall_concat, Forall_fmap, Forall_forall.
    intros idx Hidx. simpl. unfold np.where1, np.flatnonzero in Hidx.
    apply elem_of_where_from in Hidx as [_ Hidx].
    rewrite Nat.sub_0_r in Hidx.
    pose proof (column_in_active_mask M mat ii c idx Hok Hii Hc Hidx) as Ha.
    destruct (ns !! idx) as [n|] eqn:Hn.
    2:{ apply lookup_ge_None in Hn. apply lookup_lt_Some in Ha. lia. }
    destruct (HP _ _ Hn) as [_ Hall].
    apply Forall_fmap. eapply Forall_impl; [exact Hall|].
    intros k Hk. simpl in *. unfold offset.
    pose proof (msum_take_le (active_mask mat ii) ns idx n
                  ltac:(lia) Ha Hn). lia.
  - unfold acv_subset, np.where1, np.flatnonzero.
    pose proof (length_concat_blocks
                  (fun idx => Nat.add (offset mat ns ii idx) <$> P idx)
                  (np.eq1 (mat !!! c)) ns (length ns)) as Hl.
    rewrite !firstn_all2 in Hl by (rewrite ?eq1_length; lia).
    apply Hl; [rewrite eq1_length; lia|lia|].
    intros j n _ Hn. rewrite length_fmap. by apply HP.
Qed.

(** X7. With or without bootstrapping, the index set of each acv subset
    stays inside the samples of its model: every index of the subsets of
    columns [2*ii] and [2*ii+1] is below the number of samples of model
    [ii], and the subset of column [c] has as many indices as the partitions
    of the column have samples.  So the subscripts of
    [_separate_values_per_model] cannot go out of bounds. *)
Theorem acv_subset_indices_stay_in_bounds (p : policy)
    (recursion_index : list Z) (npartition_samples : list nat)
    (bootstrap : bool) (g : np.rng) :
  valid_recursion_index recursion_index ->
  length npartition_samples = length recursion_index + 1 ->
  exists mat nsamples_per_model subsets g',
    _create_allocation_matrix p recursion_index = Some mat /\
    _compute_nsamples_per_model (length recursion_index + 1) mat
      npartition_samples = Some nsamples_per_model /\
    _get_partition_indices_per_acv_subset (length recursion_index + 1) mat
      npartition_samples bootstrap g = Some (subsets, g') /\
    length subsets = 2 * (length recursion_index + 1) /\
    forall c indices n,
      subsets !! c = Some indices ->
      nsamples_per_model !! (c / 2) = Some n ->
      Forall (fun k => k < n) indices /\
      length indices = msum (np.eq1 (mat !!! c)) npartition_samples.
Proof.
  intros Hv Hns.
  destruct (policy_allocation_ok p recursion_index Hv) as (mat & Hmat & Hok).
  destruct (acv_subset_indices_spec bootstrap _ mat npartition_samples g
              Hok Hns) as (rpi & g' & Hrun & Hrpi & _); [lia|].
  exists mat. eexists. eexists _, g'.
  split; [done|]. split; [by apply nsamples_per_model_total|].
  split; [exact Hrun|]. split; [apply acv_subsets_length; lia|].
  intros c indices n Hc Hn.
  assert (c < 2 * (length recursion_index + 1)) as Hlt.
  { apply lookup_lt_Some in Hc. rewrite acv_subsets_length in Hc; lia. }
  rewrite (acv_subsets_lookup_all _ (length recursion_index + 1)) in Hc
    by (done || lia).
  injection Hc as <-.
  rewrite list_lookup_fmap in Hn. unfold range in Hn.
  rewrite lookup_seq_lt in Hn by lia. simpl in Hn. injection Hn as <-.
  apply (acv_subset_in_bounds _ (length recursion_index + 1));
    [done|done|lia|lia|].
  intros idx n Hidx. by apply perm_fn_ok.
Qed.

Lemma acv_subset_indices_stay_in_bounds_witness :
  valid_recursion_index [0; 1]%Z /\
  length [2; 1; 3] = length [0; 1]%Z + 1 /\
  exists mat nsamples_per_model subsets g',
    _create_allocation_matrix GIS [0; 1]%Z = Some mat /\
    _compute_nsamples_per_model 3 mat [2; 1; 3] = Some nsamples_per_model /\
    _get_partition_indices_per_acv_subset 3 mat [2; 1; 3] true
      (fun k => 5 * k + 1) = Some (subsets, g') /\
    length subsets = 2 * 3 /\
    forall c indices n,
      subsets !! c = Some indices ->
      nsamples_per_model !! (c / 2) = Some n ->
      Forall (fun k => k < n) indices /\
      length indices = msum (np.eq1 (mat !!! c)) [2; 1; 3].
Proof.
  assert (valid_recursion_index [0; 1]%Z) as Hv.
  { unfold valid_recursion_index. repeat constructor; simpl; lia. }
  split; [exact Hv|]. split; [reflexivity|].
  exact (acv_subset_indices_stay_in_bounds GIS [0; 1]%Z [2; 1; 3] true
           (fun k => 5 * k + 1) Hv eq_refl).
Defined.

(** ** The number of samples of each model *)

Lemma eq1_prefix M k :
  np.eq1 (prefix_col M k) = replicate (S k) true ++ replicate (M - S k) false.
Proof. unfold prefix_col. by rewrite eq1_app, eq1_ones, eq1_zeros. Qed.

Lemma prefix_mask_lookup M k i :
  k < M -> i < M ->
  (replicate (S k) true ++ replicate (M - S k) false) !! i =
  Some (bool_decide (i <= k)).
Proof.
  intros Hk Hi. case_bool_decide.
  - rewrite lookup_app_l by (rewrite length_replicate; lia).
    by rewrite lookup_replicate_2 by lia.
  - rewrite lookup_app_r by (rewrite length_replicate; lia).
    rewrite length_replicate. by rewrite lookup_replicate_2 by lia.
Qed.

Lemma lor_prefix M a b :
  a < M -> b < M ->
  np.lor (np.eq1 (prefix_col M a)) (np.eq1 (prefix_col M b)) =
  np.eq1 (prefix_col M (a `max` b)).
Proof.
  intros Ha Hb. rewrite !eq1_prefix. apply list_eq. intros i.
  unfold np.lor. rewrite lookup_zip_with.
  destruct (decide (i < M)) as [Hi|Hi].
  - rewrite !prefix_mask_lookup by lia. simpl.
    repeat case_bool_decide; try lia; done.
  - rewrite !(lookup_ge_None_2 _ i);
      rewrite ?length_app, ?length_replicate; try lia. done.
Qed.

Lemma msum_prefix M k (ns : list nat) :
  k < M -> length ns = M ->
  msum (np.eq1 (prefix_col M k)) ns = np.sum (take (S k) ns).
Proof.
  intros Hk Hns. rewrite eq1_prefix.
  rewrite <- (take_drop (S k) ns) at 1.
  rewrite msum_app by (rewrite length_replicate, length_take; lia).
  unfold msum at 2. rewrite mfilter_false.
  assert (forall (l : list nat), mfilter (replicate (length l) true) l = l)
    as Htrue.
  { induction l as [|x l IH]; [done|]. simpl. unfold mfilter in *. simpl.
    by rewrite IH. }
  unfold msum. replace (S k) with (length (take (S k) ns)) at 1
    by (rewrite length_take; lia).
  rewrite Htrue. change (np.sum []) with 0. lia.
Qed.

(** X8. Under the GMF policy the samples of a model are cumulative: model 0
    has the samples of partition 0, and model [m >= 1] those of the
    partitions [0] to [max(m, parent(m))], so that with a recursion index
    whose parents precede their children model [m] has
    [n_0 + ... + n_m] samples. *)
Theorem gmf_model_counts_are_cumulative (recursion_index : list Z)
    (npartition_samples : list nat) :
  valid_recursion_index recursion_index ->
  length npartition_samples = length recursion_index + 1 ->
  exists mat nsamples_per_model,
    _get_allocation_matrix_gmf recursion_index = Some mat /\
    _compute_nsamples_per_model (length recursion_index + 1) mat
      npartition_samples = Some nsamples_per_model /\
    nsamples_per_model !! 0 = head npartition_samples /\
    forall m, 1 <= m < length recursion_index + 1 ->
      nsamples_per_model !! m =
      Some (np.sum (take (S (m `max` parent recursion_index m))
                      npartition_samples)).
Proof.
  intros Hv Hns.
  destruct (policy_allocation_ok GMF recursion_index Hv) as (mat & Hmat & Hok).
  exists mat. eexists. split; [exact Hmat|].
  split; [by apply nsamples_per_model_total|].
  simpl in Hmat. rewrite gmf_closed in Hmat by done. injection Hmat as <-.
  split.
  - rewrite list_lookup_fmap. unfold range.
    rewrite lookup_seq_lt by lia. simpl.
    rewrite (active_mask_0 (length recursion_index + 1)) by (done || lia).
    rewrite (list_lookup_total_correct _ _ (col_gmf recursion_index
               (2 * (length recursion_index + 1)) 1))
      by (apply mat_of_lookup; lia).
    replace (col_gmf recursion_index (2 * (length recursion_index + 1)) 1)
      with (prefix_col (length recursion_index + 1) 0) by col_cases.
    rewrite (msum_prefix (length recursion_index + 1)) by lia.
    destruct npartition_samples as [|n0 ns]; [simpl in Hns; lia|].
    simpl. change (np.sum [n0]) with (n0 + 0). f_equal. lia.
  - intros m Hm. pose proof (parent_lt recursion_index m Hv) as Hp.
    rewrite list_lookup_fmap. unfold range.
    rewrite lookup_seq_lt by lia. simpl. f_equal.
    unfold active_mask.
    rewrite (list_lookup_total_correct _ _ (col_gmf recursion_index
               (2 * (length recursion_index + 1)) (2 * m)))
      by (apply mat_of_lookup; lia).
    rewrite (list_lookup_total_correct _ _ (col_gmf recursion_index
               (2 * (length recursion_index + 1)) (2 * m + 1)))
      by (apply mat_of_lookup; lia).
    replace (col_gmf recursion_index (2 * (length recursion_index + 1)) (2 * m))
      with (prefix_col (length recursion_index + 1) (parent recursion_index m)).
    2:{ unfold col_gmf. rewrite decide_True by lia.
        rewrite decide_False by lia. do 2 f_equal. lia. }
    replace (col_gmf recursion_index (2 * (length recursion_index + 1))
               (2 * m + 1))
      with (prefix_col (length recursion_index + 1) m).
    2:{ unfold col_gmf. rewrite decide_True by lia.
        rewrite decide_True by lia. f_equal. lia. }
    rewrite lor_prefix by lia.
    rewrite (msum_prefix (length recursion_index + 1)) by lia.
    do 3 f_equal. lia.
Qed.

Lemma gmf_model_counts_are_cumulative_witness :
  valid_recursion_index [0; 1]%Z /\
  length [5; 2; 4] = length [0; 1]%Z + 1 /\
  exists mat nsamples_per_model,
    _get_allocation_matrix_gmf [0; 1]%Z = Some mat /\
    _compute_nsamples_per_model 3 mat [5; 2; 4] = Some nsamples_per_model /\
    nsamples_per_model !! 0 = head [5; 2; 4] /\
    forall m, 1 <= m < 3 ->
      nsamples_per_model !! m =
      Some (np.sum (take (S (m `max` parent [0; 1]%Z m)) [5; 2; 4])).
Proof.
  assert (valid_recursion_index [0; 1]%Z) as Hv.
  { unfold valid_recursion_index. repeat constructor; simpl; lia. }
  split; [exact Hv|]. split; [reflexivity|].
  exact (gmf_model_counts_are_cumulative [0; 1]%Z [5; 2; 4] Hv eq_refl).
Defined.

Lemma mat_of_lookup_total N f c : c < N -> mat_of N f !!! c = f c.
Proof.
  intros Hc. apply list_lookup_total_correct. by apply mat_of_lookup.
Qed.

Lemma unit_mask_lookup M k i :
  k < M -> i < M -> np.eq1 (unit_col M k) !! i = Some (bool_decide (i = k)).
Proof.
  intros Hk Hi. rewrite (eq1_lookup _ _ _ (unit_col_lookup M k i Hk Hi)).
  f_equal. case_decide.
  - by rewrite !bool_decide_eq_true_2 by done.
  - by rewrite !bool_decide_eq_false_2 by done.
Qed.

Lemma msum_unit M k (ns : list nat) n :
  k < M -> length ns = M -> ns !! k = Some n ->
  msum (np.eq1 (unit_col M k)) ns = n.
Proof.
  intros Hk Hns Hn. rewrite eq1_unit.
  rewrite <- (take_drop_middle ns k n Hn) at 1.
  rewrite msum_app by (rewrite length_replicate, length_take; lia).
  unfold msum. rewrite mfilter_false. unfold mfilter. simpl.
  fold (mfilter (replicate (M - S k) false) (drop (S k) ns)).
  rewrite mfilter_false. change (np.sum []) with 0.
  change (np.sum [n]) with (n + 0). lia.
Qed.

Lemma msum_lor_disjoint (a b : list bool) (ns : list nat) :
  length a = length ns -> length b = length ns ->
  (forall i, a !! i = Some true -> b !! i = Some true -> False) ->
  msum (np.lor a b) ns = msum a ns + msum b ns.
Proof.
  revert a b. induction ns as [|n ns IH]; intros [|x a] [|y b] Ha Hb Hdis;
    simplify_eq/=; [done|].
  specialize (IH a b ltac:(done) ltac:(done)
                (fun i => Hdis (S i))).
  pose proof (Hdis 0) as H0. simpl in H0.
  unfold msum, mfilter, np.lor in *. simpl.
  destruct x, y; simpl; try (exfalso; by apply H0);
    rewrite ?Qsum_cons; cbn [np.sum foldr num_add nat_num] in *; lia.
Qed.

Lemma lor_unit_same M k :
  np.lor (np.eq1 (unit_col M k)) (np.eq1 (unit_col M k)) =
  np.eq1 (unit_col M k).
Proof.
  unfold np.lor. apply list_eq. intros i. rewrite lookup_zip_with.
  destruct (np.eq1 (unit_col M k) !! i) as [[]|]; done.
Qed.

Lemma gis_active_mask M a b :
  a < M -> b < M ->
  np.lor (np.eq1 (unit_col M a))
         (np.eq1 (np.maximum (unit_col M a) (unit_col M b))) =
  np.lor (np.eq1 (unit_col M a)) (np.eq1 (unit_col M b)).
Proof.
  intros Ha Hb. apply list_eq. intros i. unfold np.lor.
  rewrite !lookup_zip_with.
  destruct (decide (i < M)) as [Hi|Hi].
  - rewrite !unit_mask_lookup by lia.
    assert (np.maximum (unit_col M a) (unit_col M b) !! i =
            Some (Z.max (if decide (i = a) then 1 else 0)
                        (if decide (i = b) then 1 else 0))%Z) as Hmax.
    { unfold np.maximum. rewrite lookup_zip_with.
      by rewrite !unit_col_lookup by lia. }
    rewrite (eq1_lookup _ _ _ Hmax). simpl. f_equal.
    repeat case_decide; repeat case_bool_decide; simpl in *; try done; lia.
  - rewrite (lookup_ge_None_2 (np.eq1 (unit_col M a)))
      by (rewrite eq1_length, unit_col_length; lia). done.
Qed.

(** X9. Under the GIS and the GRD policy a model has the samples of its own
    partition and of the partition of its parent, and no others: model 0
    has [n_0] samples and model [m >= 1] has [n_m + n_parent(m)] (only
    [n_m] if it is its own parent). *)
Theorem grd_gis_model_counts (p : policy) (recursion_index : list Z)
    (npartition_samples : list nat) :
  p <> GMF ->
  valid_recursion_index recursion_index ->
  length npartition_samples = length recursion_index + 1 ->
  exists mat nsamples_per_model,
    _create_allocation_matrix p recursion_index = Some mat /\
    _compute_nsamples_per_model (length recursion_index + 1) mat
      npartition_samples = Some nsamples_per_model /\
    nsamples_per_model !! 0 = head npartition_samples /\
    forall m, 1 <= m < length recursion_index + 1 ->
      exists n_m n_parent,
        npartition_samples !! m = Some n_m /\
        npartition_samples !! parent recursion_index m = Some n_parent /\
        nsamples_per_model !! m =
        Some (if decide (parent recursion_index m = m) then n_m
              else n_m + n_parent).
Proof.
  intros Hp Hv Hns.
  destruct (policy_allocation_ok p recursion_index Hv) as (mat & Hmat & Hok).
  exists mat. eexists. split; [exact Hmat|].
  split; [by apply nsamples_per_model_total|].
  split.
  - rewrite list_lookup_fmap. unfold range.
    rewrite lookup_seq_lt by lia. simpl.
    rewrite (active_mask_0 (length recursion_index + 1)) by (done || lia).
    destruct Hok as (_ & _ & _ & H1 & _).
    rewrite (list_lookup_total_correct _ _ _ H1).
    destruct npartition_samples as [|n0 ns] eqn:E; [simpl in Hns; lia|].
    rewrite (msum_unit (length recursion_index + 1) 0 _ n0) by (done || lia).
    done.
  - intros m Hm. pose proof (parent_lt recursion_index m Hv) as Hpar.
    destruct (lookup_lt_is_Some_2 npartition_samples m ltac:(lia))
      as [n_m Hnm].
    destruct (lookup_lt_is_Some_2 npartition_samples
                (parent recursion_index m) ltac:(lia)) as [n_p Hnp].
    exists n_m, n_p. split; [done|]. split; [done|].
    rewrite list_lookup_fmap. unfold range.
    rewrite lookup_seq_lt by lia. simpl. f_equal.
    set (M := length recursion_index + 1) in *.
    assert (active_mask mat m =
            np.lor (np.eq1 (unit_col M (parent recursion_index m)))
                   (np.eq1 (unit_col M m))) as ->.
    { unfold active_mask. destruct p; [done| |]; simpl in Hmat.
      - rewrite acvis_closed in Hmat by done. injection Hmat as <-.
        rewrite !mat_of_lookup_total by (unfold M in *; lia).
        unfold col_acvis.
        rewrite decide_False by lia. rewrite decide_True by lia.
        replace (2 * m + 1 - 1) with (2 * m) by lia.
        unfold col_mirror, col_init.
        rewrite decide_True by lia. rewrite decide_False by lia.
        rewrite decide_True by lia.
        replace (2 * m / 2) with m by lia.
        replace ((2 * m + 1) / 2) with m by lia.
        apply gis_active_mask; unfold M in *; lia.
      - rewrite acvrd_closed in Hmat by done. injection Hmat as <-.
        rewrite !mat_of_lookup_total by (unfold M in *; lia).
        unfold col_mirror, col_init.
        rewrite decide_True by lia. rewrite decide_False by lia.
        rewrite decide_True by lia.
        replace (2 * m / 2) with m by lia.
        replace ((2 * m + 1) / 2) with m by lia. done. }
    case_decide as Hsame.
    + rewrite Hsame, lor_unit_same. apply (msum_unit M m); [lia|done|done].
    + rewrite msum_lor_disjoint.
      * rewrite (msum_unit M _ _ n_p) by (done || lia).
        rewrite (msum_unit M m _ n_m) by (done || lia). lia.
      * rewrite eq1_length, unit_col_length; lia.
      * rewrite eq1_length, unit_col_length; lia.
      * intros i Ha Hb.
        assert (i < M) as Hi.
        { apply lookup_lt_Some in Ha.
          rewrite eq1_length, unit_col_length in Ha; lia. }
        rewrite unit_mask_lookup in Ha, Hb by lia.
        injection Ha as Ha. injection Hb as Hb.
        apply bool_decide_eq_true in Ha, Hb. lia.
Qed.

Lemma grd_gis_model_counts_witness :
  GRD <> GMF /\
  valid_recursion_index [0; 0]%Z /\
  length [5; 2; 4] = length [0; 0]%Z + 1 /\
  exists mat nsamples_per_model,
    _create_allocation_matrix GRD [0; 0]%Z = Some mat /\
    _compute_nsamples_per_model 3 mat [5; 2; 4] = Some nsamples_per_model /\
    nsamples_per_model !! 0 = head [5; 2; 4] /\
    forall m, 1 <= m < 3 ->
      exists n_m n_parent,
        [5; 2; 4] !! m = Some n_m /\
        [5; 2; 4] !! parent [0; 0]%Z m = Some n_parent /\
        nsamples_per_model !! m =
        Some (if decide (parent [0; 0]%Z m = m) then n_m else n_m + n_parent).
Proof.
  assert (GRD <> GMF) as Hp by discriminate.
  assert (valid_recursion_index [0; 0]%Z) as Hv.
  { unfold valid_recursion_index. repeat constructor; simpl; lia. }
  split; [exact Hp|]. split; [exact Hv|]. split; [reflexivity|].
  exact (grd_gis_model_counts GRD [0; 0]%Z [5; 2; 4] Hp Hv eq_refl).
Defined.

(** ** Generating the samples of the models *)

Lemma for_each_r_collect {A B} (body : list B -> A -> result (list B))
    (f : A -> B) xs acc :
  (forall x acc', x ∈ xs -> body acc' x = Ok (acc' ++ [f x])) ->
  for_each_r body xs acc = Ok (acc ++ (f <$> xs)).
Proof.
  revert acc. induction xs as [|x xs IH]; intros acc Hbody.
  { simpl. by rewrite app_nil_r. }
  cbn [for_each_r]. rewrite Hbody by left. cbn [mbind result_bind].
  rewrite IH by (intros; apply Hbody; by right).
  by rewrite <- app_assoc.
Qed.

Lemma active_partitions_mask M mat ii :
  allocation_ok M mat -> ii < M ->
  active_partitions mat ii = Some (np.flatnonzero (active_mask mat ii)).
Proof.
  intros (Hlen & Hcols & _) Hii.
  destruct (lookup_lt_is_Some_2 mat (2 * ii)) as [c1 Hc1]; [lia|].
  destruct (lookup_lt_is_Some_2 mat (2 * ii + 1)) as [c2 Hc2]; [lia|].
  unfold active_partitions, active_mask. rewrite Hc1, Hc2. simpl.
  rewrite (list_lookup_total_correct _ _ _ Hc1).
  by rewrite (list_lookup_total_correct _ _ _ Hc2).
Qed.

Lemma active_partitions_nonempty M mat ii :
  allocation_ok M mat -> ii < M ->
  np.flatnonzero (active_mask mat ii) <> [].
Proof.
  intros Hok Hii.
  assert (np.where1 (mat !!! (2 * ii + 1)) <> []) as Hne.
  { destruct Hok as (_ & _ & _ & H1 & Hne).
    destruct (decide (ii = 0)) as [->|]; [|apply Hne; lia].
    rewrite (list_lookup_total_correct _ _ _ H1), where1_unit. done. }
  destruct (np.where1 (mat !!! (2 * ii + 1))) as [|k l] eqn:E; [done|].
  assert (k ∈ np.where1 (mat !!! (2 * ii + 1))) as Hk by (rewrite E; left).
  unfold np.where1, np.flatnonzero in Hk.
  apply elem_of_where_from in Hk as [_ Hk]. rewrite Nat.sub_0_r in Hk.
  pose proof (column_in_active_mask M mat ii (2 * ii + 1) k Hok Hii
                ltac:(lia) Hk) as Ha.
  intros Hnil.
  assert (k ∈ np.flatnonzero (active_mask mat ii)) as Hin.
  { unfold np.flatnonzero. apply elem_of_where_from.
    rewrite Nat.sub_0_r. split; [lia|done]. }
  rewrite Hnil in Hin. by apply elem_of_nil in Hin.
Qed.

Lemma blocks_from_lookup acc (ns : list nat) k n :
  ns !! k = Some n ->
  blocks_from acc ns !! k = Some (seq (acc + np.sum (take k ns)) n).
Proof.
  revert acc k. induction ns as [|x ns IH]; intros acc k Hk; [done|].
  destruct k as [|k]; simpl in *.
  - simplify_eq. change (np.sum []) with 0. by rewrite Nat.add_0_r.
  - rewrite (IH _ _ Hk). do 2 f_equal.
    change (np.sum (x :: take k ns)) with (x + np.sum (take k ns)). lia.
Qed.

Lemma sum_take_le (ns : list nat) idx n :
  ns !! idx = Some n -> np.sum (take idx ns) + n <= np.sum ns.
Proof.
  intros Hn. rewrite <- (take_drop_middle ns idx n Hn) at 2.
  rewrite sum_app. change (np.sum (n :: drop (S idx) ns))
    with (n + np.sum (drop (S idx) ns)). lia.
Qed.

Lemma generate_samples_step_spec {A} M mat (ns : list nat) (S : list A) acc ii :
  allocation_ok M mat -> length ns = M -> ii < M ->
  length S = np.sum ns ->
  generate_samples_step mat (_get_partition_indices ns)
    ((fun ii => msum (active_mask mat ii) ns) <$> range 0 M) S acc ii =
  Ok (acc ++ [concat (partition_samples S ns
                        <$> np.flatnonzero (active_mask mat ii))]).
Proof.
  intros Hok Hns Hii HS.
  pose proof (active_mask_length M mat ii Hok Hii) as Hml.
  unfold generate_samples_step.
  rewrite (active_partitions_mask M) by done. cbn [lift mbind result_bind].
  rewrite partition_indices_blocks by (intros ->; simpl in Hns; lia).
  assert (forall idx, idx ∈ np.flatnonzero (active_mask mat ii) ->
            exists n, ns !! idx = Some n /\
                      active_mask mat ii !! idx = Some true) as Hact.
  { intros idx Hidx. unfold np.flatnonzero in Hidx.
    apply elem_of_where_from in Hidx as [_ Hidx].
    rewrite Nat.sub_0_r in Hidx.
    destruct (lookup_lt_is_Some_2 ns idx) as [n Hn]; [|by eauto].
    apply lookup_lt_Some in Hidx. lia. }
  rewrite (mapM_fmap_elem _
             (fun idx => seq (np.sum (take idx ns)) (default 0 (ns !! idx)))).
  2:{ intros idx Hidx. destruct (Hact idx Hidx) as (n & Hn & _).
      rewrite (blocks_from_lookup 0 ns idx n Hn), Hn. done. }
  cbn [lift mbind result_bind].
  rewrite hstack_nonempty.
  2:{ intros E. apply fmap_nil_inv in E.
      by apply (active_partitions_nonempty M mat ii). }
  cbn [lift mbind result_bind].
  rewrite list_lookup_fmap. unfold range at 1.
  rewrite lookup_seq_lt by lia. cbn [fmap option_fmap option_map lift
                                     mbind result_bind].
  rewrite decide_False.
  2:{ intros Hneq. apply Hneq. unfold np.flatnonzero.
      pose proof (length_concat_blocks
                    (fun idx => seq (np.sum (take idx ns))
                                    (default 0 (ns !! idx)))
                    (active_mask mat ii) ns (length ns)) as Hl.
      rewrite !firstn_all2 in Hl by lia.
      apply Hl; [lia|lia|].
      intros j n _ Hn. by rewrite length_seq, Hn. }
  rewrite (take_rows_concat S _ (partition_samples S ns)).
  2:{ intros idx Hidx. destruct (Hact idx Hidx) as (n & Hn & _).
      unfold partition_samples. rewrite Hn. simpl.
      apply take_rows_seq. pose proof (sum_take_le ns idx n Hn). lia. }
  done.
Qed.

Lemma sum_insert_0 (ns : list nat) n0 k :
  ns !! 0 = Some n0 -> k <= n0 ->
  np.sum (<[0 := n0 - k]> ns) = np.sum ns - k.
Proof.
  destruct ns as [|n ns]; [done|]. intros [= ->] Hk. simpl.
  change (np.sum (?x :: ?l)) with (x + np.sum l). lia.
Qed.

Lemma generate_samples_spec {A} M mat (ns : list nat) (rvs : Z -> result (list A))
    npilot n0 (S : list A) :
  allocation_ok M mat -> length ns = M -> ns !! 0 = Some n0 ->
  rvs (Z.of_nat (np.sum ns) - Z.of_nat npilot)%Z = Ok S ->
  npilot <= n0 -> length S = np.sum ns - npilot ->
  generate_samples_per_model M mat ns rvs npilot =
  Ok ((fun ii => concat (partition_samples S (<[0 := n0 - npilot]> ns)
                           <$> np.flatnonzero (active_mask mat ii)))
        <$> range 0 M).
Proof.
  intros Hok Hns Hn0 Hrvs Hle HS.
  unfold generate_samples_per_model. rewrite Hrvs, Hn0.
  cbn [lift mbind result_bind]. rewrite decide_False by lia.
  rewrite (nsamples_per_model_total M) by (rewrite ?length_insert; done).
  cbn [lift mbind result_bind].
  rewrite (for_each_r_collect _
             (fun ii => concat (partition_samples S (<[0 := n0 - npilot]> ns)
                                  <$> np.flatnonzero (active_mask mat ii)))).
  { done. }
  intros ii acc Hii. unfold range in Hii. apply elem_of_seq in Hii.
  apply (generate_samples_step_spec M);
    rewrite ?length_insert; try done; try lia.
  by rewrite (sum_insert_0 ns n0).
Qed.

(** X10. [generate_samples_per_model] refuses more pilot samples than the
    first partition holds; otherwise it takes the pilot samples off the
    first partition and gives every model the independent samples of its
    active partitions, partition by partition in increasing order, as many
    as the model's sample count: the mismatch error is never raised, and
    two models that share a partition receive the very same samples of
    it. *)
Theorem generate_samples_gives_each_model_its_partitions {A} (p : policy)
    (recursion_index : list Z) (npartition_samples : list nat)
    (rvs : Z -> result (list A)) (npilot_samples n0 : nat)
    (independent_samples : list A) :
  valid_recursion_index recursion_index ->
  length npartition_samples = length recursion_index + 1 ->
  npartition_samples !! 0 = Some n0 ->
  rvs (Z.of_nat (np.sum npartition_samples) - Z.of_nat npilot_samples)%Z
  = Ok independent_samples ->
  exists mat,
    _create_allocation_matrix p recursion_index = Some mat /\
    (n0 < npilot_samples ->
     generate_samples_per_model (length recursion_index + 1) mat
       npartition_samples rvs npilot_samples =
     Raise (ValueError
              "npilot_samples is larger than optimized first partition size")) /\
    (npilot_samples <= n0 ->
     length independent_samples = np.sum npartition_samples - npilot_samples ->
     exists nsamples_per_model samples_per_model,
       _compute_nsamples_per_model (length recursion_index + 1) mat
         (<[0 := n0 - npilot_samples]> npartition_samples)
       = Some nsamples_per_model /\
       generate_samples_per_model (length recursion_index + 1) mat
         npartition_samples rvs npilot_samples = Ok samples_per_model /\
       Forall2 (fun s n => length s = n) samples_per_model nsamples_per_model /\
       forall ii active,
         active_partitions mat ii = Some active ->
         ii < length recursion_index + 1 ->
         samples_per_model !! ii =
         Some (concat (partition_samples independent_samples
                         (<[0 := n0 - npilot_samples]> npartition_samples)
                         <$> active))).
Proof.
  intros Hv Hns Hn0 Hrvs.
  destruct (policy_allocation_ok p recursion_index Hv) as (mat & Hmat & Hok).
  exists mat. split; [done|]. split.
  - intros Hlt. unfold generate_samples_per_model. rewrite Hrvs, Hn0.
    cbn [lift mbind result_bind]. by rewrite decide_True by lia.
  - intros Hle HS.
    set (ns' := <[0 := n0 - npilot_samples]> npartition_samples).
    assert (length ns' = length recursion_index + 1) as Hns'
      by (unfold ns'; by rewrite length_insert).
    assert (length independent_samples = np.sum ns') as HS'
      by (unfold ns'; by rewrite (sum_insert_0 _ n0)).
    eexists _, _.
    split; [by apply nsamples_per_model_total|].
    split; [by apply (generate_samples_spec _ _ _ _ _ n0)|].
    split.
    + apply Forall2_fmap, Forall_Forall2_diag, Forall_forall.
      intros ii Hii. unfold range in Hii. apply elem_of_seq in Hii.
      pose proof (active_mask_length _ mat ii Hok ltac:(lia)) as Hml.
      pose proof (length_concat_blocks
                    (partition_samples independent_samples ns')
                    (active_mask mat ii) ns' (length ns')) as Hl.
      rewrite !firstn_all2 in Hl by lia. apply Hl; [lia|lia|].
      intros j n _ Hn. unfold partition_samples, np.slice.
      rewrite Hn. simpl. rewrite length_take, length_drop.
      pose proof (sum_take_le ns' j n Hn). lia.
    + intros ii active Hact Hii.
      rewrite (active_partitions_mask _ mat ii Hok Hii) in Hact.
      injection Hact as <-.
      rewrite list_lookup_fmap. unfold range.
      rewrite lookup_seq_lt by lia. done.
Qed.

Lemma generate_samples_gives_each_model_its_partitions_witness :
  let rvs := fun n : Z => Ok (seq 100 (Z.to_nat n)) in
  valid_recursion_index [0; 0]%Z /\
  length [3; 1; 2] = length [0; 0]%Z + 1 /\
  [3; 1; 2] !! 0 = Some 3 /\
  rvs (Z.of_nat (np.sum [3; 1; 2]%nat) - Z.of_nat 1)%Z = Ok (seq 100 5) /\
  1 <= 3 /\
  length (seq 100 5) = np.sum [3; 1; 2] - 1 /\
  exists mat nsamples_per_model samples_per_model,
    _create_allocation_matrix GMF [0; 0]%Z = Some mat /\
    _compute_nsamples_per_model 3 mat (<[0 := 3 - 1]> [3; 1; 2])
    = Some nsamples_per_model /\
    generate_samples_per_model 3 mat [3; 1; 2] rvs 1 = Ok samples_per_model /\
    Forall2 (fun s n => length s = n) samples_per_model nsamples_per_model.
Proof.
  intros rvs.
  assert (valid_recursion_index [0; 0]%Z) as Hv.
  { unfold valid_recursion_index. repeat constructor; simpl; lia. }
  assert (rvs (Z.of_nat (np.sum [3; 1; 2]%nat) - Z.of_nat 1)%Z = Ok (seq 100 5))
    as Hrvs by reflexivity.
  split; [exact Hv|]. split; [reflexivity|]. split; [reflexivity|].
  split; [exact Hrvs|]. split; [lia|]. split; [reflexivity|].
  destruct (generate_samples_gives_each_model_its_partitions GMF [0; 0]%Z
              [3; 1; 2] rvs 1 3 (seq 100 5) Hv eq_refl eq_refl Hrvs)
    as (mat & Hmat & _ & Hgen).
  destruct (Hgen ltac:(lia) eq_refl) as (nspm & samples & H1 & H2 & H3 & _).
  exists mat, nspm, samples. done.
Defined.

(** ** The acv subsets of the generated samples *)

Lemma for_each_r_checks {A} (check : A -> result unit) xs :
  (forall x, x ∈ xs -> check x = Ok tt) ->
  for_each_r (fun _ x => check x) xs tt = Ok tt.
Proof.
  induction xs as [|x xs IH]; intros Hc; [done|].
  cbn [for_each_r]. rewrite Hc by left. cbn [mbind result_bind].
  apply IH. intros; apply Hc; by right.
Qed.

Lemma separate_samples_spec {A} M mat ns (samples : list (list A)) g :
  allocation_ok M mat -> 1 <= M -> length ns = M ->
  length samples = M ->
  (forall ii, ii < M ->
     length (samples !!! ii) = msum (active_mask mat ii) ns) ->
  _separate_samples_per_model M mat ns
    ((fun ii => msum (active_mask mat ii) ns) <$> range 0 M) samples g =
  Ok ((fun c => concat (block (samples !!! (c / 2))
                          (active_mask mat (c / 2)) ns
                          <$> np.where1 (mat !!! c)))
        <$> range 0 (2 * M)).
Proof.
  intros Hok HM Hns Hls Hlens.
  unfold _separate_samples_per_model. rewrite decide_False by lia.
  rewrite for_each_r_checks.
  2:{ intros ii Hii. unfold range in Hii. apply elem_of_seq in Hii.
      destruct (lookup_lt_is_Some_2 samples ii) as [s Hs]; [lia|].
      rewrite Hs, list_lookup_fmap. unfold range.
      rewrite lookup_seq_lt by lia. cbn [lift mbind result_bind fmap
                                         option_fmap option_map].
      rewrite decide_False; [done|].
      rewrite <- (list_lookup_total_correct _ _ _ Hs). intros Hn; apply Hn.
      by apply Hlens; lia. }
  cbn [mbind result_bind].
  destruct (acv_subset_indices_spec false M mat ns g Hok Hns HM)
    as (rpi & g' & -> & _ & _).
  cbn [lift mbind result_bind fst].
  rewrite acv_subsets_length by done.
  rewrite (mapM_fmap_elem _
             (fun c => concat (block (samples !!! (c / 2))
                                 (active_mask mat (c / 2)) ns
                                 <$> np.where1 (mat !!! c)))); [done|].
  intros c Hc. unfold range in Hc. apply elem_of_seq in Hc.
  destruct (lookup_lt_is_Some_2 samples (c / 2)) as [s Hs]; [lia|].
  rewrite Hs, (list_lookup_total_correct _ _ _ Hs). cbn [mbind option_bind].
  rewrite (acv_subsets_lookup_all _ M) by (done || lia).
  cbn [mbind option_bind].
  pose proof (active_mask_length M mat (c / 2) Hok ltac:(lia)) as Hml.
  pose proof (column_length M mat c Hok ltac:(lia)) as Hcl.
  unfold acv_subset, offset, np.where1.
  rewrite (take_rows_acv_subset s (active_mask mat (c / 2))
             (np.eq1 (mat !!! c)) ns); [done|lia| | |].
  - rewrite eq1_length. lia.
  - intros k Hk.
    apply (column_in_active_mask M mat (c / 2) c); [done|lia|lia|done].
  - rewrite <- (list_lookup_total_correct _ _ _ Hs). apply Hlens. lia.
Qed.

Lemma partition_samples_length {A} (S : list A) (ns : list nat) j n :
  length S = np.sum ns -> ns !! j = Some n ->
  length (partition_samples S ns j) = n.
Proof.
  intros HS Hn. unfold partition_samples, np.slice. rewrite Hn. simpl.
  rewrite length_take, length_drop. pose proof (sum_take_le ns j n Hn). lia.
Qed.

(** X11. The samples that [generate_samples_per_model] hands out, separated
    by [_separate_samples_per_model], give for every column [c] of the
    allocation matrix exactly the independent samples of the partitions
    marked in that column: the acv subset of a column is the union of its
    partitions, and a partition marked in two columns puts the same samples
    in both subsets. *)
Theorem separated_samples_are_the_partitions_of_the_column {A} (p : policy)
    (recursion_index : list Z) (npartition_samples : list nat)
    (rvs : Z -> result (list A)) (independent_samples : list A)
    (g : np.rng) :
  valid_recursion_index recursion_index ->
  length npartition_samples = length recursion_index + 1 ->
  rvs (Z.of_nat (np.sum npartition_samples) - Z.of_nat 0)%Z
  = Ok independent_samples ->
  length independent_samples = np.sum npartition_samples ->
  exists mat nsamples_per_model samples_per_model acv_samples,
    _create_allocation_matrix p recursion_index = Some mat /\
    _compute_nsamples_per_model (length recursion_index + 1) mat
      npartition_samples = Some nsamples_per_model /\
    generate_samples_per_model (length recursion_index + 1) mat
      npartition_samples rvs 0 = Ok samples_per_model /\
    _separate_samples_per_model (length recursion_index + 1) mat
      npartition_samples nsamples_per_model samples_per_model g
    = Ok acv_samples /\
    length acv_samples = 2 * (length recursion_index + 1) /\
    forall c, c < 2 * (length recursion_index + 1) ->
      acv_samples !! c =
      Some (concat (partition_samples independent_samples npartition_samples
                      <$> np.where1 (mat !!! c))).
Proof.
  intros Hv Hns Hrvs HS.
  destruct (policy_allocation_ok p recursion_index Hv) as (mat & Hmat & Hok).
  set (M := length recursion_index + 1) in *.
  destruct (lookup_lt_is_Some_2 npartition_samples 0) as [n0 Hn0]; [lia|].
  pose proof (generate_samples_spec M mat npartition_samples rvs 0 n0
                independent_samples Hok Hns Hn0 Hrvs ltac:(lia) ltac:(lia))
    as Hgen.
  rewrite Nat.sub_0_r, (list_insert_id _ _ _ Hn0) in Hgen.
  set (samples := (fun ii =>
         concat (partition_samples independent_samples npartition_samples
                   <$> np.flatnonzero (active_mask mat ii))) <$> range 0 M)
    in *.
  assert (forall ii, ii < M ->
            samples !!! ii =
            concat (partition_samples independent_samples npartition_samples
                      <$> np.flatnonzero (active_mask mat ii))) as Hsam.
  { intros ii Hii. apply list_lookup_total_correct. unfold samples.
    rewrite list_lookup_fmap. unfold range.
    by rewrite lookup_seq_lt by lia. }
  assert (forall ii, ii < M ->
            length (samples !!! ii) =
            msum (active_mask mat ii) npartition_samples) as Hlens.
  { intros ii Hii. rewrite Hsam by done.
    pose proof (active_mask_length M mat ii Hok Hii) as Hml.
    pose proof (length_concat_blocks
                  (partition_samples independent_samples npartition_samples)
                  (active_mask mat ii) npartition_samples
                  (length npartition_samples)) as Hl.
    rewrite !firstn_all2 in Hl by lia. apply Hl; [lia|lia|].
    intros j n _ Hn. by apply partition_samples_length. }
  exists mat. eexists. exists samples. eexists.
  split; [done|]. split; [by apply nsamples_per_model_total|].
  split; [exact Hgen|].
  split.
  { apply separate_samples_spec; try done; try (unfold M; lia).
    unfold samples, range. rewrite length_fmap, length_seq. lia. }
  split.
  { unfold range. rewrite length_fmap, length_seq. unfold M. lia. }
  intros c Hc. rewrite list_lookup_fmap. unfold range.
  rewrite lookup_seq_lt by lia. cbn [fmap option_fmap option_map].
  f_equal. rewrite Hsam by (unfold M in *; lia). f_equal.
  apply list_fmap_ext. intros i j Hj.
  unfold np.where1, np.flatnonzero in Hj.
  apply list_elem_of_lookup_2, elem_of_where_from in Hj as [_ Hj].
  rewrite Nat.sub_0_r in Hj.
  pose proof (active_mask_length M mat (c / 2) Hok
                ltac:(unfold M in *; lia)) as Hml.
  pose proof (column_in_active_mask M mat (c / 2) c j Hok
                ltac:(unfold M in *; lia) ltac:(lia) Hj) as Ha.
  destruct (lookup_lt_is_Some_2 npartition_samples j) as [n Hn].
  { apply lookup_lt_Some in Ha. lia. }
  unfold block. rewrite Hn. simpl. unfold np.flatnonzero.
  apply slice_concat_where; [lia| |done|done].
  intros j' n' _ Hn'. by apply partition_samples_length.
Qed.

Lemma separated_samples_are_the_partitions_of_the_column_witness :
  let rvs := fun n : Z => Ok (seq 100 (Z.to_nat n)) in
  valid_recursion_index [0; 1]%Z /\
  length [3; 1; 2] = length [0; 1]%Z + 1 /\
  rvs (Z.of_nat (np.sum [3; 1; 2]%nat) - Z.of_nat 0)%Z = Ok (seq 100 6) /\
  length (seq 100 6) = np.sum [3; 1; 2] /\
  exists mat nsamples_per_model samples_per_model acv_samples,
    _create_allocation_matrix GRD [0; 1]%Z = Some mat /\
    _compute_nsamples_per_model 3 mat [3; 1; 2] = Some nsamples_per_model /\
    generate_samples_per_model 3 mat [3; 1; 2] rvs 0 = Ok samples_per_model /\
    _separate_samples_per_model 3 mat [3; 1; 2] nsamples_per_model
      samples_per_model (fun k => k) = Ok acv_samples /\
    length acv_samples = 2 * 3 /\
    forall c, c < 2 * 3 ->
      acv_samples !! c =
      Some (concat (partition_samples (seq 100 6) [3; 1; 2]
                      <$> np.where1 (mat !!! c))).
Proof.
  intros rvs.
  assert (valid_recursion_index [0; 1]%Z) as Hv.
  { unfold valid_recursion_index. repeat constructor; simpl; lia. }
  assert (rvs (Z.of_nat (np.sum [3; 1; 2]%nat) - Z.of_nat 0)%Z = Ok (seq 100 6))
    as Hrvs by reflexivity.
  split; [exact Hv|]. split; [reflexivity|]. split; [exact Hrvs|].
  split; [reflexivity|].
  exact (separated_samples_are_the_partitions_of_the_column GRD [0; 1]%Z
           [3; 1; 2] rvs (seq 100 6) (fun k => k) Hv eq_refl Hrvs eq_refl).
Defined.

(** ** Pilot values *)

Lemma msum_insert_0 (mask : list bool) (ns : list nat) n0 k (b : bool) :
  mask !! 0 = Some b -> ns !! 0 = Some n0 -> k <= n0 ->
  msum mask (<[0 := n0 - k]> ns) + (if b then k else 0) = msum mask ns.
Proof.
  destruct mask as [|b' mask]; [done|]. destruct ns as [|n ns]; [done|].
  intros [= ->] [= ->] Hk. unfold msum, mfilter. simpl.
  destruct b; simpl; fold (@mfilter nat mask ns);
    change (np.sum (?x :: ?l)) with (x + np.sum l); lia.
Qed.

Lemma active_mask_lookup_0 M mat ii :
  allocation_ok M mat -> 1 <= M -> ii < M ->
  exists e1 e2,
    mat_get mat 0 (2 * ii) = Some e1 /\
    mat_get mat 0 (2 * ii + 1) = Some e2 /\
    active_mask mat ii !! 0 =
    Some (bool_decide (e1 = 1%Z) || bool_decide (e2 = 1%Z)).
Proof.
  intros (Hlen & Hcols & _) HM Hii.
  destruct (lookup_lt_is_Some_2 mat (2 * ii)) as [c1 Hc1]; [lia|].
  destruct (lookup_lt_is_Some_2 mat (2 * ii + 1)) as [c2 Hc2]; [lia|].
  pose proof (Hcols _ _ Hc1) as Hl1. pose proof (Hcols _ _ Hc2) as Hl2.
  destruct (lookup_lt_is_Some_2 c1 0) as [e1 He1]; [lia|].
  destruct (lookup_lt_is_Some_2 c2 0) as [e2 He2]; [lia|].
  exists e1, e2. unfold mat_get. rewrite Hc1, Hc2. simpl.
  split; [done|]. split; [done|].
  unfold active_mask, np.lor.
  rewrite (list_lookup_total_correct _ _ _ Hc1).
  rewrite (list_lookup_total_correct _ _ _ Hc2).
  rewrite lookup_zip_with.
  by rewrite (eq1_lookup _ _ _ He1), (eq1_lookup _ _ _ He2).
Qed.

(** X12. [insert_pilot_values] undoes what taking the pilot samples off the
    first partition did to the sample counts: given values for the counts
    of [generate_samples_per_model(rvs, npilot_samples)] and [npilot_samples]
    pilot values per model, it returns one array per model whose number of
    rows is the model's sample count of the full allocation, which
    [_separate_values_per_model] asks for; the models that do not use the
    first partition keep their values. *)
Theorem insert_pilot_values_restores_the_counts (p : policy)
    (recursion_index : list Z) (npartition_samples : list nat)
    (npilot_samples n0 : nat) (pilot_values values_per_model : list array2d) :
  valid_recursion_index recursion_index ->
  length npartition_samples = length recursion_index + 1 ->
  npartition_samples !! 0 = Some n0 ->
  npilot_samples <= n0 ->
  exists mat reduced_nsamples_per_model nsamples_per_model,
    _create_allocation_matrix p recursion_index = Some mat /\
    _compute_nsamples_per_model (length recursion_index + 1) mat
      (<[0 := n0 - npilot_samples]> npartition_samples)
    = Some reduced_nsamples_per_model /\
    _compute_nsamples_per_model (length recursion_index + 1) mat
      npartition_samples = Some nsamples_per_model /\
    (Forall2 (fun v n => length (rows v) = n) values_per_model
       reduced_nsamples_per_model ->
     Forall2 (fun pilot v =>
                length (rows pilot) = npilot_samples /\ ncols pilot = ncols v)
       pilot_values values_per_model ->
     exists new_values_per_model,
       insert_pilot_values (length recursion_index + 1) mat pilot_values
         values_per_model = Some new_values_per_model /\
       Forall2 (fun v n => length (rows v) = n) new_values_per_model
         nsamples_per_model /\
       forall ii v,
         values_per_model !! ii = Some v ->
         entry mat 0 (2 * ii) <> 1%Z -> entry mat 0 (2 * ii + 1) <> 1%Z ->
         new_values_per_model !! ii = Some v).
Proof.
  intros Hv Hns Hn0 Hle.
  destruct (policy_allocation_ok p recursion_index Hv) as (mat & Hmat & Hok).
  set (M := length recursion_index + 1) in *.
  set (ns' := <[0 := n0 - npilot_samples]> npartition_samples).
  exists mat. eexists _, _. split; [done|].
  split; [apply nsamples_per_model_total;
          [done|unfold ns'; by rewrite length_insert]|].
  split; [by apply nsamples_per_model_total|].
  intros Hvals Hpilot.
  assert (length values_per_model = M) as Hlv.
  { apply Forall2_length in Hvals. unfold range in Hvals.
    rewrite length_fmap, length_seq in Hvals. lia. }
  assert (length pilot_values = M) as Hlp
    by (apply Forall2_length in Hpilot; lia).
  set (out := fun ii =>
         let pv := pilot_values !!! ii in
         let v := values_per_model !!! ii in
         if default false (active_mask mat ii !! 0)
         then {| ncols := ncols pv; rows := rows pv ++ rows v |} else v).
  assert (forall ii, ii < M ->
            exists pv v e1 e2,
              pilot_values !! ii = Some pv /\ values_per_model !! ii = Some v /\
              pilot_values !!! ii = pv /\ values_per_model !!! ii = v /\
              length (rows pv) = npilot_samples /\ ncols pv = ncols v /\
              length (rows v) = msum (active_mask mat ii) ns' /\
              mat_get mat 0 (2 * ii) = Some e1 /\
              mat_get mat 0 (2 * ii + 1) = Some e2 /\
              active_mask mat ii !! 0 =
              Some (bool_decide (e1 = 1%Z) || bool_decide (e2 = 1%Z))) as Hii.
  { intros ii Hlt.
    destruct (lookup_lt_is_Some_2 pilot_values ii) as [pv Hpv]; [lia|].
    destruct (lookup_lt_is_Some_2 values_per_model ii) as [v Hvi]; [lia|].
    destruct (active_mask_lookup_0 M mat ii Hok ltac:(unfold M; lia) Hlt)
      as (e1 & e2 & He1 & He2 & Ha).
    exists pv, v, e1, e2.
    destruct (Forall2_lookup_l _ _ _ _ _ Hpilot Hpv) as (v' & Hv' & Hp1 & Hp2).
    assert (v' = v) as -> by congruence.
    destruct (Forall2_lookup_l _ _ _ _ _ Hvals Hvi) as (n & Hn & Hvn).
    rewrite list_lookup_fmap in Hn. unfold range in Hn.
    rewrite lookup_seq_lt in Hn by lia. simpl in Hn. injection Hn as <-.
    repeat split; try done; by apply list_lookup_total_correct. }
  exists (out <$> range 0 M). split; [|split].
  - unfold insert_pilot_values. apply mapM_fmap_elem.
    intros ii Hlt. unfold range in Hlt. apply elem_of_seq in Hlt.
    destruct (Hii ii ltac:(lia))
      as (pv & v & e1 & e2 & Hpv & Hvi & Hpt & Hvt & Hpl & Hnc & Hvl
          & He1 & He2 & Ha).
    rewrite He1, He2, Hpv, Hvi. cbn [mbind option_bind].
    unfold out. rewrite Hpt, Hvt, Ha. cbn [default from_option id].
    destruct (decide (e1 = 1%Z)) as [E1|E1].
    + rewrite bool_decide_eq_true_2 by done. cbn [orb mbind option_bind].
      unfold vstack. cbn [fmap list_fmap atleast_2d forallb].
      rewrite Hnc, Nat.eqb_refl. cbn [andb rows concat].
      by rewrite app_nil_r.
    + rewrite (bool_decide_eq_false_2 (e1 = 1%Z)) by done.
      cbn [orb mbind option_bind].
      destruct (bool_decide (e2 = 1%Z)); cbn [mbind option_bind]; [|done].
      unfold vstack. cbn [fmap list_fmap atleast_2d forallb].
      rewrite Hnc, Nat.eqb_refl. cbn [andb rows concat].
      by rewrite app_nil_r.
  - apply Forall2_fmap, Forall_Forall2_diag, Forall_forall.
    intros ii Hlt. unfold range in Hlt. apply elem_of_seq in Hlt.
    destruct (Hii ii ltac:(lia))
      as (pv & v & e1 & e2 & Hpv & Hvi & Hpt & Hvt & Hpl & Hnc & Hvl
          & He1 & He2 & Ha).
    unfold out. rewrite Hpt, Hvt, Ha. cbn [default from_option id].
    pose proof (msum_insert_0 (active_mask mat ii) npartition_samples n0
                  npilot_samples _ Ha Hn0 Hle) as Hsum.
    fold ns' in Hsum.
    destruct (bool_decide (e1 = 1%Z) || bool_decide (e2 = 1%Z));
      cbn [rows]; rewrite ?length_app; lia.
  - intros ii v Hvi Hn1 Hn2.
    assert (ii < M) as Hlt by (apply lookup_lt_Some in Hvi; lia).
    destruct (Hii ii Hlt)
      as (pv & v' & e1 & e2 & Hpv & Hvi' & Hpt & Hvt & Hpl & Hnc & Hvl
          & He1 & He2 & Ha).
    assert (v' = v) as -> by congruence.
    rewrite list_lookup_fmap. unfold range.
    rewrite lookup_seq_lt by lia. cbn [fmap option_fmap option_map].
    change (0 + ii) with ii.
    unfold out. rewrite Hpt, Hvt, Ha. cbn [default from_option id].
    unfold entry in Hn1, Hn2. unfold mat_get in He1, He2.
    rewrite He1 in Hn1. rewrite He2 in Hn2. simpl in Hn1, Hn2.
    rewrite !bool_decide_eq_false_2 by done. done.
Qed.

Lemma insert_pilot_values_restores_the_counts_witness :
  let pilot := {| ncols := 1; rows := [[7%Z]] |} in
  let values n := {| ncols := 1; rows := replicate n [0%Z] |} in
  valid_recursion_index [0; 1]%Z /\
  length [3; 1; 2] = length [0; 1]%Z + 1 /\
  [3; 1; 2] !! 0 = Some 3 /\
  1 <= 3 /\
  exists mat new_values_per_model,
    _create_allocation_matrix GRD [0; 1]%Z = Some mat /\
    _compute_nsamples_per_model 3 mat (<[0 := 3 - 1]> [3; 1; 2])
    = Some [2; 3; 3] /\
    _compute_nsamples_per_model 3 mat [3; 1; 2] = Some [3; 4; 3] /\
    insert_pilot_values 3 mat [pilot; pilot; pilot]
      [values 2; values 3; values 3] = Some new_values_per_model /\
    Forall2 (fun v n => length (rows v) = n) new_values_per_model [3; 4; 3] /\
    new_values_per_model !! 2 = Some (values 3).
Proof.
  intros pilot values.
  assert (valid_recursion_index [0; 1]%Z) as Hv.
  { unfold valid_recursion_index. repeat constructor; simpl; lia. }
  split; [exact Hv|]. split; [reflexivity|]. split; [reflexivity|].
  split; [lia|].
  destruct (insert_pilot_values_restores_the_counts GRD [0; 1]%Z [3; 1; 2]
              1 3 [pilot; pilot; pilot] [values 2; values 3; values 3]
              Hv eq_refl eq_refl ltac:(lia))
    as (mat & r & n & Hmat & Hr & Hn & Hins).
  vm_compute in Hmat. injection Hmat as <-.
  vm_compute in Hr. injection Hr as <-.
  vm_compute in Hn. injection Hn as <-.
  destruct Hins as (new & Hnew & Hcounts & Hkeep).
  { repeat constructor. }
  { repeat constructor. }
  eexists _, new. split; [reflexivity|]. split; [reflexivity|].
  split; [reflexivity|]. split; [exact Hnew|]. split; [exact Hcounts|].
  apply Hkeep; [reflexivity|vm_compute; discriminate|vm_compute; discriminate].
Defined.

(** ** More on the sweep over the recursion indices *)

Section SweepProofs.

Variable minimize : matrix -> list Q -> Q -> result OptimizeResult.
Variable criterion : matrix -> list Z -> result fval.
Variable _get_acv_recursion_indices : nat -> nat -> list (list Z).

(** X15. [allow_failures] covers the failures of the solver only.  A target
    cost below the sum of the costs, which does not buy one sample of each
    model, stops the sweep at its first recursion index with a
    [ValueError], whether failures are allowed or not. *)
Theorem sweep_refuses_a_budget_below_the_costs (est : ACVEstimator)
    (depth : nat) (target_cost : Q) (index : list Z) (rest : list (list Z))
    (mat : matrix) :
  _tree_depth est = Some depth ->
  _nmodels est <> 0 ->
  _get_acv_recursion_indices (_nmodels est) depth = index :: rest ->
  length index = _nmodels est - 1 ->
  _create_allocation_matrix (est_policy est) index = Some mat ->
  (target_cost < np.sum (_costs est))%Q ->
  _allocate_samples_for_all_recursion_indices minimize criterion
    _get_acv_recursion_indices est target_cost =
  Failed (ValueError
            "Target cost does not allow at least one sample from each model")
         (set_allocation est mat index).
Proof.
  intros Hdepth HM Hidx Hlen Hmat Hsmall.
  unfold _allocate_samples_for_all_recursion_indices.
  rewrite Hdepth, Hidx. cbv zeta. cbn [sweep_loop]. unfold sweep_body.
  rewrite (set_recursion_index_ok minimize criterion _ _ mat) by done.
  unfold _allocate_samples_for_single_recursion, _allocate_samples,
    _allocate_samples_user_init_guess, _allocate_samples_opt.
  cbn [_costs set_allocation].
  destruct (Qlt_le_dec target_cost (np.sum (_costs est))) as [_|Hge].
  - done.
  - exfalso. eapply Qlt_not_le; eauto.
Qed.

Lemma set_optimized_params_done est ratios target_cost est' :
  _set_optimized_params criterion est ratios target_cost = Done tt est' ->
  _recursion_index est' = _recursion_index est /\
  _allocation_mat est' = _allocation_mat est /\
  exists criteria, _optimized_criteria est' = Some criteria.
Proof.
  unfold _set_optimized_params.
  destruct ratios as [ratios|]; [|done].
  destruct (_allocation_mat est) as [mat|] eqn:Hmat; [|done].
  destruct (_round_partition_ratios _ _ _ _ _) as [rounded|e]; [|done].
  cbn [_nmodels _costs set_rounded_partition_ratios].
  match goal with
  | |- context [match ?x with Some _ => _ | None => _ end] =>
      destruct x as [counts|]
  end; [|done].
  destruct (criterion _ _) as [c|e]; [|done].
  intros [= <-]. cbn. rewrite Hmat. eauto.
Qed.

Lemma sweep_body_best target_cost best est index best' est' :
  sweep_body minimize criterion target_cost best est index = Done best' est' ->
  best' = best \/
  exists ratios cost criteria,
    best' = (criteria, Some (ratios, cost, criteria, index)) /\
    fval_lt criteria best.1 = true.
Proof.
  unfold sweep_body.
  destruct (_set_recursion_index est (Some index)) as [est1|e]; [|done].
  destruct (_allocate_samples_for_single_recursion _ _ _ _)
    as [[] est2|e est2].
  - destruct (_optimized_criteria est2) as [c|]; [|done].
    destruct (fval_lt c best.1) eqn:Hlt; intros [= <- <-]; eauto 10.
  - destruct e; try done.
    destruct (_allow_failures est2); [|done].
    cbn [negb _optimized_criteria set_optimized_criteria].
    rewrite fval_lt_PInf. intros [= <- <-]. by left.
Qed.

Lemma sweep_loop_best target_cost indices best est best' est' :
  sweep_loop minimize criterion target_cost indices best est
  = Done best' est' ->
  best' = best \/
  exists ratios cost criteria index,
    best' = (criteria, Some (ratios, cost, criteria, index)) /\
    index ∈ indices /\ fval_lt criteria PInf = true.
Proof.
  revert best est. induction indices as [|index indices IH];
    intros best est Hloop.
  { injection Hloop as <- <-. by left. }
  cbn [sweep_loop] in Hloop.
  destruct (sweep_body _ _ _ _ _ _) as [best1 est1|e est1] eqn:Hbody;
    [|done].
  apply sweep_body_best in Hbody. apply IH in Hloop.
  destruct Hloop as [->|(r & t & c & idx & -> & Hin & Hc)].
  - destruct Hbody as [->|(r & t & c & -> & Hlt)]; [by left|].
    right. exists r, t, c, index. split; [done|]. split; [by left|].
    destruct c, (best.1); simpl in *; done.
  - right. exists r, t, c, idx. split; [done|]. split; [by right|done].
Qed.

(** X16. When the sweep ends without an exception, the estimator is left
    on one of the enumerated recursion indices, with the allocation matrix
    of that index under its policy and with a criterion recorded; the
    number of models, the costs, the tree depth and the policy are as
    before. *)
Theorem sweep_settles_on_an_enumerated_index (est est' : ACVEstimator)
    (depth : nat) (target_cost : Q) :
  _tree_depth est = Some depth ->
  _allocate_samples_for_all_recursion_indices minimize criterion
    _get_acv_recursion_indices est target_cost = Done tt est' ->
  exists index mat criteria,
    index ∈ _get_acv_recursion_indices (_nmodels est) depth /\
    length index = _nmodels est - 1 /\
    _recursion_index est' = Some index /\
    _create_allocation_matrix (est_policy est) index = Some mat /\
    _allocation_mat est' = Some mat /\
    _optimized_criteria est' = Some criteria /\
    config est' = config est.
Proof.
  intros Hdepth Hsweep.
  pose proof Hsweep as Hcfg.
  unfold _allocate_samples_for_all_recursion_indices in Hsweep.
  rewrite Hdepth in Hsweep. cbv zeta in Hsweep.
  pose proof (sweep_loop_config minimize criterion target_cost
                (_get_acv_recursion_indices (_nmodels est) depth)
                (PInf, None) est) as Hcfg1.
  destruct (sweep_loop _ _ _ _ _ _) as [[bc br] est1|e est1] eqn:Hloop;
    [|done].
  cbn [outcome_est] in Hcfg1.
  apply sweep_loop_best in Hloop.
  destruct Hloop as [[= -> ->]|(r & t & c & index & [= -> ->] & Hin & _)];
    [done|].
  cbn [fst snd] in Hsweep.
  destruct (_set_recursion_index est1 (Some index)) as [est2|e] eqn:Hset;
    [|done].
  pose proof Hset as Hset'.
  apply set_recursion_index_spec in Hset as (mat & Hmat & ->).
  pose proof (set_optimized_params_config criterion
                (set_allocation est1 mat index) r target_cost) as Hcfg2.
  rewrite Hsweep in Hcfg2. cbn [outcome_est] in Hcfg2.
  apply set_optimized_params_done in Hsweep as (Hri & Hm & criteria & Hc).
  injection Hcfg1 as Hp Hn Hcs Hd Ha.
  exists index, mat, criteria. split; [done|]. split.
  { unfold _set_recursion_index in Hset'.
    destruct (decide (_nmodels est1 = 0)); [done|].
    destruct (decide (length index <> _nmodels est1 - 1)); [done|]. lia. }
  split; [by rewrite Hri|]. split; [by rewrite <- Hp|].
  split; [by rewrite Hm|]. split; [done|].
  rewrite Hcfg2. unfold config. cbn. congruence.
Qed.

End SweepProofs.

Lemma sweep_refuses_a_budget_below_the_costs_witness :
  let est := three_model_estimator true in
  let criterion := fun (_ : matrix) (_ : list Z) => Ok PInf in
  let indices := fun (_ _ : nat) => [[0; 0]; [0; 1]]%Z in
  exists mat,
    _create_allocation_matrix GMF [0; 0]%Z = Some mat /\
    (1 < np.sum (_costs est))%Q /\
    _allocate_samples_for_all_recursion_indices failing_minimize criterion
      indices est 1 =
    Failed (ValueError
              "Target cost does not allow at least one sample from each model")
           (set_allocation est mat [0; 0]%Z).
Proof.
  intros est criterion indices.
  assert ((1 < np.sum (_costs est))%Q) as Hsmall by reflexivity.
  eexists. split; [reflexivity|]. split; [exact Hsmall|].
  apply (sweep_refuses_a_budget_below_the_costs failing_minimize criterion
           indices est 2 1 [0; 0]%Z [[0; 1]%Z] _ eq_refl);
    [simpl; lia|reflexivity|reflexivity|reflexivity|exact Hsmall].
Defined.

Lemma sweep_settles_on_an_enumerated_index_witness :
  let est := three_model_estimator false in
  let indices := fun (_ _ : nat) => [[0; 0]; [0; 1]]%Z in
  _tree_depth est = Some 2 /\
  exists est',
    _allocate_samples_for_all_recursion_indices constant_minimize
      first_count_criterion indices est 100 = Done tt est' /\
    exists index mat criteria,
      index ∈ indices (_nmodels est) 2 /\
      length index = _nmodels est - 1 /\
      _recursion_index est' = Some index /\
      _create_allocation_matrix (est_policy est) index = Some mat /\
      _allocation_mat est' = Some mat /\
      _optimized_criteria est' = Some criteria /\
      config est' = config est.
Proof.
  intros est indices. split; [reflexivity|].
  set (est' := outcome_est
                 (_allocate_samples_for_all_recursion_indices
                    constant_minimize first_count_criterion indices est 100)).
  assert (_allocate_samples_for_all_recursion_indices constant_minimize
            first_count_criterion indices est 100 = Done tt est') as Hrun
    by (vm_compute; reflexivity).
  exists est'. split; [exact Hrun|].
  exact (sweep_settles_on_an_enumerated_index constant_minimize
           first_count_criterion indices est est' 2 100 eq_refl Hrun).
Defined.

(** ** Selecting the best subset of models *)

Lemma fval_lt_irrefl a : fval_lt a a = false.
Proof.
  destruct a; simpl; try done.
  destruct (Qlt_le_dec q q) as [H|]; [|done]. by apply Qlt_irrefl in H.
Qed.

Lemma fval_lt_trans a b c :
  fval_lt a b = true -> fval_lt b c = true -> fval_lt a c = true.
Proof.
  destruct a as [x| | |], b as [y| | |], c as [z| | |]; simpl; try done.
  destruct (Qlt_le_dec x y) as [Hxy|]; [|done].
  destruct (Qlt_le_dec y z) as [Hyz|]; [|done].
  destruct (Qlt_le_dec x z) as [|Hzx]; [done|].
  intros _ _. exfalso. apply (Qlt_irrefl x). 
  eapply Qlt_le_trans; [eapply Qlt_trans; eauto|done].
Qed.

Lemma fval_not_lt_below x a b :
  fval_lt a b = true -> fval_lt x b = false -> fval_lt x a = false.
Proof.
  intros Hab Hxb. destruct (fval_lt x a) eqn:Hxa; [|done].
  by rewrite (fval_lt_trans x a b Hxa Hab) in Hxb.
Qed.

(** A loop that keeps the candidate of strictly smallest criterion. *)
Lemma min_fold_spec {A X St} (crit : X -> fval)
    (cand : A -> result (option X)) (getc : St -> fval)
    (body : St -> A -> result St) (upd : A -> X -> St) :
  (forall s a,
     body s a =
     r ← cand a;
     match r with
     | Some e => if fval_lt (crit e) (getc s) then Ok (upd a e) else Ok s
     | None => Ok s
     end) ->
  (forall a e, getc (upd a e) = crit e) ->
  forall xs s s',
    for_each_r body xs s = Ok s' ->
    (s' = s \/
     exists a e, a ∈ xs /\ cand a = Ok (Some e) /\ s' = upd a e /\
                 fval_lt (crit e) (getc s) = true) /\
    (forall a e, a ∈ xs -> cand a = Ok (Some e) ->
       fval_lt (crit e) (getc s') = false) /\
    (forall x, fval_lt x (getc s) = false -> fval_lt x (getc s') = false).
Proof.
  intros Hbody Hupd. induction xs as [|a xs IH]; intros s s' Hrun.
  { injection Hrun as <-. split; [by left|]. split; [|done].
    intros a e Ha. by apply elem_of_nil in Ha. }
  cbn [for_each_r] in Hrun. rewrite Hbody in Hrun.
  destruct (cand a) as [r|e] eqn:Hcand; [|done].
  cbn [mbind result_bind] in Hrun.
  assert (exists s1,
            for_each_r body xs s1 = Ok s' /\
            (s1 = s \/ exists e, r = Some e /\ s1 = upd a e /\
                                 fval_lt (crit e) (getc s) = true) /\
            (forall e, r = Some e -> fval_lt (crit e) (getc s1) = false) /\
            (forall x, fval_lt x (getc s) = false ->
                       fval_lt x (getc s1) = false)) as (s1 & Hrest & H1 & H2 & H3).
  { destruct r as [e|].
    - destruct (fval_lt (crit e) (getc s)) eqn:Hlt;
        cbn [mbind result_bind] in Hrun.
      + exists (upd a e). split; [done|]. split; [right; eauto|].
        split.
        * intros e' [= <-]. rewrite Hupd. apply fval_lt_irrefl.
        * intros x Hx. rewrite Hupd. by apply (fval_not_lt_below x _ (getc s)).
      + exists s. split; [done|]. split; [by left|]. split; [|done].
        by intros e' [= <-].
    - exists s. split; [done|]. split; [by left|]. split; [|done]. done. }
  destruct (IH s1 s' Hrest) as (I1 & I2 & I3).
  split; [|split].
  - destruct I1 as [->|(a' & e' & Ha' & Hc' & -> & Hlt')].
    + destruct H1 as [->|(e & -> & -> & Hlt)]; [by left|].
      right. exists a, e. split; [by left|]. done.
    + right. exists a', e'. split; [by right|]. split; [done|].
      split; [done|].
      destruct H1 as [->|(e & -> & -> & Hlt)]; [done|].
      rewrite Hupd in Hlt'. by apply (fval_lt_trans _ (crit e)).
  - intros a' e' Ha' Hc'. apply elem_of_cons in Ha' as [->|Ha'].
    + apply I3, H2. congruence.
    + by apply (I2 a').
  - intros x Hx. by apply I3, H3.
Qed.

Lemma map_r_lookup {A B} (f : A -> result B) xs ys i y :
  map_r f xs = Ok ys -> ys !! i = Some y ->
  exists x, xs !! i = Some x /\ f x = Ok y.
Proof.
  revert ys i. induction xs as [|x xs IH]; intros ys i Hmap Hy.
  { injection Hmap as <-. done. }
  cbn [map_r] in Hmap. destruct (f x) as [y0|] eqn:Hx; [|done].
  cbn [mbind result_bind] in Hmap.
  destruct (map_r f xs) as [ys0|]; [|done].
  cbn [mbind result_bind] in Hmap. injection Hmap as <-.
  destruct i as [|i].
  - injection Hy as <-. by exists x.
  - by apply (IH ys0 i).
Qed.

Lemma combinations_short {A} (l : list A) r :
  length l < r -> combinations l r = [].
Proof.
  revert r. induction l as [|x l IH]; intros [|r] Hr; cbn in Hr; try lia.
  - done.
  - cbn [combinations]. rewrite !IH by lia. done.
Qed.

Lemma combinations_all {A} (l : list A) : combinations l (length l) = [l].
Proof.
  induction l as [|x l IH]; [done|].
  cbn [length combinations]. rewrite IH.
  rewrite combinations_short by lia. done.
Qed.

Section BestEstimatorProofs.

Context {E est_type : Type}.
Variable optimized_criteria : E -> fval.
Variable get_estimator : est_type -> list nat -> est_kwargs -> result E.
Variable allocate_samples : E -> Q -> result E.

Abbreviation _get_estimator :=
  (BestEstimator._get_estimator get_estimator allocate_samples).
Abbreviation _get_model_subset_estimator :=
  (BestEstimator._get_model_subset_estimator optimized_criteria get_estimator
     allocate_samples).
Abbreviation _get_best_estimator :=
  (BestEstimator._get_best_estimator optimized_criteria get_estimator
     allocate_samples).
Abbreviation serial :=
  (BestEstimator._get_best_model_subset_for_estimator_serial
     optimized_criteria get_estimator allocate_samples).
Abbreviation pool :=
  (BestEstimator._get_best_model_subset_for_estimator_pool
     optimized_criteria get_estimator allocate_samples).

(** X19. For one subset of the models, [_get_model_subset_estimator]
    returns an estimator that one of the estimator types gave for the
    validated keyword arguments, and none of the types gave an estimator of
    strictly smaller criterion; it returns [None] only when no type gave an
    estimator whose criterion is below plus infinity. *)
Theorem subset_estimator_is_the_best_of_the_types
    (self : BestEstimator.t) (nsubset_lfmodels : nat) (target_cost : Q)
    (lf_model_subset_indices : list nat) (best_est : option E) :
  _get_model_subset_estimator self nsubset_lfmodels target_cost
    lf_model_subset_indices = Ok best_est ->
  exists sub_kwargs,
    _validate_kwargs (BestEstimator._kwargs self) nsubset_lfmodels
    = Ok sub_kwargs /\
    (forall est, best_est = Some est ->
       exists est_type,
         est_type ∈ BestEstimator._estimator_types self /\
         _get_estimator self est_type (0 :: lf_model_subset_indices)
           target_cost sub_kwargs = Ok (Some est)) /\
    forall est_type est,
      est_type ∈ BestEstimator._estimator_types self ->
      _get_estimator self est_type (0 :: lf_model_subset_indices)
        target_cost sub_kwargs = Ok (Some est) ->
      fval_lt (optimized_criteria est)
        (match best_est with
         | Some best => optimized_criteria best
         | None => PInf
         end) = false.
Proof.
  unfold BestEstimator._get_model_subset_estimator.
  destruct (_validate_kwargs _ _) as [kw|e]; [|done].
  cbn [mbind result_bind].
  destruct (for_each_r _ _ _) as [[b bc]|e] eqn:Hrun; [|done].
  cbn [mbind result_bind fst]. intros [= <-].
  exists kw. split; [done|].
  pose proof (min_fold_spec optimized_criteria
                (fun ty => _get_estimator self ty
                             (0 :: lf_model_subset_indices) target_cost kw)
                snd
                (BestEstimator.subset_estimator_step optimized_criteria
                   get_estimator allocate_samples self
                   (0 :: lf_model_subset_indices) target_cost kw)
                (fun _ e => (Some e, optimized_criteria e))
                ltac:(done) ltac:(done) _ _ _ Hrun) as (H1 & H2 & _).
  cbn [snd] in *.
  destruct H1 as [[= -> ->]|(ty & e & Hty & Hc & [= -> ->] & _)].
  - split; [done|]. exact H2.
  - split; [intros est [= <-]; eauto|]. exact H2.
Qed.

Lemma serial_sizes_spec (self : BestEstimator.t) (target_cost : Q) sizes
    (s s' : BestEstimator.best_state) :
  for_each_r (fun best k => serial self k target_cost best) sizes s = Ok s' ->
  (s' = s \/
   exists k lf e,
     k ∈ sizes /\
     lf ∈ combinations (BestEstimator._lf_model_indices self) k /\
     _get_model_subset_estimator self k target_cost lf = Ok (Some e) /\
     s' = (optimized_criteria e, Some (0 :: lf), Some e)) /\
  (forall k lf e,
     k ∈ sizes ->
     lf ∈ combinations (BestEstimator._lf_model_indices self) k ->
     _get_model_subset_estimator self k target_cost lf = Ok (Some e) ->
     fval_lt (optimized_criteria e) s'.1.1 = false) /\
  (forall x, fval_lt x s.1.1 = false -> fval_lt x s'.1.1 = false).
Proof.
  revert s s'. induction sizes as [|k sizes IH]; intros s s' Hrun.
  { injection Hrun as <-. split; [by left|]. split; [|done].
    intros k lf e Hk. by apply elem_of_nil in Hk. }
  cbn [for_each_r] in Hrun.
  destruct (serial self k target_cost s) as [s1|e] eqn:Hk; [|done].
  cbn [mbind result_bind] in Hrun.
  pose proof (min_fold_spec optimized_criteria
                (_get_model_subset_estimator self k target_cost)
                (fun st : BestEstimator.best_state => st.1.1)
                (BestEstimator.serial_step optimized_criteria get_estimator
                   allocate_samples self k target_cost)
                (fun lf e => (optimized_criteria e, Some (0 :: lf), Some e))
                ltac:(done) ltac:(done) _ _ _ Hk) as (H1 & H2 & H3).
  destruct (IH s1 s' Hrun) as (I1 & I2 & I3).
  split; [|split].
  - destruct I1 as [->|(k' & lf & e & Hk' & Hlf & Hc & ->)].
    + destruct H1 as [->|(lf & e & Hlf & Hc & -> & _)]; [by left|].
      right. exists k, lf, e. split; [by left|]. done.
    + right. exists k', lf, e. split; [by right|]. done.
  - intros k' lf e Hk' Hlf Hc. apply elem_of_cons in Hk' as [->|Hk'].
    + apply I3. by apply (H2 lf).
    + by apply (I2 k' lf).
  - intros x Hx. by apply I3, H3.
Qed.

(** X20. Without a pool of processes, [_get_best_estimator] returns an
    estimator of one of the subsets it went through, together with the
    models of that subset, and no subset of any of the sizes gave an
    estimator of strictly smaller criterion. *)
Theorem best_estimator_is_the_best_of_the_subsets
    (self : BestEstimator.t) (target_cost : Q) (nprocs : Z) (best_est : E)
    (best_model_indices : option (list nat)) :
  (nprocs <= 1)%Z ->
  _get_best_estimator self target_cost nprocs
  = Ok (best_est, best_model_indices) ->
  let sizes :=
    match BestEstimator._max_nmodels self with
    | None => range (BestEstimator._ncandidate_models self - 1)
                (BestEstimator._ncandidate_models self)
    | Some _ => range 1 (BestEstimator._ncandidate_models self)
    end in
  (exists k lf,
     k ∈ sizes /\
     lf ∈ combinations (BestEstimator._lf_model_indices self) k /\
     best_model_indices = Some (0 :: lf) /\
     _get_model_subset_estimator self k target_cost lf = Ok (Some best_est)) /\
  forall k lf est,
    k ∈ sizes ->
    lf ∈ combinations (BestEstimator._lf_model_indices self) k ->
    _get_model_subset_estimator self k target_cost lf = Ok (Some est) ->
    fval_lt (optimized_criteria est) (optimized_criteria best_est) = false.
Proof.
  intros Hprocs Hrun sizes. unfold BestEstimator._get_best_estimator in Hrun.
  fold sizes in Hrun.
  assert (forall xs s,
            for_each_r
              (fun best k =>
                 if decide (1 < nprocs)%Z then pool self k target_cost best
                 else serial self k target_cost best) xs s =
            for_each_r (fun best k => serial self k target_cost best) xs s)
    as Hser.
  { induction xs as [|k xs IH]; intros s; [done|].
    cbn [for_each_r]. rewrite decide_False by lia.
    destruct (serial self k target_cost s); [|done].
    cbn [mbind result_bind]. apply IH. }
  rewrite Hser in Hrun.
  destruct (for_each_r _ sizes _) as [[[bc bi] be]|e] eqn:Hloop; [|done].
  cbn [mbind result_bind fst snd] in Hrun.
  destruct be as [e0|]; [|done]. injection Hrun as <- <-.
  destruct (serial_sizes_spec self target_cost sizes _ _ Hloop)
    as (H1 & H2 & _).
  destruct H1 as [[=]|(k & lf & e & Hk & Hlf & Hc & [= -> -> ->])].
  split; [exists k, lf; done|]. exact H2.
Qed.

Lemma pool_result (self : BestEstimator.t) (target_cost : Q) k
    (s s' : BestEstimator.best_state) e :
  pool self k target_cost s = Ok s' -> s'.2 = Some e ->
  exists lf,
    lf ∈ combinations (BestEstimator._lf_model_indices self) k /\
    _get_model_subset_estimator self k target_cost lf = Ok (Some e) /\
    s' = (optimized_criteria e, Some (0 :: lf), Some e).
Proof.
  unfold BestEstimator._get_best_model_subset_for_estimator_pool.
  destruct (map_r _ _) as [results|?] eqn:Hmap; [|done].
  cbn [mbind result_bind].
  destruct (argmin _) as [II|]; [|done].
  destruct ((_ <$> results) !! II) as [c|];
    cbn [lift mbind result_bind]; [|done].
  destruct (negb (isfinite c)).
  { intros [= <-] Hn. cbn in Hn. discriminate Hn. }
  destruct (results !! II) as [[e'|]|] eqn:Hres;
    cbn [mjoin option_join mbind option_bind id lift result_bind]; [|done..].
  destruct (combinations _ k !! II) as [lf|] eqn:Hlf;
    cbn [lift mbind result_bind]; [|done].
  intros [= <-] [= ->].
  exists lf. split; [by apply list_elem_of_lookup_2 in Hlf|]. split; [|done].
  destruct (map_r_lookup _ _ _ _ _ Hmap Hres) as (lf' & Hlf' & Hc).
  congruence.
Qed.

(** X21. With a pool of processes, [_get_best_estimator] keeps what the
    last subset size gave and nothing of the sizes before it: the estimator
    it returns is always the one of all the candidate models, also when
    [max_nmodels] asks for the smaller subsets to be tried. *)
Theorem pool_selection_keeps_the_last_size_only
    (self : BestEstimator.t) (target_cost : Q) (nprocs : Z) (best_est : E)
    (best_model_indices : option (list nat)) :
  (1 < nprocs)%Z ->
  _get_best_estimator self target_cost nprocs
  = Ok (best_est, best_model_indices) ->
  best_model_indices = Some (0 :: BestEstimator._lf_model_indices self) /\
  _get_model_subset_estimator self
    (BestEstimator._ncandidate_models self - 1) target_cost
    (BestEstimator._lf_model_indices self) = Ok (Some best_est).
Proof.
  intros Hprocs Hrun. unfold BestEstimator._get_best_estimator in Hrun.
  set (n := BestEstimator._ncandidate_models self) in *.
  set (sizes := match BestEstimator._max_nmodels self with
                | None => range (n - 1) n
                | Some _ => range 1 n
                end) in *.
  destruct (for_each_r _ sizes _) as [[[bc bi] be]|e] eqn:Hloop; [|done].
  cbn [mbind result_bind fst snd] in Hrun.
  destruct be as [e0|]; [|done]. injection Hrun as <- <-.
  assert (sizes = [] \/ exists pre, sizes = pre ++ [n - 1]) as [Hs|[pre Hs]].
  { unfold sizes. destruct (BestEstimator._max_nmodels self).
    - destruct (decide (n <= 1)).
      + left. unfold range. by replace (n - 1) with 0 by lia.
      + right. exists (range 1 (n - 1)).
        replace n with (S (n - 1)) at 1 by lia.
        apply range_snoc. lia.
    - destruct (decide (n = 0)) as [->|].
      + by left.
      + right. exists []. unfold range.
        by replace (n - (n - 1)) with 1 by lia. }
  { rewrite Hs in Hloop. by injection Hloop. }
  rewrite Hs in Hloop.
  assert (forall xs ys s,
            for_each_r
              (fun best k =>
                 if decide (1 < nprocs)%Z then pool self k target_cost best
                 else serial self k target_cost best) (xs ++ ys) s =
            s1 ← for_each_r
                   (fun best k =>
                      if decide (1 < nprocs)%Z
                      then pool self k target_cost best
                      else serial self k target_cost best) xs s;
            for_each_r
              (fun best k =>
                 if decide (1 < nprocs)%Z then pool self k target_cost best
                 else serial self k target_cost best) ys s1) as Happ.
  { induction xs as [|x xs IH]; intros ys s; [done|].
    cbn [app for_each_r].
    destruct (if decide (1 < nprocs)%Z then _ else _); [|done].
    cbn [mbind result_bind]. apply IH. }
  rewrite Happ in Hloop.
  destruct (for_each_r _ pre _) as [s1|]; [|done].
  cbn [mbind result_bind for_each_r] in Hloop.
  rewrite decide_True in Hloop by done.
  destruct (pool self (n - 1) target_cost s1) as [s2|] eqn:Hpool; [|done].
  cbn [mbind result_bind] in Hloop. injection Hloop as ->.
  destruct (pool_result self target_cost (n - 1) s1 _ e0 Hpool eq_refl)
    as (lf & Hlf & Hc & [= _ -> ]).
  assert (lf = BestEstimator._lf_model_indices self) as ->.
  { pose proof (combinations_all (BestEstimator._lf_model_indices self)) as Hall.
    unfold BestEstimator._lf_model_indices in Hall at 2.
    rewrite length_seq in Hall. fold n in Hall. rewrite Hall in Hlf.
    by apply list_elem_of_singleton in Hlf. }
  done.
Qed.

End BestEstimatorProofs.

Lemma subset_estimator_is_the_best_of_the_types_witness :
  let kwargs := {| kw_recursion_index := None; kw_tree_depth := None |} in
  BestEstimator._get_model_subset_estimator example_criteria
    example_get_estimator example_allocate_samples example_selection 1 10 [2]
  = Ok (Some (1, [0; 2])) /\
  forall est_type est,
    est_type ∈ [2; 0; 1] ->
    BestEstimator._get_estimator example_get_estimator
      example_allocate_samples example_selection est_type [0; 2] 10 kwargs
    = Ok (Some est) ->
    fval_lt (example_criteria est) (example_criteria (1, [0; 2])) = false.
Proof.
  intros kwargs.
  assert (BestEstimator._get_model_subset_estimator example_criteria
            example_get_estimator example_allocate_samples example_selection
            1 10 [2] = Ok (Some (1, [0; 2]))) as Hrun
    by (vm_compute; reflexivity).
  split; [exact Hrun|].
  destruct (subset_estimator_is_the_best_of_the_types example_criteria
              example_get_estimator example_allocate_samples
              example_selection 1 10 [2] _ Hrun) as (kw & Hkw & _ & Hmin).
  vm_compute in Hkw. injection Hkw as <-. exact Hmin.
Defined.

Lemma best_estimator_is_the_best_of_the_subsets_witness :
  (1 <= 1)%Z /\
  BestEstimator._get_best_estimator example_criteria example_get_estimator
    example_allocate_samples example_selection 10 1
  = Ok ((1, [0; 1]), Some [0; 1]) /\
  forall k lf est,
    k ∈ [1; 2] ->
    lf ∈ combinations [1; 2] k ->
    BestEstimator._get_model_subset_estimator example_criteria
      example_get_estimator example_allocate_samples example_selection k 10 lf
    = Ok (Some est) ->
    fval_lt (example_criteria est) (example_criteria (1, [0; 1])) = false.
Proof.
  assert (BestEstimator._get_best_estimator example_criteria
            example_get_estimator example_allocate_samples example_selection
            10 1 = Ok ((1, [0; 1]), Some [0; 1])) as Hrun
    by (vm_compute; reflexivity).
  split; [lia|]. split; [exact Hrun|].
  exact (proj2 (best_estimator_is_the_best_of_the_subsets example_criteria
                  example_get_estimator example_allocate_samples
                  example_selection 10 1 _ _ ltac:(lia) Hrun)).
Defined.

Lemma pool_selection_keeps_the_last_size_only_witness :
  (1 < 2)%Z /\
  BestEstimator._get_best_estimator example_criteria example_get_estimator
    example_allocate_samples example_selection 10 2
  = Ok ((1, [0; 1; 2]), Some [0; 1; 2]) /\
  BestEstimator._get_model_subset_estimator example_criteria
    example_get_estimator example_allocate_samples example_selection 2 10
    [1; 2] = Ok (Some (1, [0; 1; 2])).
Proof.
  assert (BestEstimator._get_best_estimator example_criteria
            example_get_estimator example_allocate_samples example_selection
            10 2 = Ok ((1, [0; 1; 2]), Some [0; 1; 2])) as Hrun
    by (vm_compute; reflexivity).
  split; [lia|]. split; [exact Hrun|].
  exact (proj2 (pool_selection_keeps_the_last_size_only example_criteria
                  example_get_estimator example_allocate_samples
                  example_selection 10 2 _ _ ltac:(lia) Hrun)).
Defined.

(** ** The keyword arguments of a model subset *)

Lemma arange_from_take start n k :
  take k (np.arange_from start n) = np.arange_from start (Nat.min k n).
Proof.
  revert start k. induction n as [|n IH]; intros start [|k]; try done.
  cbn [np.arange_from take Nat.min]. by rewrite IH.
Qed.

Lemma allclose_take a b n :
  np.allclose a b = true -> np.allclose (take n a) (take n b) = true.
Proof.
  unfold np.allclose. rewrite <- zip_with_take.
  generalize (zip_with pair a b). intros l. revert n.
  induction l as [|x l IH]; intros [|n] H; try done.
  cbn [take forallb] in *. apply andb_true_iff in H as [Hx Hl].
  by rewrite Hx, IH.
Qed.

(** X23. The keyword arguments that [_validate_kwargs] returns are valid
    again: their recursion index has at most [nsubset_lfmodels] entries,
    their tree depth is at most [nsubset_lfmodels], and validating them
    for a second number of models is validating the first arguments for
    the smaller of the two numbers. *)
Theorem validated_kwargs_are_valid_again (kwargs sub_kwargs : est_kwargs)
    (nsubset_lfmodels : nat) :
  _validate_kwargs kwargs nsubset_lfmodels = Ok sub_kwargs ->
  (forall index, kw_recursion_index sub_kwargs = Some index ->
     length index <= nsubset_lfmodels) /\
  (forall depth, kw_tree_depth sub_kwargs = Some depth ->
     depth <= nsubset_lfmodels) /\
  forall m,
    _validate_kwargs sub_kwargs m =
    _validate_kwargs kwargs (Nat.min nsubset_lfmodels m).
Proof.
  unfold _validate_kwargs. destruct kwargs as [index depth].
  cbn [kw_recursion_index kw_tree_depth].
  set (n := nsubset_lfmodels).
  assert (forall m (d : option nat),
            (fun depth => Nat.min depth m) <$>
              ((fun depth => Nat.min depth n) <$> d) =
            (fun depth => Nat.min depth (Nat.min n m)) <$> d) as Hdepth.
  { intros m [d|]; [|done]. cbn. f_equal. lia. }
  destruct index as [index|].
  - destruct (np.allclose index (np.arange (length index))
              || np.allclose index (np.zeros1 (length index))) eqn:Hclose;
      [|done].
    cbn [mbind result_bind]. intros [= <-].
    cbn [kw_recursion_index kw_tree_depth].
    split; [|split].
    + intros idx [= <-]. unfold np.slice. rewrite length_take. lia.
    + intros d Hd. destruct depth as [d0|]; [|done].
      injection Hd as <-. lia.
    + intros m. rewrite ?Hclose.
      assert (np.slice index 0 n = take n index) as Hs
        by (unfold np.slice; by rewrite drop_0, Nat.sub_0_r).
      rewrite Hs.
      assert (np.allclose (take n index) (np.arange (length (take n index)))
              || np.allclose (take n index)
                   (np.zeros1 (length (take n index))) = true) as ->.
      { rewrite length_take. apply orb_true_iff.
        apply orb_true_iff in Hclose as [H|H]; [left|right].
        - unfold np.arange. rewrite <- arange_from_take.
          by apply allclose_take.
        - unfold np.zeros1. rewrite <- take_replicate.
          by apply allclose_take. }
      cbn [mbind result_bind]. rewrite Hdepth. do 3 f_equal.
      unfold np.slice. rewrite !drop_0, !Nat.sub_0_r, take_take.
      f_equal. lia.
  - cbn [mbind result_bind]. intros [= <-].
    cbn [kw_recursion_index kw_tree_depth].
    split; [done|]. split.
    + intros d Hd. destruct depth as [d0|]; [|done].
      injection Hd as <-. lia.
    + intros m. cbn [mbind result_bind]. by rewrite Hdepth.
Qed.

Lemma validated_kwargs_are_valid_again_witness :
  let kwargs := {| kw_recursion_index := Some [0; 1; 2; 3]%Z;
                   kw_tree_depth := Some 5 |} in
  let sub_kwargs := {| kw_recursion_index := Some [0; 1; 2]%Z;
                       kw_tree_depth := Some 3 |} in
  _validate_kwargs kwargs 3 = Ok sub_kwargs /\
  _validate_kwargs sub_kwargs 2 = _validate_kwargs kwargs 2.
Proof.
  intros kwargs sub_kwargs.
  assert (_validate_kwargs kwargs 3 = Ok sub_kwargs) as Hrun
    by (vm_compute; reflexivity).
  split; [exact Hrun|].
  exact (proj2 (proj2 (validated_kwargs_are_valid_again kwargs sub_kwargs 3
                         Hrun)) 2).
Defined.

(** ** Allocation for one recursion index *)

Section SingleRecursionProofs.

Variable minimize : matrix -> list Q -> Q -> result OptimizeResult.
Variable criterion : matrix -> list Z -> result fval.
Variable _get_acv_recursion_indices : nat -> nat -> list (list Z).

(** X24. [allow_failures] has no effect on an estimator without a tree
    depth: when the solver fails for its recursion index,
    [allocate_samples] raises the [RuntimeError] whether failures are
    allowed or not, and leaves the estimator as it was. *)
Theorem single_recursion_never_tolerates_a_failure (est : ACVEstimator)
    (mat : matrix) (target_cost : Q) :
  _tree_depth est = None ->
  _allocation_mat est = Some mat ->
  (np.sum (_costs est) <= target_cost)%Q ->
  solver_fails minimize mat (_costs est) target_cost ->
  exists msg,
    allocate_samples minimize criterion _get_acv_recursion_indices est
      target_cost = Failed (RuntimeError msg) est.
Proof.
  intros Hdepth Hmat Hcost Hfail.
  unfold allocate_samples. rewrite Hdepth.
  unfold _allocate_samples_for_single_recursion, _allocate_samples,
    _allocate_samples_user_init_guess, _allocate_samples_opt.
  destruct (Qlt_le_dec target_cost (np.sum (_costs est))) as [Hlt|_].
  { exfalso. eapply Qlt_not_le; eauto. }
  rewrite Hmat. unfold solver_fails in Hfail.
  destruct (minimize mat (_costs est) target_cost) as [opt|e].
  - cbn [mbind result_bind]. rewrite Hfail. cbn [mbind result_bind]. eauto.
  - destruct e; try done. cbn [mbind result_bind]. eauto.
Qed.

End SingleRecursionProofs.

Lemma single_recursion_never_tolerates_a_failure_witness :
  exists est mat,
    ACVEstimator_init GMF [1; 1 # 10; 1 # 100]%Q 3 None None true = Ok est /\
    _allow_failures est = true /\
    _allocation_mat est = Some mat /\
    exists msg,
      allocate_samples failing_minimize first_count_criterion
        (fun _ _ => []) est 100
      = Failed (RuntimeError msg) est.
Proof.
  eexists _, _. split; [vm_compute; reflexivity|].
  split; [reflexivity|]. split; [reflexivity|].
  eapply (single_recursion_never_tolerates_a_failure failing_minimize
            first_count_criterion (fun _ _ => [])).
  - reflexivity.
  - reflexivity.
  - vm_compute. discriminate.
  - reflexivity.
Defined.
